(** * Marigraph: frame codec, surface analytics and projection

    A shallow embedding of the parts of the Marigraph sources that the
    specification makes promises about, with the promises stated and
    settled as theorems.

    - [ipc/protocol.ts] and [ipc/frame.ts] (the latter is the last part of
      [src/surface/svi.ts] here): the 8-byte frame header, [encodeFrame],
      [decodeHeader], [decodeFrame], the streaming [FrameReader],
      [encodeTypedArrayFrame] and [decodeTypedArrayPayload].
    - [ipc/serialize.ts] ([unnamed/part_008]): [serializeSurface],
      [deserializeSurface], [serializeSurfaceDelta],
      [deserializeSurfaceDelta].
    - [data/vec.ts] ([unnamed/part_012]): [sum], [min], [max], [minmax],
      [clamp], [normalize], [linspace].
    - [data/surface.ts]: [createSurface], [getZ], [setZ], [getRow],
      [getCol], [interpolate], [computeSlope].
    - [surface/interpolate.ts]: [findIndex], [bilinearInterpolate],
      [cubicInterpolate], [bicubicInterpolate], [nearestInterpolate],
      [interpolate], [sliceAtX], [sliceAtY].
    - [surface/arbitrage.ts]: the calendar, butterfly and vertical checks,
      [checkAllArbitrage], [smoothSurface], [enforceArbitrageFree].
    - [surface/svi.ts]: [sviTotalVariance], [sviImpliedVol],
      [sviDerivative], [checkCalendarArbitrage].
    - [render/project.ts] and [render/gradient.ts] (the second part of
      [src/render/project.ts] here): [project3D], [projectPoints],
      [rotateProjection], [zoomProjection], [normalizePoint],
      [computeRiskMetrics].

    Bytes are [Byte.byte]; multi-byte fields are read and written
    little-endian with coqutil's [le_split] and [le_combine], which is what
    [DataView] does when its last argument is [true].

    A JavaScript number is an IEEE-754 binary64 value.  The numeric code is
    written once, over a type class [Number] of the operations it uses, and
    read at two instances: Rocq's primitive [float], which is binary64 bit
    for bit and runs the code on concrete inputs, and [xreal], the real
    numbers extended with the two infinities and NaN, in which arithmetic
    is exact and laws that rounding breaks can be stated and proved. *)

From Stdlib Require Import ZArith List Bool Lia.
From Stdlib Require String.
From Stdlib Require Import Reals Lra.
From Stdlib Require QArith Qabs.
From Stdlib Require Floats.
From coqutil Require Import Byte Word.LittleEndianList Z.bitblast.
Import ListNotations.

(** * The embedding *)

Local Open Scope Z_scope.

(** ** Byte buffers *)

(** [Uint8Array]: a fixed-length sequence of bytes.  [set] and [slice] are
    the methods of the same names. *)
Module Uint8Array.

Definition t := list byte.

(** [new Uint8Array(n)]: [n] zero bytes. *)
Definition make (n : nat) : t := repeat Byte.x00 n.

(** [dst.set(src, offset)]: overwrite [dst] from [offset] on with [src]. *)
Definition set (dst src : t) (offset : nat) : t :=
  firstn offset dst ++ src ++ skipn (offset + length src) dst.

(** [a.slice(start, stop)]: a copy of the bytes in [start, stop), both ends
    clamped to the length. *)
Definition slice (a : t) (start stop : nat) : t :=
  firstn (stop - start) (skipn start a).

(** [a.slice(start)]. *)
Definition slice_from (a : t) (start : nat) : t := skipn start a.

End Uint8Array.

(** [DataView] accessors, always little-endian here.  A setter stores the
    value modulo the field width, as [ToUint8], [ToUint16] and [ToUint32]
    do. *)
Module DataView.

Definition setUint8 (buf : Uint8Array.t) (offset : nat) (v : Z) : Uint8Array.t :=
  Uint8Array.set buf [byte.of_Z v] offset.

Definition setUint16 (buf : Uint8Array.t) (offset : nat) (v : Z) : Uint8Array.t :=
  Uint8Array.set buf (le_split 2 v) offset.

Definition setUint32 (buf : Uint8Array.t) (offset : nat) (v : Z) : Uint8Array.t :=
  Uint8Array.set buf (le_split 4 v) offset.

Definition getUint8 (buf : Uint8Array.t) (offset : nat) : Z :=
  le_combine (Uint8Array.slice buf offset (offset + 1)).

Definition getUint16 (buf : Uint8Array.t) (offset : nat) : Z :=
  le_combine (Uint8Array.slice buf offset (offset + 2)).

Definition getUint32 (buf : Uint8Array.t) (offset : nat) : Z :=
  le_combine (Uint8Array.slice buf offset (offset + 4)).

End DataView.

(** ** Protocol constants ([protocol.ts]) *)

Inductive MessageType :=
  | INIT | READY | SHUTDOWN | PING | PONG | ERROR | ACK
  | SURFACE_FULL | SURFACE_DELTA | CHAIN_FULL | CHAIN_DELTA | TIMESERIES
  | DISPERSION
  | SET_DATA | APPEND_DATA | CLEAR | SCROLL | FOCUS | RESIZE | SET_TITLE
  | SELECTED | CLICKED | SUBMITTED | KEY_PRESSED | SCROLL_CHANGED
  | RENDER_REQUEST | RENDER_RESULT
  | CONFIG_UPDATE | WIRING_UPDATE.

(** The numeric value of each enum member. *)
Definition MessageType_value (t : MessageType) : Z :=
  match t with
  | INIT => 0x00 | READY => 0x01 | SHUTDOWN => 0x02 | PING => 0x03
  | PONG => 0x04 | ERROR => 0x05 | ACK => 0x06
  | SURFACE_FULL => 0x10 | SURFACE_DELTA => 0x11 | CHAIN_FULL => 0x12
  | CHAIN_DELTA => 0x13 | TIMESERIES => 0x14 | DISPERSION => 0x15
  | SET_DATA => 0x20 | APPEND_DATA => 0x21 | CLEAR => 0x22 | SCROLL => 0x23
  | FOCUS => 0x24 | RESIZE => 0x25 | SET_TITLE => 0x26
  | SELECTED => 0x30 | CLICKED => 0x31 | SUBMITTED => 0x32
  | KEY_PRESSED => 0x33 | SCROLL_CHANGED => 0x34
  | RENDER_REQUEST => 0x40 | RENDER_RESULT => 0x41
  | CONFIG_UPDATE => 0x50 | WIRING_UPDATE => 0x51
  end.

(** [FrameHeader]: the decoder casts the type byte to [MessageType] without
    looking at it, so the field holds the number. *)
Record FrameHeader := mkHeader {
  h_length : Z;
  h_type : Z;
  h_flags : Z;
  h_seq : Z
}.

Definition FRAME_HEADER_SIZE : nat := 8.

Record Frame := mkFrame {
  header : FrameHeader;
  payload : Uint8Array.t
}.

(** ** Frame codec ([frame.ts]) *)

Definition encodeFrame (type : MessageType) (payload : Uint8Array.t)
    (flags seq : Z) : Uint8Array.t :=
  let frame := Uint8Array.make (FRAME_HEADER_SIZE + length payload) in
  let frame := DataView.setUint32 frame 0 (Z.of_nat (length payload)) in
  let frame := DataView.setUint8 frame 4 (MessageType_value type) in
  let frame := DataView.setUint8 frame 5 flags in
  let frame := DataView.setUint16 frame 6 seq in
  Uint8Array.set frame payload FRAME_HEADER_SIZE.

Definition decodeHeader (data : Uint8Array.t) : option FrameHeader :=
  if (length data <? FRAME_HEADER_SIZE)%nat then None
  else Some {| h_length := DataView.getUint32 data 0;
               h_type := DataView.getUint8 data 4;
               h_flags := DataView.getUint8 data 5;
               h_seq := DataView.getUint16 data 6 |}.

Definition decodeFrame (data : Uint8Array.t) : option Frame :=
  match decodeHeader data with
  | None => None
  | Some header =>
      if Z.of_nat (length data) <? Z.of_nat FRAME_HEADER_SIZE + h_length header
      then None
      else
        Some {| header := header;
                payload := Uint8Array.slice data FRAME_HEADER_SIZE
                             (FRAME_HEADER_SIZE + Z.to_nat (h_length header)) |}
  end.

(** The bytes [encodeFrame] produces, field by field. *)
Definition header_bytes (len type flags seq : Z) : Uint8Array.t :=
  le_split 4 len ++ [byte.of_Z type] ++ [byte.of_Z flags] ++ le_split 2 seq.

(** What a well-formed call of [encodeFrame] is expected to decode to. *)
Definition frame_of (type : MessageType) (payload : Uint8Array.t)
    (flags seq : Z) : Frame :=
  {| header := {| h_length := Z.of_nat (length payload);
                  h_type := MessageType_value type;
                  h_flags := flags;
                  h_seq := seq |};
     payload := payload |}.

(** ** Streaming reader ([frame.ts], class [FrameReader]) *)

(** The reader's only field is its buffer; every method is a function from
    the reader before the call to the result and the reader after it. *)
Module FrameReader.

Record t := mk { buffer : Uint8Array.t }.

Definition new : t := {| buffer := Uint8Array.make 0 |}.

Definition append (r : t) (data : Uint8Array.t) : t :=
  let newBuffer := Uint8Array.make (length (buffer r) + length data) in
  let newBuffer := Uint8Array.set newBuffer (buffer r) 0 in
  let newBuffer := Uint8Array.set newBuffer data (length (buffer r)) in
  {| buffer := newBuffer |}.

Definition read (r : t) : option Frame * t :=
  if (length (buffer r) <? FRAME_HEADER_SIZE)%nat then (None, r)
  else
    match decodeHeader (buffer r) with
    | None => (None, r)
    | Some header =>
        let frameSize := Z.of_nat FRAME_HEADER_SIZE + h_length header in
        if Z.of_nat (length (buffer r)) <? frameSize then (None, r)
        else
          let payload :=
            Uint8Array.slice (buffer r) FRAME_HEADER_SIZE (Z.to_nat frameSize) in
          (Some {| header := header; payload := payload |},
           {| buffer := Uint8Array.slice_from (buffer r) (Z.to_nat frameSize) |})
    end.

(** The [while] loop of [readAll].  Every round that does not leave the loop
    removes at least the eight header bytes from the buffer, so a bound of
    one more than the buffer length is never reached ([readAll_drains]). *)
Fixpoint readAll_loop (rounds : nat) (r : t) (frames : list Frame)
    : list Frame * t :=
  match rounds with
  | O => (frames, r)
  | S rounds' =>
      match read r with
      | (None, r') => (frames, r')
      | (Some frame, r') => readAll_loop rounds' r' (frames ++ [frame])
      end
  end.

Definition readAll (r : t) : list Frame * t :=
  readAll_loop (S (length (buffer r))) r [].

Definition pending (r : t) : nat := length (buffer r).

End FrameReader.

(** A consumer's use of a reader: any interleaving of the three methods.
    [run] collects the frames the calls return, in call order. *)
Inductive ReaderCall :=
  | Append (data : Uint8Array.t)
  | Read
  | ReadAll.

Fixpoint run (r : FrameReader.t) (calls : list ReaderCall)
    : list Frame * FrameReader.t :=
  match calls with
  | [] => ([], r)
  | Append data :: calls' => run (FrameReader.append r data) calls'
  | Read :: calls' =>
      let '(frame, r') := FrameReader.read r in
      let '(frames, r'') := run r' calls' in
      (match frame with Some f => f :: frames | None => frames end, r'')
  | ReadAll :: calls' =>
      let '(frames1, r') := FrameReader.readAll r in
      let '(frames2, r'') := run r' calls' in
      (frames1 ++ frames2, r'')
  end.

(** All bytes handed to [append], in call order. *)
Fixpoint appended (calls : list ReaderCall) : Uint8Array.t :=
  match calls with
  | [] => []
  | Append data :: calls' => data ++ appended calls'
  | _ :: calls' => appended calls'
  end.

(** The arguments of one [encodeFrame] call. *)
Record Message := mkMessage {
  m_type : MessageType;
  m_payload : Uint8Array.t;
  m_flags : Z;
  m_seq : Z
}.

Definition encodable (m : Message) : Prop :=
  0 <= m_flags m <= 255 /\ 0 <= m_seq m <= 65535 /\
  Z.of_nat (length (m_payload m)) < 2 ^ 32.

Definition encodeMessage (m : Message) : Uint8Array.t :=
  encodeFrame (m_type m) (m_payload m) (m_flags m) (m_seq m).

Definition frame_of_message (m : Message) : Frame :=
  frame_of (m_type m) (m_payload m) (m_flags m) (m_seq m).

(** The byte stream of a sequence of frames. *)
Definition stream (ms : list Message) : Uint8Array.t :=
  concat (map encodeMessage ms).

(** The usual consumer: every chunk that arrives is appended and the reader
    is drained with [readAll] at once. *)
Definition feed (chunks : list Uint8Array.t) : list ReaderCall :=
  flat_map (fun chunk => [Append chunk; ReadAll]) chunks.

Local Close Scope Z_scope.

(** ** Numbers *)

(** The operations on numbers that the sources use.  [of_Z] is an integer
    literal or an integer-valued count; [NaN] is also what arithmetic and
    comparisons make of [undefined]. *)
Class Number (num : Type) := {
  of_Z : Z -> num;
  NaN : num;
  Infinity : num;
  nadd : num -> num -> num;
  nsub : num -> num -> num;
  nmul : num -> num -> num;
  ndiv : num -> num -> num;
  nrem : num -> num -> num;
  nopp : num -> num;
  nabs : num -> num;
  nsqrt : num -> num;
  nmax : num -> num -> num;
  nmin : num -> num -> num;
  nltb : num -> num -> bool;
  nleb : num -> num -> bool;
  neqb : num -> num -> bool
}.

Declare Scope num_scope.
Delimit Scope num_scope with num.
Infix "+" := nadd : num_scope.
Infix "-" := nsub : num_scope.
Infix "*" := nmul : num_scope.
Infix "/" := ndiv : num_scope.
Notation "- a" := (nopp a) : num_scope.
Infix "<?" := nltb (at level 70) : num_scope.
Infix "<=?" := nleb (at level 70) : num_scope.
Notation "a >? b" := (nltb b a) (at level 70) : num_scope.
Notation "a >=? b" := (nleb b a) (at level 70) : num_scope.
Infix "=?" := neqb (at level 70) : num_scope.

(** A decimal literal such as [0.001], written as the quotient of two
    integers.  Division rounds to the nearest double, which is the double
    the literal denotes, as long as both integers are below 2^53. *)
Definition dec {num} `{Number num} (p q : Z) : num := (of_Z p / of_Z q)%num.

(** [v[i]!] on a typed array: the element, or [undefined] out of range. *)
Definition get {num} `{Number num} (v : list num) (i : nat) : num :=
  nth i v NaN.

(** *** binary64 *)

Module Float64.

Import Floats.

Definition of_Z (z : Z) : float :=
  SF2Prim (SpecFloat.binary_normalize prec emax z 0 false).

(** [Math.max]: NaN if either argument is; of two zeros the positive one. *)
Definition max (a b : float) : float :=
  if PrimFloat.is_nan a || PrimFloat.is_nan b then PrimFloat.nan
  else if PrimFloat.ltb a b then b
  else if PrimFloat.ltb b a then a
  else if PrimFloat.get_sign a then b else a.

(** [Math.min]: NaN if either argument is; of two zeros the negative one. *)
Definition min (a b : float) : float :=
  if PrimFloat.is_nan a || PrimFloat.is_nan b then PrimFloat.nan
  else if PrimFloat.ltb a b then a
  else if PrimFloat.ltb b a then b
  else if PrimFloat.get_sign a then a else b.

(** [a % b]: the remainder of the division truncated towards zero, with the
    sign of [a].  It is computed on the exact integer multiples of the
    smaller unit in the last place; the result is representable. *)
Definition rem (a b : float) : float :=
  match Prim2SF a, Prim2SF b with
  | S754_nan, _ | _, S754_nan => PrimFloat.nan
  | S754_infinity _, _ => PrimFloat.nan
  | _, S754_zero _ => PrimFloat.nan
  | S754_zero _, _ => a
  | _, S754_infinity _ => a
  | S754_finite sa ma ea, S754_finite _ mb eb =>
      let e := Z.min ea eb in
      let r := Z.modulo (Z.pos ma * 2 ^ (ea - e)) (Z.pos mb * 2 ^ (eb - e)) in
      SF2Prim (SpecFloat.binary_normalize prec emax (if sa then Z.opp r else r) e sa)
  end.

End Float64.

#[export] Instance float_Number : Number PrimFloat.float := {|
  of_Z := Float64.of_Z;
  NaN := PrimFloat.nan;
  Infinity := PrimFloat.infinity;
  nadd := PrimFloat.add;
  nsub := PrimFloat.sub;
  nmul := PrimFloat.mul;
  ndiv := PrimFloat.div;
  nrem := Float64.rem;
  nopp := PrimFloat.opp;
  nabs := PrimFloat.abs;
  nsqrt := PrimFloat.sqrt;
  nmax := Float64.max;
  nmin := Float64.min;
  nltb := PrimFloat.ltb;
  nleb := PrimFloat.leb;
  neqb := PrimFloat.eqb
|}.

(** *** Exact arithmetic: the reals with infinities and NaN *)

Inductive xreal :=
  | Fin (r : R)
  | PInf
  | NInf
  | XNaN.

Module XReal.

Local Open Scope R_scope.

Definition opp (a : xreal) : xreal :=
  match a with
  | Fin r => Fin (- r)
  | PInf => NInf
  | NInf => PInf
  | XNaN => XNaN
  end.

Definition add (a b : xreal) : xreal :=
  match a, b with
  | XNaN, _ | _, XNaN => XNaN
  | Fin r, Fin s => Fin (r + s)
  | PInf, NInf | NInf, PInf => XNaN
  | PInf, _ | _, PInf => PInf
  | NInf, _ | _, NInf => NInf
  end.

Definition sub (a b : xreal) : xreal := add a (opp b).

(** An infinity [inf] scaled by the finite [r]: by its sign, NaN for zero. *)
Definition scale (r : R) (inf : xreal) : xreal :=
  if Rlt_dec 0 r then inf else if Rlt_dec r 0 then opp inf else XNaN.

Definition mul (a b : xreal) : xreal :=
  match a, b with
  | XNaN, _ | _, XNaN => XNaN
  | Fin r, Fin s => Fin (r * s)
  | Fin r, PInf | PInf, Fin r => scale r PInf
  | Fin r, NInf | NInf, Fin r => scale r NInf
  | PInf, PInf | NInf, NInf => PInf
  | PInf, NInf | NInf, PInf => NInf
  end.

(** Division; there is one zero here, and it divides like [+0]. *)
Definition div (a b : xreal) : xreal :=
  match a, b with
  | XNaN, _ | _, XNaN => XNaN
  | Fin r, Fin s => if Req_dec_T s 0 then scale r PInf else Fin (r / s)
  | Fin _, (PInf | NInf) => Fin 0
  | PInf, Fin s => if Rle_dec 0 s then PInf else NInf
  | NInf, Fin s => if Rle_dec 0 s then NInf else PInf
  | (PInf | NInf), (PInf | NInf) => XNaN
  end.

(** The integer part of [r], rounding towards zero. *)
Definition trunc (r : R) : Z :=
  if Rle_dec 0 r then Int_part r else Z.opp (Int_part (- r)).

Definition rem (a b : xreal) : xreal :=
  match a, b with
  | XNaN, _ | _, XNaN => XNaN
  | (PInf | NInf), _ => XNaN
  | Fin r, (PInf | NInf) => Fin r
  | Fin r, Fin s => if Req_dec_T s 0 then XNaN else Fin (r - s * IZR (trunc (r / s)))
  end.

Definition abs (a : xreal) : xreal :=
  match a with
  | Fin r => Fin (Rabs r)
  | PInf | NInf => PInf
  | XNaN => XNaN
  end.

Definition sqrt (a : xreal) : xreal :=
  match a with
  | Fin r => if Rlt_dec r 0 then XNaN else Fin (R_sqrt.sqrt r)
  | PInf => PInf
  | NInf | XNaN => XNaN
  end.

Definition ltb (a b : xreal) : bool :=
  match a, b with
  | XNaN, _ | _, XNaN => false
  | Fin r, Fin s => if Rlt_dec r s then true else false
  | NInf, (Fin _ | PInf) | Fin _, PInf => true
  | _, _ => false
  end.

Definition leb (a b : xreal) : bool :=
  match a, b with
  | XNaN, _ | _, XNaN => false
  | Fin r, Fin s => if Rle_dec r s then true else false
  | NInf, _ | _, PInf => true
  | _, _ => false
  end.

Definition eqb (a b : xreal) : bool :=
  match a, b with
  | Fin r, Fin s => if Req_dec_T r s then true else false
  | PInf, PInf | NInf, NInf => true
  | _, _ => false
  end.

Definition max (a b : xreal) : xreal :=
  match a, b with
  | XNaN, _ | _, XNaN => XNaN
  | _, _ => if ltb a b then b else a
  end.

Definition min (a b : xreal) : xreal :=
  match a, b with
  | XNaN, _ | _, XNaN => XNaN
  | _, _ => if ltb a b then a else b
  end.

End XReal.

#[export] Instance xreal_Number : Number xreal := {|
  of_Z := fun z => Fin (IZR z);
  NaN := XNaN;
  Infinity := PInf;
  nadd := XReal.add;
  nsub := XReal.sub;
  nmul := XReal.mul;
  ndiv := XReal.div;
  nrem := XReal.rem;
  nopp := XReal.opp;
  nabs := XReal.abs;
  nsqrt := XReal.sqrt;
  nmax := XReal.max;
  nmin := XReal.min;
  nltb := XReal.ltb;
  nleb := XReal.leb;
  neqb := XReal.eqb
|}.

(** [Math.cos], [Math.sin] and [Math.PI].  The language leaves the first two
    to the implementation's approximation, so they have no binary64
    instance here; in exact arithmetic they are the real functions. *)
Class Trig (num : Type) := {
  ncos : num -> num;
  nsin : num -> num;
  nPI : num
}.

#[export] Instance xreal_Trig : Trig xreal := {|
  ncos := fun a => match a with Fin r => Fin (cos r) | _ => XNaN end;
  nsin := fun a => match a with Fin r => Fin (sin r) | _ => XNaN end;
  nPI := Fin PI
|}.

(** ** Vectors and surfaces ([vec.ts], [surface.ts]) *)

(** [Vec64]: a [Float64Array], as the list of its elements. *)
Definition Vec (num : Type) := list num.

(** [v[i] = a] on a typed array: nothing happens out of range. *)
Fixpoint store {A} (v : list A) (i : nat) (a : A) : list A :=
  match v, i with
  | [], _ => []
  | _ :: v', O => a :: v'
  | b :: v', S i' => b :: store v' i' a
  end.

(** The default axis labels. *)
Module DefaultLabel.
Import String.
Definition X : string := "X".
Definition Y : string := "Y".
Definition Z : string := "Z".
End DefaultLabel.

Module Surface.

Record Meta (num : Type) := mkMeta {
  xLabel : String.string;
  yLabel : String.string;
  zLabel : String.string;
  xDomain : num * num;
  yDomain : num * num;
  zDomain : num * num;
  timestamp : num
}.

Record t (num : Type) := mk {
  x : Vec num;
  y : Vec num;
  z : Vec num;
  nx : nat;
  ny : nat;
  meta : Meta num
}.

Arguments mkMeta {num}.
Arguments xLabel {num}.
Arguments yLabel {num}.
Arguments zLabel {num}.
Arguments xDomain {num}.
Arguments yDomain {num}.
Arguments zDomain {num}.
Arguments timestamp {num}.
Arguments mk {num}.
Arguments x {num}.
Arguments y {num}.
Arguments z {num}.
Arguments nx {num}.
Arguments ny {num}.
Arguments meta {num}.

(** [{ ...s, z }]. *)
Definition with_z {num} (s : t num) (z' : Vec num) : t num :=
  {| x := x s; y := y s; z := z'; nx := nx s; ny := ny s; meta := meta s |}.

(** The length relations of the data model. *)
Definition well_formed {num} (s : t num) : Prop :=
  length (x s) = nx s /\ length (y s) = ny s /\
  length (z s) = (nx s * ny s)%nat.

End Surface.

Section VecSurface.

Context {num : Type} `{Number num}.

Local Open Scope num_scope.

(** [minmax]: one pass, starting from [(Infinity, -Infinity)]. *)
Definition minmax (v : Vec num) : num * num :=
  fold_left
    (fun '(lo, hi) val =>
       let lo := if val <? lo then val else lo in
       let hi := if val >? hi then val else hi in
       (lo, hi))
    v (Infinity, - Infinity).

(** The optional labels of [createSurface] and its [?? 'X'] defaults. *)
Record Labels := mkLabels {
  l_x : option String.string;
  l_y : option String.string;
  l_z : option String.string
}.

Definition no_labels : Labels := {| l_x := None; l_y := None; l_z := None |}.

Definition nullish {A} (o : option A) (default : A) : A :=
  match o with Some a => a | None => default end.

(** [createSurface]; [now] is what [Date.now()] returns.  The only [throw]
    is the length check; its message is not modelled. *)
Inductive CreateError := LengthMismatch (zlen expected : nat).

Definition createSurface (now : num) (x y z : Vec num) (labels : Labels)
    : CreateError + Surface.t num :=
  let nx := length x in
  let ny := length y in
  if negb (length z =? nx * ny)%nat then inl (LengthMismatch (length z) (nx * ny))
  else
    inr {| Surface.x := x;
           Surface.y := y;
           Surface.z := z;
           Surface.nx := nx;
           Surface.ny := ny;
           Surface.meta :=
             {| Surface.xLabel := nullish (l_x labels) DefaultLabel.X;
                Surface.yLabel := nullish (l_y labels) DefaultLabel.Y;
                Surface.zLabel := nullish (l_z labels) DefaultLabel.Z;
                Surface.xDomain := minmax x;
                Surface.yDomain := minmax y;
                Surface.zDomain := minmax z;
                Surface.timestamp := now |} |}.

End VecSurface.

(** ** Interpolation ([interpolate.ts]) *)

Section Interpolate.

Context {num : Type} `{Number num}.

Local Open Scope num_scope.

(** [(a + b) >>> 1] on two indices: the sum is taken modulo 2^32 and
    shifted right by one. *)
Definition midpoint (lo hi : nat) : nat :=
  Z.to_nat (Z.shiftr ((Z.of_nat lo + Z.of_nat hi) mod 2 ^ 32) 1).

(** The binary search loop of [findIndex], from the state [(lo, hi)].
    [rounds] bounds the number of rounds; below 2^31 elements every round
    brings [lo] and [hi] strictly closer, and the bound is not what stops
    the loop ([findIndex_loop_enough]). *)
Fixpoint findIndex_loop (rounds : nat) (values : Vec num) (target : num)
    (lo hi : nat) : nat :=
  match rounds with
  | O => lo
  | S rounds' =>
      if (lo <? hi - 1)%nat then
        let mid := midpoint lo hi in
        if get values mid <=? target
        then findIndex_loop rounds' values target mid hi
        else findIndex_loop rounds' values target lo mid
      else lo
  end.

(** [findIndex]: the index [i] with [values[i] <= target < values[i+1]]. *)
Definition findIndex (values : Vec num) (target : num) : Z :=
  let n := length values in
  if (n =? 0)%nat then (-1)%Z
  else if target <=? get values 0 then 0%Z
  else if target >=? get values (n - 1) then (Z.of_nat n - 2)%Z
  else Z.of_nat (findIndex_loop n values target 0 (n - 1)).

Definition lerp (a b t : num) : num := a + (b - a) * t.

(** A read with the source's non-null assertion ([v[i]!]) checked: [None]
    where the element does not exist. *)
Definition read (v : Vec num) (i : Z) : option num :=
  if (i <? 0)%Z then None else nth_error v (Z.to_nat i).

Definition bind {A B} (o : option A) (k : A -> option B) : option B :=
  match o with Some a => k a | None => None end.

Notation "'let?' a := o 'in' k" := (bind o (fun a => k))
  (at level 10, a name, o at level 100, k at level 200).

(** The cell [bilinearInterpolate] picks for a query. *)
Definition cell (surface : Surface.t num) (x y : num) : Z * Z :=
  let nx := Z.of_nat (Surface.nx surface) in
  let ny := Z.of_nat (Surface.ny surface) in
  let xi := findIndex (Surface.x surface) x in
  let yi := findIndex (Surface.y surface) y in
  (Z.max 0 (Z.min xi (nx - 2)), Z.max 0 (Z.min yi (ny - 2))).

(** [bilinearInterpolate], with every array read checked. *)
Definition bilinearInterpolate (surface : Surface.t num) (x y : num)
    : option num :=
  let ny := Z.of_nat (Surface.ny surface) in
  let '(x0, y0) := cell surface x y in
  let x1 := (x0 + 1)%Z in
  let y1 := (y0 + 1)%Z in
  let? z00 := read (Surface.z surface) (x0 * ny + y0) in
  let? z01 := read (Surface.z surface) (x0 * ny + y1) in
  let? z10 := read (Surface.z surface) (x1 * ny + y0) in
  let? z11 := read (Surface.z surface) (x1 * ny + y1) in
  let? sx0 := read (Surface.x surface) x0 in
  let? sx1 := read (Surface.x surface) x1 in
  let? sy0 := read (Surface.y surface) y0 in
  let? sy1 := read (Surface.y surface) y1 in
  let xRange := sx1 - sx0 in
  let yRange := sy1 - sy0 in
  let tx := if negb (xRange =? of_Z 0) then (x - sx0) / xRange else of_Z 0 in
  let ty := if negb (yRange =? of_Z 0) then (y - sy0) / yRange else of_Z 0 in
  let z0 := lerp z00 z01 ty in
  let z1 := lerp z10 z11 ty in
  Some (lerp z0 z1 tx).

End Interpolate.

(** ** Arbitrage checks ([arbitrage.ts]) *)

Inductive ViolationType := calendar | butterfly | vertical.

Inductive Severity := minor | moderate | severe.

Definition ViolationType_eqb (a b : ViolationType) : bool :=
  match a, b with
  | calendar, calendar | butterfly, butterfly | vertical, vertical => true
  | _, _ => false
  end.

(** [ArbitrageViolation], without its [description] text. *)
Module Violation.

Record Location (num : Type) := mkLocation {
  x1 : num;
  x2 : option num;
  y : num
}.

Record t (num : Type) := mk {
  type : ViolationType;
  severity : Severity;
  location : Location num;
  violation : num
}.

Arguments mkLocation {num}.
Arguments x1 {num}.
Arguments x2 {num}.
Arguments y {num}.
Arguments mk {num}.
Arguments type {num}.
Arguments severity {num}.
Arguments location {num}.
Arguments violation {num}.

End Violation.

Module CheckResult.

Record Summary := mkSummary {
  n_calendar : nat;
  n_butterfly : nat;
  n_vertical : nat;
  total : nat
}.

Record t (num : Type) := mk {
  arbitrageFree : bool;
  violations : list (Violation.t num);
  summary : Summary
}.

Arguments mk {num}.
Arguments arbitrageFree {num}.
Arguments violations {num}.
Arguments summary {num}.

End CheckResult.

Section Arbitrage.

Context {num : Type} `{Number num}.

(** [Math.log], which only the vertical check uses. *)
Variable log : num -> num.

Local Open Scope num_scope.

(** The severity ladder all three checks share: [violation > hi] is
    severe, else [violation > lo] is moderate, else minor. *)
Definition grade (violation lo hi : num) : Severity :=
  if violation >? hi then severe
  else if violation >? lo then moderate
  else minor.

(** What the body of the calendar check's inner loop pushes for the strike
    column [j] and the expiry pair [(i, i+1)]. *)
Definition calendar_at (surface : Surface.t num) (tolerance : num)
    (j i : nat) : list (Violation.t num) :=
  let ny := Surface.ny surface in
  let strike := get (Surface.y surface) j in
  let T1 := get (Surface.x surface) i in
  let T2 := get (Surface.x surface) (i + 1) in
  let iv1 := get (Surface.z surface) (i * ny + j) in
  let iv2 := get (Surface.z surface) ((i + 1) * ny + j) in
  let w1 := iv1 * iv1 * T1 in
  let w2 := iv2 * iv2 * T2 in
  if w2 <? w1 - tolerance then
    let violation := w1 - w2 in
    let severity := grade violation (dec 5 1000) (dec 1 100) in
    [ {| Violation.type := calendar;
         Violation.severity := severity;
         Violation.location :=
           {| Violation.x1 := T1; Violation.x2 := Some T2;
              Violation.y := strike |};
         Violation.violation := violation |} ]
  else [].

Definition checkCalendarArbitrage (surface : Surface.t num) (tolerance : num)
    : list (Violation.t num) :=
  flat_map
    (fun j => flat_map (calendar_at surface tolerance j)
                (seq 0 (Surface.nx surface - 1)))
    (seq 0 (Surface.ny surface)).

(** The calendar check, pair by pair. *)




Definition butterfly_at (surface : Surface.t num) (tolerance : num)
    (i j : nat) : list (Violation.t num) :=
  let ny := Surface.ny surface in
  let T := get (Surface.x surface) i in
  let strike := get (Surface.y surface) j in
  let ivLeft := get (Surface.z surface) (i * ny + (j - 1)) in
  let ivMid := get (Surface.z surface) (i * ny + j) in
  let ivRight := get (Surface.z surface) (i * ny + (j + 1)) in
  let butterfly_spread := (ivLeft + ivRight) / of_Z 2 - ivMid in
  if butterfly_spread <? - tolerance then
    let violation := nabs butterfly_spread in
    let severity := grade violation (dec 1 100) (dec 2 100) in
    [ {| Violation.type := butterfly;
         Violation.severity := severity;
         Violation.location :=
           {| Violation.x1 := T; Violation.x2 := None;
              Violation.y := strike |};
         Violation.violation := violation |} ]
  else [].

Definition checkButterflyArbitrage (surface : Surface.t num) (tolerance : num)
    : list (Violation.t num) :=
  flat_map
    (fun i => flat_map (butterfly_at surface tolerance i)
                (seq 1 (Surface.ny surface - 2)))
    (seq 0 (Surface.nx surface)).

Definition vertical_at (surface : Surface.t num) (forward : num)
    (i j : nat) : list (Violation.t num) :=
  let ny := Surface.ny surface in
  let T := get (Surface.x surface) i in
  let K1 := get (Surface.y surface) j in
  let K2 := get (Surface.y surface) (j + 1) in
  let iv1 := get (Surface.z surface) (i * ny + j) in
  let iv2 := get (Surface.z surface) (i * ny + (j + 1)) in
  let k1 := log (K1 / forward) in
  let k2 := log (K2 / forward) in
  let w1 := iv1 * iv1 * T in
  let w2 := iv2 * iv2 * T in
  let dw_dk := (w2 - w1) / (k2 - k1) in
  let slopeLimit := of_Z 2 in
  if nabs dw_dk >? slopeLimit then
    let violation := nabs dw_dk - slopeLimit in
    let severity := grade violation (dec 5 10) (of_Z 1) in
    [ {| Violation.type := vertical;
         Violation.severity := severity;
         Violation.location :=
           {| Violation.x1 := T; Violation.x2 := None;
              Violation.y := (K1 + K2) / of_Z 2 |};
         Violation.violation := violation |} ]
  else [].

Definition checkVerticalArbitrage (surface : Surface.t num)
    (forward tolerance : num) : list (Violation.t num) :=
  flat_map
    (fun i => flat_map (vertical_at surface forward i)
                (seq 0 (Surface.ny surface - 1)))
    (seq 0 (Surface.nx surface)).

(** A number in a condition: false for [0] and for NaN. *)
Definition truthy (a : num) : bool := negb (a =? of_Z 0) && (a =? a).

(** [checkAllArbitrage]; [forward] is [None] when the argument is left out
    or [undefined]. *)
Definition checkAllArbitrage (surface : Surface.t num)
    (forward : option num) (tolerance : num) : CheckResult.t num :=
  let calendarViolations := checkCalendarArbitrage surface tolerance in
  let butterflyViolations := checkButterflyArbitrage surface tolerance in
  let verticalViolations :=
    match forward with
    | Some f =>
        if truthy f then checkVerticalArbitrage surface f tolerance else []
    | None => []
    end in
  let allViolations :=
    calendarViolations ++ butterflyViolations ++ verticalViolations in
  {| CheckResult.arbitrageFree := (length allViolations =? 0)%nat;
     CheckResult.violations := allViolations;
     CheckResult.summary :=
       {| CheckResult.n_calendar := length calendarViolations;
          CheckResult.n_butterfly := length butterflyViolations;
          CheckResult.n_vertical := length verticalViolations;
          CheckResult.total := length allViolations |} |}.

(** [a.findIndex(p)], [None] for [-1]. *)
Fixpoint findIndexBy {A} (p : A -> bool) (a : list A) : option nat :=
  match a with
  | [] => None
  | e :: a' => if p e then Some O else option_map S (findIndexBy p a')
  end.

(** [Math.abs(a - b) < 1e-6]. *)
Definition near (a b : num) : bool := nabs (a - b) <? dec 1 1000000.

(** One calendar correction: raise the far-dated implied volatility.  [z]
    is the array being corrected, which is also [current.z]. *)
Definition fix_calendar (current : Surface.t num) (z : Vec num)
    (v : Violation.t num) : Vec num :=
  let nx := Surface.nx current in
  let ny := Surface.ny current in
  let loc := Violation.location v in
  match findIndexBy (fun y => near y (Violation.y loc)) (Surface.y current) with
  | None => z
  | Some j =>
      match
        find (fun i =>
                near (get (Surface.x current) i) (Violation.x1 loc) &&
                near (get (Surface.x current) (i + 1))
                     (nullish (Violation.x2 loc) NaN))
             (seq 0 (nx - 1))
      with
      | None => z
      | Some i =>
          let idx := ((i + 1) * ny + j)%nat in
          let adjustment :=
            nsqrt (Violation.violation v / get (Surface.x current) (i + 1))
            * dec 5 10 in
          store z idx (get z idx + adjustment)
      end
  end.

(** One butterfly correction: the mid point becomes the mean of its two
    strike neighbours. *)
Definition fix_butterfly (current : Surface.t num) (z : Vec num)
    (v : Violation.t num) : Vec num :=
  let ny := Surface.ny current in
  let loc := Violation.location v in
  match findIndexBy (fun x => near x (Violation.x1 loc)) (Surface.x current),
        findIndexBy (fun y => near y (Violation.y loc)) (Surface.y current)
  with
  | Some i, Some j =>
      if (j =? 0)%nat || (Z.of_nat j =? Z.of_nat ny - 1)%Z then z
      else
        let left := get z (i * ny + (j - 1)) in
        let right := get z (i * ny + (j + 1)) in
        store z (i * ny + j) ((left + right) / of_Z 2)
  | _, _ => z
  end.

Definition is_type (t : ViolationType) (v : Violation.t num) : bool :=
  ViolationType_eqb (Violation.type v) t.

(** The corrections of one round, applied to [current.z] in place. *)
Definition correct (current : Surface.t num)
    (violations : list (Violation.t num)) : Surface.t num :=
  let z := Surface.z current in
  let z := fold_left (fix_calendar current) (filter (is_type calendar) violations) z in
  let z := fold_left (fix_butterfly current) (filter (is_type butterfly) violations) z in
  Surface.with_z current z.

(** The [for] loop of [enforceArbitrageFree], [rounds] iterations from
    [current].  The result comes with the number of correction rounds that
    were applied: fewer than [rounds] exactly when the loop was left by
    its [return]. *)
Fixpoint enforce_loop (rounds : nat) (current : Surface.t num)
    (tolerance : num) : Surface.t num * nat :=
  match rounds with
  | O => (current, O)
  | S rounds' =>
      let result := checkAllArbitrage current None tolerance in
      if CheckResult.arbitrageFree result then (current, O)
      else
        let '(final, applied) :=
          enforce_loop rounds' (correct current (CheckResult.violations result))
            tolerance in
        (final, S applied)
  end.

Definition enforceArbitrageFree (surface : Surface.t num)
    (maxIterations : nat) (tolerance : num) : Surface.t num :=
  fst (enforce_loop maxIterations
         (Surface.with_z surface (Surface.z surface)) tolerance).

(** How many correction rounds [enforceArbitrageFree] applies. *)
Definition correctionRounds (surface : Surface.t num)
    (maxIterations : nat) (tolerance : num) : nat :=
  snd (enforce_loop maxIterations
         (Surface.with_z surface (Surface.z surface)) tolerance).

End Arbitrage.

(** ** Risk metrics ([gradient.ts]) *)

Module SlopeData.

Record t (num : Type) := mk {
  dz_dx : Vec num;
  dz_dy : Vec num;
  magnitude : Vec num;
  angle : Vec num
}.

Arguments mk {num}.
Arguments dz_dx {num}.
Arguments dz_dy {num}.
Arguments magnitude {num}.
Arguments angle {num}.

End SlopeData.

Module RiskMetrics.

Record Zone (num : Type) := mkZone {
  xi : nat;
  yi : nat;
  zone_magnitude : num
}.

Record t (num : Type) := mk {
  maxSlope : num;
  avgSlope : num;
  slopeVariance : num;
  upwardBias : num;
  termStructureSteepness : num;
  smileSteepness : num;
  highRiskZones : list (Zone num);
  flatZones : list (nat * nat);
  riskScore : num
}.

Arguments mkZone {num}.
Arguments xi {num}.
Arguments yi {num}.
Arguments zone_magnitude {num}.
Arguments mk {num}.
Arguments maxSlope {num}.
Arguments avgSlope {num}.
Arguments slopeVariance {num}.
Arguments upwardBias {num}.
Arguments termStructureSteepness {num}.
Arguments smileSteepness {num}.
Arguments highRiskZones {num}.
Arguments flatZones {num}.
Arguments riskScore {num}.

End RiskMetrics.

Section Risk.

Context {num : Type} `{Number num}.

Local Open Scope num_scope.

(** The running values of the first loop of [computeRiskMetrics]. *)
Record Sums := mkSums {
  maxSlope : num;
  sumSlope : num;
  sumSlopeSq : num;
  upwardCount : nat;
  sumTermSlope : num;
  sumSmile : num
}.

Definition Sums_init : Sums :=
  {| maxSlope := of_Z 0; sumSlope := of_Z 0; sumSlopeSq := of_Z 0;
     upwardCount := 0; sumTermSlope := of_Z 0; sumSmile := of_Z 0 |}.

(** The body of the first loop, at index [i]. *)
Definition accumulate (slope : SlopeData.t num) (acc : Sums) (i : nat) : Sums :=
  let mag := get (SlopeData.magnitude slope) i in
  let dzDx := get (SlopeData.dz_dx slope) i in
  let dzDy := get (SlopeData.dz_dy slope) i in
  {| maxSlope := nmax (maxSlope acc) mag;
     sumSlope := sumSlope acc + mag;
     sumSlopeSq := sumSlopeSq acc + mag * mag;
     upwardCount := if dzDy >? of_Z 0 then S (upwardCount acc) else upwardCount acc;
     sumTermSlope := sumTermSlope acc + dzDx;
     sumSmile := sumSmile acc + nabs dzDy |}.

(** [a.sort(cmp)] for a consistent comparator: a stable insertion sort; an
    element goes in front of the first one that compares greater than it. *)
Fixpoint insert_by {A} (cmp : A -> A -> num) (e : A) (sorted : list A) : list A :=
  match sorted with
  | [] => [e]
  | b :: sorted' =>
      if cmp b e >? of_Z 0 then e :: b :: sorted'
      else b :: insert_by cmp e sorted'
  end.

Definition sort_by {A} (cmp : A -> A -> num) (a : list A) : list A :=
  fold_left (fun sorted e => insert_by cmp e sorted) a [].

(** A natural number as a number. *)
Definition of_nat (n : nat) : num := of_Z (Z.of_nat n).

Definition computeRiskMetrics (slope : SlopeData.t num) (nx ny : nat)
    : RiskMetrics.t num :=
  let n := length (SlopeData.magnitude slope) in
  let sums := fold_left (accumulate slope) (seq 0 n) Sums_init in
  let maxSlope := maxSlope sums in
  let avgSlope := sumSlope sums / of_nat n in
  let slopeVariance := sumSlopeSq sums / of_nat n - avgSlope * avgSlope in
  let threshold := maxSlope * dec 7 10 in
  let flatThreshold := maxSlope * dec 1 10 in
  let cells := flat_map (fun i => map (fun j => (i, j)) (seq 0 ny)) (seq 0 nx) in
  let highRiskZones :=
    flat_map
      (fun '(i, j) =>
         let mag := get (SlopeData.magnitude slope) (i * ny + j) in
         if mag >=? threshold
         then [ {| RiskMetrics.xi := i; RiskMetrics.yi := j;
                   RiskMetrics.zone_magnitude := mag |} ]
         else [])
      cells in
  let flatZones :=
    flat_map
      (fun '(i, j) =>
         let mag := get (SlopeData.magnitude slope) (i * ny + j) in
         if mag >=? threshold then []
         else if mag <=? flatThreshold then [(i, j)] else [])
      cells in
  let highRiskZones :=
    sort_by (fun a b => RiskMetrics.zone_magnitude b - RiskMetrics.zone_magnitude a)
      highRiskZones in
  let normalizedMax := nmin (of_Z 1) (maxSlope / of_Z 2) in
  let normalizedVar := nmin (of_Z 1) (nsqrt slopeVariance / dec 5 10) in
  let normalizedTerm :=
    nmin (of_Z 1) (nabs (sumTermSlope sums / of_nat n) / dec 5 10) in
  let riskScore :=
    normalizedMax * dec 4 10 + normalizedVar * dec 3 10
    + normalizedTerm * dec 3 10 in
  {| RiskMetrics.maxSlope := maxSlope;
     RiskMetrics.avgSlope := avgSlope;
     RiskMetrics.slopeVariance := slopeVariance;
     RiskMetrics.upwardBias := of_nat (upwardCount sums) / of_nat n;
     RiskMetrics.termStructureSteepness := sumTermSlope sums / of_nat n;
     RiskMetrics.smileSteepness := sumSmile sums / of_nat n;
     RiskMetrics.highRiskZones := firstn 10 highRiskZones;
     RiskMetrics.flatZones := firstn 10 flatZones;
     RiskMetrics.riskScore := riskScore |}.

End Risk.

(** ** Projection ([project.ts]) *)

Module Projection.

Record t (num : Type) := mk {
  azimuth : num;
  elevation : num;
  zoom : num;
  centerX : num;
  centerY : num;
  aspectRatio : num
}.

Arguments mk {num}.
Arguments azimuth {num}.
Arguments elevation {num}.
Arguments zoom {num}.
Arguments centerX {num}.
Arguments centerY {num}.
Arguments aspectRatio {num}.

End Projection.

Record Point3D (num : Type) := mkPoint3D {
  p3_x : num;
  p3_y : num;
  p3_z : num
}.

Record Point2D (num : Type) := mkPoint2D {
  p2_x : num;
  p2_y : num;
  depth : num
}.

Arguments mkPoint3D {num}.
Arguments p3_x {num}.
Arguments p3_y {num}.
Arguments p3_z {num}.
Arguments mkPoint2D {num}.
Arguments p2_x {num}.
Arguments p2_y {num}.
Arguments depth {num}.

Section Project.

Context {num : Type} `{Number num}.

Local Open Scope num_scope.

Definition rotateProjection (proj : Projection.t num)
    (deltaAzimuth deltaElevation : num) : Projection.t num :=
  {| Projection.azimuth :=
       nrem (Projection.azimuth proj + deltaAzimuth + of_Z 360) (of_Z 360);
     Projection.elevation :=
       nmax (- of_Z 89)
            (nmin (of_Z 89) (Projection.elevation proj + deltaElevation));
     Projection.zoom := Projection.zoom proj;
     Projection.centerX := Projection.centerX proj;
     Projection.centerY := Projection.centerY proj;
     Projection.aspectRatio := Projection.aspectRatio proj |}.

Definition zoomProjection (proj : Projection.t num) (factor : num)
    : Projection.t num :=
  {| Projection.azimuth := Projection.azimuth proj;
     Projection.elevation := Projection.elevation proj;
     Projection.zoom := nmax (of_Z 1) (Projection.zoom proj * factor);
     Projection.centerX := Projection.centerX proj;
     Projection.centerY := Projection.centerY proj;
     Projection.aspectRatio := Projection.aspectRatio proj |}.

Context `{Trig num}.

Definition DEG2RAD : num := nPI / of_Z 180.

Definition project3D (p : Point3D num) (proj : Projection.t num) : Point2D num :=
  let azRad := Projection.azimuth proj * DEG2RAD in
  let elRad := Projection.elevation proj * DEG2RAD in
  let cosA := ncos azRad in
  let sinA := nsin azRad in
  let cosE := ncos elRad in
  let sinE := nsin elRad in
  let x1 := p3_x p * cosA - p3_y p * sinA in
  let y1 := p3_x p * sinA + p3_y p * cosA in
  let z1 := p3_z p in
  let x2 := x1 in
  let y2 := y1 * cosE - z1 * sinE in
  let z2 := y1 * sinE + z1 * cosE in
  {| p2_x := Projection.centerX proj + x2 * Projection.zoom proj;
     p2_y := Projection.centerY proj
             - z2 * Projection.zoom proj * Projection.aspectRatio proj;
     depth := y2 |}.

End Project.

(** ** Surface wire format ([serialize.ts]) *)

(** binary32, the element type of a [Float32Array].  An element is kept as
    its 32-bit pattern. *)
Module Float32.

Import Floats.

Local Open Scope Z_scope.

(** Round a binary64 value to binary32 (to nearest, ties to even). *)
Definition round (v : float) : spec_float :=
  match Prim2SF v with
  | S754_finite s m e => SpecFloat.binary_round 24 128 s m e
  | special => special
  end.

Definition sign_bit (s : bool) : Z := if s then 2 ^ 31 else 0.

(** The bit pattern of a binary32 value given by sign, mantissa and
    exponent. *)
Definition bits_of_SF (f : spec_float) : Z :=
  match f with
  | S754_zero s => sign_bit s
  | S754_infinity s => sign_bit s + 0x7f800000
  | S754_nan => 0x7fc00000
  | S754_finite s m e =>
      if Z.pos m <? 2 ^ 23 then sign_bit s + Z.pos m
      else sign_bit s + (e + 150) * 2 ^ 23 + (Z.pos m - 2 ^ 23)
  end.

(** What storing [v] into a [Float32Array] element leaves there. *)
Definition to_bits (v : float) : Z := bits_of_SF (round v).

Definition SF_of_bits (b : Z) : spec_float :=
  let s := Z.testbit b 31 in
  let e := Z.land (Z.shiftr b 23) 0xff in
  let m := Z.land b 0x7fffff in
  if e =? 0 then
    match m with Z.pos p => S754_finite s p (-149) | _ => S754_zero s end
  else if e =? 255 then
    if m =? 0 then S754_infinity s else S754_nan
  else
    match m + 2 ^ 23 with
    | Z.pos p => S754_finite s p (e - 150)
    | _ => S754_nan
    end.

(** What reading a [Float32Array] element gives: the binary32 value, which
    every binary64 number can hold exactly. *)
Definition of_bits (b : Z) : float := SF2Prim (SF_of_bits b).

(** [Math.fround]. *)
Definition fround (v : float) : float := of_bits (to_bits v).

Definition is_finite (v : float) : bool :=
  match Prim2SF v with
  | S754_zero _ | S754_finite _ _ _ => true
  | _ => false
  end.

(** A finite number that binary32 holds exactly. *)
Definition representable (v : float) : Prop :=
  is_finite v = true /\ fround v = v.

End Float32.

(** A [Float32Array] laid over a byte buffer from [byteOffset] on. *)
Module Float32Array.

Local Open Scope nat_scope.

(** [new Float32Array(buffer, byteOffset, length)] throws a [RangeError]
    unless the offset is a multiple of 4 and the elements fit. *)
Definition valid (buffer : Uint8Array.t) (byteOffset len : nat) : bool :=
  (byteOffset mod 4 =? 0) && (byteOffset + 4 * len <=? length buffer).

(** [view[k] = v]. *)
Definition store (buffer : Uint8Array.t) (byteOffset k : nat)
    (v : PrimFloat.float) : Uint8Array.t :=
  Uint8Array.set buffer (le_split 4 (Float32.to_bits v)) (byteOffset + 4 * k).

(** [view[k]]. *)
Definition load (buffer : Uint8Array.t) (byteOffset k : nat) : PrimFloat.float :=
  Float32.of_bits
    (le_combine (Uint8Array.slice buffer (byteOffset + 4 * k)
                   (byteOffset + 4 * k + 4))).

(** The elements [from, from + count) of the view, as [view.slice] copies
    them. *)
Definition loads (buffer : Uint8Array.t) (byteOffset from count : nat)
    : Vec PrimFloat.float :=
  map (fun k => load buffer byteOffset (from + k)) (seq 0 count).

End Float32Array.

(** The four bytes of a [Float32Array] element holding [v]. *)
Definition f32_bytes (v : PrimFloat.float) : Uint8Array.t :=
  le_split 4 (Float32.to_bits v).

(** The padding after a header of [headerSize] bytes. *)
Definition padding_after (headerSize : nat) : nat :=
  ((4 - headerSize mod 4) mod 4)%nat.

Section Serialize.

(** [JSON.stringify] followed by [TextEncoder.encode], and
    [TextDecoder.decode] followed by [JSON.parse] and the seven property
    reads, on the metadata object.  Both are the platform's; the second
    fails where [JSON.parse] throws. *)
Variable stringify : Surface.Meta PrimFloat.float -> Uint8Array.t.
Variable parse : Uint8Array.t -> option (Surface.Meta PrimFloat.float).

Local Open Scope nat_scope.

(** One of the three copy loops: [f32View[f32Offset++] = v[i]] for [i]
    below [n]. *)
Definition copy_loop (byteOffset : nat) (v : Vec PrimFloat.float) (n : nat)
    (state : Uint8Array.t * nat) : Uint8Array.t * nat :=
  fold_left
    (fun '(bytes, f32Offset) i =>
       (Float32Array.store bytes byteOffset f32Offset (get v i), S f32Offset))
    (seq 0 n) state.

(** The payload [serializeSurface] builds, or [None] where it throws. *)
Definition serializeSurface_payload (s : Surface.t PrimFloat.float)
    : option Uint8Array.t :=
  let nx := Surface.nx s in
  let ny := Surface.ny s in
  let metaBytes := stringify (Surface.meta s) in
  let headerSize := 4 + 4 + 4 + length metaBytes in
  let padding := (4 - headerSize mod 4) mod 4 in
  let dataSize := (nx + ny + nx * ny) * 4 in
  let totalSize := headerSize + padding + dataSize in
  let bytes := Uint8Array.make totalSize in
  let offset := 0 in
  let bytes := DataView.setUint32 bytes offset (Z.of_nat nx) in
  let offset := offset + 4 in
  let bytes := DataView.setUint32 bytes offset (Z.of_nat ny) in
  let offset := offset + 4 in
  let bytes := DataView.setUint32 bytes offset (Z.of_nat (length metaBytes)) in
  let offset := offset + 4 in
  let bytes := Uint8Array.set bytes metaBytes offset in
  let offset := offset + length metaBytes in
  let offset := offset + padding in
  if Float32Array.valid bytes offset (nx + ny + nx * ny) then
    let state := (bytes, 0) in
    let state := copy_loop offset (Surface.x s) nx state in
    let state := copy_loop offset (Surface.y s) ny state in
    let state := copy_loop offset (Surface.z s) (nx * ny) state in
    Some (fst state)
  else None.

Definition serializeSurface (s : Surface.t PrimFloat.float)
    : option Uint8Array.t :=
  option_map (fun bytes => encodeFrame SURFACE_FULL bytes 0 0)
    (serializeSurface_payload s).

(** [DataView.getUint32] with its bounds check. *)
Definition getUint32_checked (buf : Uint8Array.t) (offset : nat) : option Z :=
  if offset + 4 <=? length buf then Some (DataView.getUint32 buf offset)
  else None.

Definition deserializeSurface (payload : Uint8Array.t)
    : option (Surface.t PrimFloat.float) :=
  let offset := 0 in
  match getUint32_checked payload offset with None => None | Some nx =>
  let nx := Z.to_nat nx in
  let offset := offset + 4 in
  match getUint32_checked payload offset with None => None | Some ny =>
  let ny := Z.to_nat ny in
  let offset := offset + 4 in
  match getUint32_checked payload offset with None => None | Some metaLen =>
  let metaLen := Z.to_nat metaLen in
  let offset := offset + 4 in
  let metaBytes := Uint8Array.slice payload offset (offset + metaLen) in
  match parse metaBytes with None => None | Some meta =>
  let offset := offset + metaLen in
  let headerSize := 4 + 4 + 4 + metaLen in
  let padding := (4 - headerSize mod 4) mod 4 in
  let offset := offset + padding in
  if Float32Array.valid payload offset (nx + ny + nx * ny) then
    let x := Float32Array.loads payload offset 0 nx in
    let y := Float32Array.loads payload offset nx ny in
    let z := Float32Array.loads payload offset (nx + ny) (nx * ny) in
    Some {| Surface.x := x;
            Surface.y := y;
            Surface.z := z;
            Surface.nx := nx;
            Surface.ny := ny;
            Surface.meta :=
              {| Surface.xLabel := Surface.xLabel meta;
                 Surface.yLabel := Surface.yLabel meta;
                 Surface.zLabel := Surface.zLabel meta;
                 Surface.xDomain := Surface.xDomain meta;
                 Surface.yDomain := Surface.yDomain meta;
                 Surface.zDomain := Surface.zDomain meta;
                 Surface.timestamp := Surface.timestamp meta |} |}
  else None
  end end end end.

(** The wire layout of a surface: the two dimensions, the metadata length,
    the metadata, zero padding up to a multiple of four, then [x], [y] and
    [z] as binary32. *)
Definition surface_layout (s : Surface.t PrimFloat.float) : Uint8Array.t :=
  let metaBytes := stringify (Surface.meta s) in
  le_split 4 (Z.of_nat (Surface.nx s)) ++
  le_split 4 (Z.of_nat (Surface.ny s)) ++
  le_split 4 (Z.of_nat (length metaBytes)) ++
  metaBytes ++
  Uint8Array.make (padding_after (12 + length metaBytes)) ++
  concat (map f32_bytes (Surface.x s ++ Surface.y s ++ Surface.z s)).

(** Where the binary32 section starts. *)
Definition data_offset (s : Surface.t PrimFloat.float) : nat :=
  let headerSize := 12 + length (stringify (Surface.meta s)) in
  headerSize + padding_after headerSize.

End Serialize.

(** The surface [deserializeSurface] is expected to rebuild from the
    layout of [s] when the metadata parses to [meta']: every value rounded
    to binary32. *)
Definition received (s : Surface.t PrimFloat.float)
    (meta' : Surface.Meta PrimFloat.float) : Surface.t PrimFloat.float :=
  {| Surface.x := map Float32.fround (Surface.x s);
     Surface.y := map Float32.fround (Surface.y s);
     Surface.z := map Float32.fround (Surface.z s);
     Surface.nx := Surface.nx s;
     Surface.ny := Surface.ny s;
     Surface.meta :=
       {| Surface.xLabel := Surface.xLabel meta';
          Surface.yLabel := Surface.yLabel meta';
          Surface.zLabel := Surface.zLabel meta';
          Surface.xDomain := Surface.xDomain meta';
          Surface.yDomain := Surface.yDomain meta';
          Surface.zDomain := Surface.zDomain meta';
          Surface.timestamp := Surface.timestamp meta' |} |}.

(** The exact value of a finite binary64 number, as a rational. *)
Definition exact_value (v : PrimFloat.float) : QArith_base.Q :=
  match FloatOps.Prim2SF v with
  | SpecFloat.S754_finite s m e =>
      let q := if (0 <=? e)%Z
               then QArith_base.inject_Z (Z.pos m * 2 ^ e)
               else QArith_base.Qmake (Z.pos m) (2 ^ Z.to_pos (- e)) in
      if s then QArith_base.Qopp q else q
  | _ => QArith_base.inject_Z 0
  end.

(** The metadata round trip the platform gives: what [stringify] writes,
    [parse] reads, and the three labels come back as they were. *)
Definition labels_survive
    (stringify : Surface.Meta PrimFloat.float -> Uint8Array.t)
    (parse : Uint8Array.t -> option (Surface.Meta PrimFloat.float)) : Prop :=
  forall m, exists m',
    parse (stringify m) = Some m' /\
    Surface.xLabel m' = Surface.xLabel m /\
    Surface.yLabel m' = Surface.yLabel m /\
    Surface.zLabel m' = Surface.zLabel m.

(** [sum_i |a'_i - a_i|], exactly. *)
Definition deviation (a' a : Vec PrimFloat.float) : QArith_base.Q :=
  fold_right QArith_base.Qplus (QArith_base.inject_Z 0)
    (map (fun '(v', v) =>
            Qabs.Qabs (QArith_base.Qminus (exact_value v') (exact_value v)))
         (combine a' a)).

(** ** Concrete inputs *)

(** Surfaces and slope fields in binary64, on which the code is run. *)
Module Example.

Definition num := PrimFloat.float.

(** Two frames fed one byte per [append], as in the specification's
    partial-frame scenario. *)
Definition two_messages : list Message :=
  [ {| m_type := SELECTED; m_payload := [Byte.x7b; Byte.x7d];
       m_flags := 0%Z; m_seq := 1%Z |};
    {| m_type := PONG; m_payload := []; m_flags := 4%Z; m_seq := 65535%Z |} ].


(** The surface [createSurface] returns for the three arrays (an empty one
    where it throws). *)
Definition surface (x y z : Vec num) : Surface.t num :=
  match createSurface (of_Z 0) x y z no_labels with
  | inr s => s
  | inl _ =>
      {| Surface.x := []; Surface.y := []; Surface.z := [];
         Surface.nx := 0; Surface.ny := 0;
         Surface.meta :=
           {| Surface.xLabel := DefaultLabel.X; Surface.yLabel := DefaultLabel.Y;
              Surface.zLabel := DefaultLabel.Z;
              Surface.xDomain := minmax []; Surface.yDomain := minmax [];
              Surface.zDomain := minmax []; Surface.timestamp := of_Z 0 |} |}
  end.



(** [z[0,yi] = 0.4], [z[1,yi] = 0.1], expiries 1 and 2. *)
Definition inverted : Surface.t num :=
  surface [of_Z 1; of_Z 2] [of_Z 90; of_Z 100]
    [dec 4 10; dec 4 10; dec 1 10; dec 1 10].

(** [Math.log] stands for itself: without a forward price it is never
    called, and binary64 has no instance of it here. *)
Definition log (a : num) : num := NaN.

(** The slope field of the plane [z = 0.3 x] sampled on a 3 by 2 grid:
    [dz_dx = 0.3] and [dz_dy = 0] in every cell. *)
Definition uniform_slope : SlopeData.t num :=
  {| SlopeData.dz_dx := repeat (dec 3 10) 6;
     SlopeData.dz_dy := repeat (of_Z 0) 6;
     SlopeData.magnitude := repeat (dec 3 10) 6;
     SlopeData.angle := repeat (of_Z 0) 6 |}.

(** The camera [createProjection(100, 100, { azimuth: 0, elevation: 0 })]
    returns. *)
Definition camera : Projection.t num :=
  {| Projection.azimuth := of_Z 0;
     Projection.elevation := of_Z 0;
     Projection.zoom := of_Z 32;
     Projection.centerX := of_Z 50;
     Projection.centerY := of_Z 50;
     Projection.aspectRatio := dec 1 2 |}.

(** A surface whose values binary32 holds exactly. *)
Definition dyadic : Surface.t num :=
  surface [of_Z 0; dec 1 2; of_Z 3] [of_Z 1; of_Z 5]
    [of_Z 1; of_Z 2; of_Z 3; of_Z 4; of_Z 5; dec 1 4].

(** A surface of one cell whose values binary32 has to round: 0.1, 100.1
    and 0.3. *)
Definition decimal : Surface.t num :=
  surface [dec 1 10] [dec 1001 10] [dec 3 10].

(** A stand-in for the platform's JSON text: each label is written byte by
    byte, every byte behind a 1, and closed by a 0; the numbers of the
    metadata are left out and read back as NaN. *)
Fixpoint write_label (l : list byte) : Uint8Array.t :=
  match l with
  | [] => [Byte.x00]
  | b :: l' => Byte.x01 :: b :: write_label l'
  end.

Fixpoint read_label (fuel : nat) (bytes : Uint8Array.t)
    : option (list byte * Uint8Array.t) :=
  match fuel with
  | O => None
  | S fuel' =>
      match bytes with
      | Byte.x00 :: rest => Some ([], rest)
      | Byte.x01 :: b :: rest =>
          match read_label fuel' rest with
          | Some (l, rest') => Some (b :: l, rest')
          | None => None
          end
      | _ => None
      end
  end.

Definition stringify (m : Surface.Meta num) : Uint8Array.t :=
  write_label (String.list_byte_of_string (Surface.xLabel m)) ++
  write_label (String.list_byte_of_string (Surface.yLabel m)) ++
  write_label (String.list_byte_of_string (Surface.zLabel m)).

Definition parse (bytes : Uint8Array.t) : option (Surface.Meta num) :=
  match read_label (length bytes) bytes with
  | None => None
  | Some (lx, rest) =>
      match read_label (length rest) rest with
      | None => None
      | Some (ly, rest') =>
          match read_label (length rest') rest' with
          | None => None
          | Some (lz, _) =>
              Some {| Surface.xLabel := String.string_of_list_byte lx;
                      Surface.yLabel := String.string_of_list_byte ly;
                      Surface.zLabel := String.string_of_list_byte lz;
                      Surface.xDomain := (NaN, NaN);
                      Surface.yDomain := (NaN, NaN);
                      Surface.zDomain := (NaN, NaN);
                      Surface.timestamp := NaN |}
          end
      end
  end.

(** The flat 0.2 surface in exact arithmetic. *)
Definition flat_exact : Surface.t xreal :=
  {| Surface.x := map Fin [1; 2]%R;
     Surface.y := map Fin [90; 100]%R;
     Surface.z := repeat (dec 2 10) 4;
     Surface.nx := 2;
     Surface.ny := 2;
     Surface.meta :=
       {| Surface.xLabel := DefaultLabel.X; Surface.yLabel := DefaultLabel.Y;
          Surface.zLabel := DefaultLabel.Z;
          Surface.xDomain := (Fin 1, Fin 2); Surface.yDomain := (Fin 90, Fin 100);
          Surface.zDomain := (dec 2 10, dec 2 10);
          Surface.timestamp := of_Z 0 |} |}.

End Example.

(** ** Sums over index ranges *)

(** The closed forms of the accumulation loop of [computeRiskMetrics], in
    real arithmetic. *)
Section Sums.

Local Open Scope R_scope.

(** [sum_{i = a}^{a + k - 1} f i]. *)
Fixpoint rsum (f : nat -> R) (a k : nat) : R :=
  match k with
  | O => 0
  | S k' => f a + rsum f (S a) k'
  end.

(** The largest of [m] and the [f i]. *)
Fixpoint rmax_from (m : R) (f : nat -> R) (a k : nat) : R :=
  match k with
  | O => m
  | S k' => rmax_from (Rmax m (f a)) f (S a) k'
  end.

(** How many [f i] are positive, added to [c]. *)
Fixpoint count_pos (c : nat) (f : nat -> R) (a k : nat) : nat :=
  match k with
  | O => c
  | S k' => count_pos (if Rlt_dec 0 (f a) then S c else c) f (S a) k'
  end.

End Sums.

(** ** Frames, once more ([frame.ts]) *)

(** The bytes a decoded frame took on the wire: its header fields written
    back, then its payload. *)
Definition frame_bytes (f : Frame) : Uint8Array.t :=
  header_bytes (h_length (header f)) (h_type (header f))
    (h_flags (header f)) (h_seq (header f))
  ++ payload f.

(** ** Typed arrays ([frame.ts], [serialize.ts]) *)

(** A [Float32Array], [Float64Array], [Uint32Array] or [Int32Array]: its
    element type and the bytes of its elements, in the byte order of the
    platform (little-endian on every platform the program runs on).  The
    element type is part of the Rocq type, as it is part of the TypeScript
    one. *)
Module TypedArray.

Inductive Kind := f32 | f64 | u32 | i32.

Definition BYTES_PER_ELEMENT (k : Kind) : nat :=
  match k with
  | f64 => 8
  | f32 | u32 | i32 => 4
  end.

Record t (k : Kind) := mk { bytes : Uint8Array.t }.

Arguments mk k bytes : clear implicits.
Arguments bytes {k}.

Definition byteLength {k} (a : t k) : nat := List.length (bytes a).

Definition length {k} (a : t k) : nat :=
  (byteLength a / BYTES_PER_ELEMENT k)%nat.

(** The bytes are whole elements. *)
Definition well_formed {k} (a : t k) : Prop :=
  (byteLength a mod BYTES_PER_ELEMENT k = 0)%nat.

(** A typed array of any of the four types. *)
Definition any := { k : Kind & t k }.

(** [new K(buffer, byteOffset, length)]: the [length] elements that start
    at [byteOffset].  The constructor throws a [RangeError] unless the
    offset is a multiple of the element size and the elements fit. *)
Definition view (k : Kind) (buffer : Uint8Array.t) (byteOffset len : nat)
    : option (t k) :=
  if ((byteOffset mod BYTES_PER_ELEMENT k =? 0)
      && (byteOffset + len * BYTES_PER_ELEMENT k <=? List.length buffer))%nat
  then Some (mk k (Uint8Array.slice buffer byteOffset
                     (byteOffset + len * BYTES_PER_ELEMENT k)))
  else None.

(** [target.set(source)] where [target] is the view of [len] elements of
    [source]'s own type at [byteOffset] of [buffer]: the source's bytes are
    copied to the start of the view; a source with more elements than the
    view is a [RangeError]. *)
Definition set_view {k} (buffer : Uint8Array.t) (byteOffset len : nat)
    (source : t k) : option Uint8Array.t :=
  if (length source <=? len)%nat
  then Some (Uint8Array.set buffer (bytes source) byteOffset)
  else None.

End TypedArray.

(** The type tag of the typed-array payload: 0 = f32, 1 = f64, 2 = u32,
    3 = i32. *)
Definition tag_of (k : TypedArray.Kind) : Z :=
  match k with
  | TypedArray.f32 => 0
  | TypedArray.f64 => 1
  | TypedArray.u32 => 2
  | TypedArray.i32 => 3
  end%Z.

(** [encodeTypedArrayFrame]; its [throw] is for values that are none of the
    four array types, which the signature rules out. *)
Definition encodeTypedArrayFrame {k} (type : MessageType)
    (arr : TypedArray.t k) (flags seq : Z) : Uint8Array.t :=
  let tag := tag_of k in
  let payload := Uint8Array.make (1 + TypedArray.byteLength arr) in
  let payload := Uint8Array.set payload [byte.of_Z tag] 0 in
  let payload := Uint8Array.set payload (TypedArray.bytes arr) 1 in
  encodeFrame type payload flags seq.

(** [decodeTypedArrayPayload], [None] where it throws: on a tag other than
    0..3, and on the empty payload, whose tag is [undefined].  The element
    count [data.byteLength / 4] loses its fraction in the constructor. *)
Definition decodeTypedArrayPayload (payload : Uint8Array.t)
    : option TypedArray.any :=
  let data := Uint8Array.slice_from payload 1 in
  let typed k len :=
    option_map (existT TypedArray.t k) (TypedArray.view k data 0 len) in
  match option_map byte.unsigned (nth_error payload 0) with
  | Some 0%Z => typed TypedArray.f32 (length data / 4)
  | Some 1%Z => typed TypedArray.f64 (length data / 8)
  | Some 2%Z => typed TypedArray.u32 (length data / 4)
  | Some 3%Z => typed TypedArray.i32 (length data / 4)
  | _ => None
  end.

(** ** Delta updates ([serialize.ts]) *)

(** [serializeSurfaceDelta], [None] where it throws.
    Layout: the count, the indices, the values. *)
Definition serializeSurfaceDelta (indices : TypedArray.t TypedArray.u32)
    (values : TypedArray.t TypedArray.f32) : option Uint8Array.t :=
  let count := TypedArray.length indices in
  let size := 4 + count * 4 + count * 4 in
  let buffer := Uint8Array.make size in
  let buffer := DataView.setUint32 buffer 0 (Z.of_nat count) in
  match TypedArray.view TypedArray.u32 buffer 4 count with
  | None => None
  | Some _ =>
      match TypedArray.set_view buffer 4 count indices with
      | None => None
      | Some buffer =>
          match TypedArray.view TypedArray.f32 buffer (4 + count * 4) count with
          | None => None
          | Some _ =>
              match TypedArray.set_view buffer (4 + count * 4) count values with
              | None => None
              | Some buffer => Some (encodeFrame SURFACE_DELTA buffer 0 0)
              end
          end
      end
  end.

(** [deserializeSurfaceDelta] on a payload that owns its buffer, as the
    payloads [decodeFrame] and [FrameReader] slice out do. *)
Definition deserializeSurfaceDelta (payload : Uint8Array.t)
    : option (TypedArray.t TypedArray.u32 * TypedArray.t TypedArray.f32) :=
  match getUint32_checked payload 0 with
  | None => None
  | Some count =>
      let count := Z.to_nat count in
      match TypedArray.view TypedArray.u32 payload 4 count with
      | None => None
      | Some indices =>
          match TypedArray.view TypedArray.f32 payload (4 + count * 4) count with
          | None => None
          | Some values => Some (indices, values)
          end
      end
  end.

(** The wire layout of a delta: the count, the indices, then the values,
    with zero bytes where values are missing. *)
Definition delta_layout (indices : TypedArray.t TypedArray.u32)
    (values : TypedArray.t TypedArray.f32) : Uint8Array.t :=
  le_split 4 (Z.of_nat (TypedArray.length indices)) ++
  TypedArray.bytes indices ++
  TypedArray.bytes values ++
  Uint8Array.make
    (4 * (TypedArray.length indices - TypedArray.length values)).

(** ** Cells, rows and columns of a surface ([surface.ts]) *)

Section SurfaceAccess.

Context {num : Type} `{Number num}.

(** [getZ]: the value at the grid indices [(xi, yi)], row-major. *)
Definition getZ (s : Surface.t num) (xi yi : nat) : num :=
  get (Surface.z s) (xi * Surface.ny s + yi).


(** [getRow]: [s.z.slice(start, start + s.ny)]. *)
Definition getRow (s : Surface.t num) (xi : nat) : Vec num :=
  let start := xi * Surface.ny s in
  firstn (start + Surface.ny s - start) (skipn start (Surface.z s)).

(** [getCol]: a new array of [nx] elements, filled from [getZ]. *)
Definition getCol (s : Surface.t num) (yi : nat) : Vec num :=
  fold_left (fun result xi => store result xi (getZ s xi yi))
    (seq 0 (Surface.nx s)) (repeat (of_Z 0) (Surface.nx s)).

End SurfaceAccess.

(** ** Vector utilities ([vec.ts]) *)

Module vec.

Section Vec.

Context {num : Type} `{Number num}.

Local Open Scope num_scope.

(** [vec64(length)]: a new array of zeros. *)
Definition vec64 (length : nat) : Vec num := repeat (of_Z 0) length.

Definition sum (v : Vec num) : num :=
  fold_left (fun total val => total + val) v (of_Z 0).

Definition min (v : Vec num) : num :=
  fold_left (fun m val => if val <? m then val else m) v Infinity.

Definition max (v : Vec num) : num :=
  fold_left (fun m val => if val >? m then val else m) v (- Infinity).

Definition clamp (value lo hi : num) : num := nmax lo (nmin hi value).

(** [normalize(v, out)].  The loop reads [v[i]] before it writes
    [result[i]] and writes nowhere else, so it reads the values [v] had at
    the call even when [out] is [v] itself. *)
Definition normalize (v : Vec num) (out : option (Vec num)) : Vec num :=
  let '(lo, hi) := minmax v in
  let range := hi - lo in
  let result := nullish out (vec64 (length v)) in
  if range =? of_Z 0 then map (fun _ => of_Z 0) result
  else
    fold_left (fun result i => store result i ((get v i - lo) / range))
      (seq 0 (length v)) result.

(** [linspace(start, end, n)]; [n - 1] is [-1] for [n = 0]. *)
Definition linspace (start end_ : num) (n : nat) : Vec num :=
  let result := vec64 n in
  let step := (end_ - start) / of_Z (Z.of_nat n - 1) in
  fold_left (fun result i => store result i (start + of_nat i * step))
    (seq 0 n) result.

End Vec.

End vec.

(** [v[i]!] at an integer index that may be negative. *)
Definition get_at {num} `{Number num} (v : Vec num) (i : Z) : num :=
  if (i <? 0)%Z then NaN else get v (Z.to_nat i).

(** ** Interpolation by scanning ([surface.ts]) *)

Module surface_ts.

Section Scan.

Context {num : Type} `{Number num}.

Local Open Scope num_scope.

(** The two search loops of [interpolate]: the first index [i] below
    [n - 1] with [axis[i] <= x <= axis[i + 1]], and 0 when there is none. *)
Definition first_cell (axis : Vec num) (n : nat) (x : num) : nat :=
  match
    find (fun i => (get axis i <=? x) && (x <=? get axis (i + 1)))
      (seq 0 (n - 1))
  with
  | Some i => i
  | None => 0%nat
  end.

(** [interpolate] of [surface.ts]; the four corners are read with
    [getZ], at [xi * s.ny + yi]. *)
Definition interpolate (s : Surface.t num) (x y : num) : num :=
  let ny := Z.of_nat (Surface.ny s) in
  let xi0 := Z.of_nat (first_cell (Surface.x s) (Surface.nx s) x) in
  let yi0 := Z.of_nat (first_cell (Surface.y s) (Surface.ny s) y) in
  let xi1 := Z.min (xi0 + 1) (Z.of_nat (Surface.nx s) - 1) in
  let yi1 := Z.min (yi0 + 1) (ny - 1) in
  let x0 := get_at (Surface.x s) xi0 in
  let x1 := get_at (Surface.x s) xi1 in
  let y0 := get_at (Surface.y s) yi0 in
  let y1 := get_at (Surface.y s) yi1 in
  let tx := if x1 =? x0 then of_Z 0 else (x - x0) / (x1 - x0) in
  let ty := if y1 =? y0 then of_Z 0 else (y - y0) / (y1 - y0) in
  let z00 := get_at (Surface.z s) (xi0 * ny + yi0) in
  let z10 := get_at (Surface.z s) (xi1 * ny + yi0) in
  let z01 := get_at (Surface.z s) (xi0 * ny + yi1) in
  let z11 := get_at (Surface.z s) (xi1 * ny + yi1) in
  let z0 := z00 * (of_Z 1 - tx) + z10 * tx in
  let z1 := z01 * (of_Z 1 - tx) + z11 * tx in
  z0 * (of_Z 1 - ty) + z1 * ty.

End Scan.

End surface_ts.

(** ** Bicubic and nearest-neighbour interpolation, slices
    ([interpolate.ts]) *)

Inductive InterpolationMethod := bilinear | bicubic | nearest.

Section MoreInterpolate.

Context {num : Type} `{Number num}.

Local Open Scope num_scope.

(** The Catmull-Rom spline through [p1] and [p2]. *)
Definition cubicInterpolate (p0 p1 p2 p3 t : num) : num :=
  let t2 := t * t in
  let t3 := t2 * t in
  dec 5 10 *
  (of_Z 2 * p1 +
   (- p0 + p2) * t +
   (of_Z 2 * p0 - of_Z 5 * p1 + of_Z 4 * p2 - p3) * t2 +
   (- p0 + of_Z 3 * p1 - of_Z 3 * p2 + p3) * t3).

Definition bicubicInterpolate (surface : Surface.t num) (x y : num) : num :=
  let nx := Z.of_nat (Surface.nx surface) in
  let ny := Z.of_nat (Surface.ny surface) in
  let xi := findIndex (Surface.x surface) x in
  let yi := findIndex (Surface.y surface) y in
  let x1 := Z.max 1 (Z.min xi (nx - 3)) in
  let y1 := Z.max 1 (Z.min yi (ny - 3)) in
  let getZ (i j : Z) : num :=
    let ci := Z.max 0 (Z.min i (nx - 1)) in
    let cj := Z.max 0 (Z.min j (ny - 1)) in
    get_at (Surface.z surface) (ci * ny + cj) in
  let xRange :=
    get_at (Surface.x surface) (x1 + 1) - get_at (Surface.x surface) x1 in
  let yRange :=
    get_at (Surface.y surface) (y1 + 1) - get_at (Surface.y surface) y1 in
  let tx := if negb (xRange =? of_Z 0)
            then (x - get_at (Surface.x surface) x1) / xRange else of_Z 0 in
  let ty := if negb (yRange =? of_Z 0)
            then (y - get_at (Surface.y surface) y1) / yRange else of_Z 0 in
  let cols :=
    map (fun i : Z =>
           cubicInterpolate
             (getZ (x1 + i)%Z (y1 - 1)%Z)
             (getZ (x1 + i)%Z y1)
             (getZ (x1 + i)%Z (y1 + 1)%Z)
             (getZ (x1 + i)%Z (y1 + 2)%Z)
             ty)
      [-1; 0; 1; 2]%Z in
  cubicInterpolate (get cols 0) (get cols 1) (get cols 2) (get cols 3) tx.

(** One of the two search loops of [nearestInterpolate]: the first index
    below [n] at the least distance from [x]. *)
Definition nearest_index (axis : Vec num) (n : nat) (x : num) : nat :=
  fst (fold_left
         (fun '(xi, minDist) i =>
            let dist := nabs (get axis i - x) in
            if dist <? minDist then (i, dist) else (xi, minDist))
         (seq 1 (n - 1))
         (0%nat, nabs (get axis 0 - x))).

(** [nearestInterpolate]; [None] is the [undefined] of a read outside
    [z]. *)
Definition nearestInterpolate (surface : Surface.t num) (x y : num)
    : option num :=
  let xi := nearest_index (Surface.x surface) (Surface.nx surface) x in
  let yi := nearest_index (Surface.y surface) (Surface.ny surface) y in
  nth_error (Surface.z surface) (xi * Surface.ny surface + yi).

(** [interpolate] of [interpolate.ts]. *)
Definition interpolate (surface : Surface.t num) (x y : num)
    (method : InterpolationMethod) : option num :=
  match method with
  | bicubic => Some (bicubicInterpolate surface x y)
  | nearest => nearestInterpolate surface x y
  | bilinear => bilinearInterpolate surface x y
  end.

(** [sliceAtX]: the surface along the strikes at one [x]. *)
Definition sliceAtX (surface : Surface.t num) (xValue : num)
    (method : InterpolationMethod) : list (num * option num) :=
  map (fun j =>
         let y := get (Surface.y surface) j in
         (y, interpolate surface xValue y method))
    (seq 0 (Surface.ny surface)).

(** [sliceAtY]: the surface along the expiries at one [y]. *)
Definition sliceAtY (surface : Surface.t num) (yValue : num)
    (method : InterpolationMethod) : list (num * option num) :=
  map (fun i =>
         let x := get (Surface.x surface) i in
         (x, interpolate surface x yValue method))
    (seq 0 (Surface.nx surface)).

End MoreInterpolate.

(** ** Smoothing ([arbitrage.ts]) *)

Section Smooth.

Context {num : Type} `{Number num}.

Local Open Scope num_scope.

(** The body of the two inner loops of [smoothSurface] at the interior
    cell [(i, j)]: the cell of [next] becomes a blend of the cell of
    [current] and the mean of its four neighbours in [current]. *)
Definition smooth_cell (current : Vec num) (ny : nat) (weight : num)
    (next : Vec num) (cell : nat * nat) : Vec num :=
  let '(i, j) := cell in
  let idx := (i * ny + j)%nat in
  let avg :=
    (get current ((i - 1) * ny + j) +
     get current ((i + 1) * ny + j) +
     get current (i * ny + (j - 1)) +
     get current (i * ny + (j + 1))) / of_Z 4 in
  store next idx ((of_Z 1 - weight) * get current idx + weight * avg).

(** The interior cells, in the order of the loops. *)
Definition interior (nx ny : nat) : list (nat * nat) :=
  flat_map (fun i => map (fun j => (i, j)) (seq 1 (ny - 2))) (seq 1 (nx - 2)).

(** One iteration: [next] starts as a copy of [current]. *)
Definition smooth_round (nx ny : nat) (weight : num) (current : Vec num)
    : Vec num :=
  fold_left (smooth_cell current ny weight) (interior nx ny) current.

Definition smoothSurface (surface : Surface.t num) (iterations : nat)
    (weight : num) : Surface.t num :=
  let current :=
    Nat.iter iterations
      (smooth_round (Surface.nx surface) (Surface.ny surface) weight)
      (Surface.z surface) in
  {| Surface.x := Surface.x surface;
     Surface.y := Surface.y surface;
     Surface.z := current;
     Surface.nx := Surface.nx surface;
     Surface.ny := Surface.ny surface;
     Surface.meta := Surface.meta surface |}.

End Smooth.

(** Two surfaces that differ in the values of [z] at most. *)
Definition same_frame {num} (a b : Surface.t num) : Prop :=
  Surface.x a = Surface.x b /\ Surface.y a = Surface.y b /\
  Surface.nx a = Surface.nx b /\ Surface.ny a = Surface.ny b /\
  Surface.meta a = Surface.meta b /\
  length (Surface.z a) = length (Surface.z b).

(** ** Slopes ([surface.ts]) *)

Section Slope.

Context {num : Type} `{Number num}.

(** [Math.atan2], which only the [angle] array uses. *)
Variable atan2 : num -> num -> num.

Local Open Scope num_scope.

(** The difference quotients [computeSlope] takes at the cell
    [(xi, yi)]: central, or one-sided on the first and the last row and
    column. *)
Definition slope_dx (s : Surface.t num) (xi yi : nat) : num :=
  if (xi =? 0)%nat then
    (getZ s (xi + 1) yi - getZ s xi yi)
    / (get (Surface.x s) (xi + 1) - get (Surface.x s) xi)
  else if (xi =? Surface.nx s - 1)%nat then
    (getZ s xi yi - getZ s (xi - 1) yi)
    / (get (Surface.x s) xi - get (Surface.x s) (xi - 1))
  else
    (getZ s (xi + 1) yi - getZ s (xi - 1) yi)
    / (get (Surface.x s) (xi + 1) - get (Surface.x s) (xi - 1)).

Definition slope_dy (s : Surface.t num) (xi yi : nat) : num :=
  if (yi =? 0)%nat then
    (getZ s xi (yi + 1) - getZ s xi yi)
    / (get (Surface.y s) (yi + 1) - get (Surface.y s) yi)
  else if (yi =? Surface.ny s - 1)%nat then
    (getZ s xi yi - getZ s xi (yi - 1))
    / (get (Surface.y s) yi - get (Surface.y s) (yi - 1))
  else
    (getZ s xi (yi + 1) - getZ s xi (yi - 1))
    / (get (Surface.y s) (yi + 1) - get (Surface.y s) (yi - 1)).

(** The body of the two loops: the four arrays get their element
    [idx]. *)
Definition slope_cell (s : Surface.t num) (acc : SlopeData.t num)
    (cell : nat * nat) : SlopeData.t num :=
  let '(xi, yi) := cell in
  let idx := (xi * Surface.ny s + yi)%nat in
  let dx := slope_dx s xi yi in
  let dy := slope_dy s xi yi in
  {| SlopeData.dz_dx := store (SlopeData.dz_dx acc) idx dx;
     SlopeData.dz_dy := store (SlopeData.dz_dy acc) idx dy;
     SlopeData.magnitude :=
       store (SlopeData.magnitude acc) idx (nsqrt (dx * dx + dy * dy));
     SlopeData.angle := store (SlopeData.angle acc) idx (atan2 dy dx) |}.

(** All cells of the grid, row by row. *)
Definition grid_cells (nx ny : nat) : list (nat * nat) :=
  flat_map (fun xi => map (fun yi => (xi, yi)) (seq 0 ny)) (seq 0 nx).

Definition computeSlope (s : Surface.t num) : SlopeData.t num :=
  let n := (Surface.nx s * Surface.ny s)%nat in
  fold_left (slope_cell s)
    (grid_cells (Surface.nx s) (Surface.ny s))
    {| SlopeData.dz_dx := vec.vec64 n;
       SlopeData.dz_dy := vec.vec64 n;
       SlopeData.magnitude := vec.vec64 n;
       SlopeData.angle := vec.vec64 n |}.

End Slope.

(** ** Points and bounds ([project.ts]) *)

Record Bounds (num : Type) := mkBounds {
  xMin : num;
  xMax : num;
  yMin : num;
  yMax : num;
  zMin : num;
  zMax : num
}.

Arguments mkBounds {num}.
Arguments xMin {num}.
Arguments xMax {num}.
Arguments yMin {num}.
Arguments yMax {num}.
Arguments zMin {num}.
Arguments zMax {num}.

Section Points.

Context {num : Type} `{Number num}.

Local Open Scope num_scope.

(** [a || b] on numbers: [b] when [a] is 0 or NaN. *)
Definition or_else (a b : num) : num := if truthy a then a else b.

Definition normalizePoint (p : Point3D num) (bounds : Bounds num)
    : Point3D num :=
  let xRange := or_else (xMax bounds - xMin bounds) (of_Z 1) in
  let yRange := or_else (yMax bounds - yMin bounds) (of_Z 1) in
  let zRange := or_else (zMax bounds - zMin bounds) (of_Z 1) in
  {| p3_x := ((p3_x p - xMin bounds) / xRange) * of_Z 2 - of_Z 1;
     p3_y := ((p3_y p - yMin bounds) / yRange) * of_Z 2 - of_Z 1;
     p3_z := ((p3_z p - zMin bounds) / zRange) * of_Z 2 - of_Z 1 |}.

Context `{Trig num}.

Definition projectPoints (points : list (Point3D num))
    (proj : Projection.t num) : list (Point2D num) :=
  map (fun p => project3D p proj) points.

End Points.

(** ** The SVI smile ([svi.ts]) *)

Module SVI.

Record Params (num : Type) := mkParams {
  a : num;
  b : num;
  rho : num;
  m : num;
  sigma : num
}.

Arguments mkParams {num}.
Arguments a {num}.
Arguments b {num}.
Arguments rho {num}.
Arguments m {num}.
Arguments sigma {num}.

Record CalendarCheck (num : Type) := mkCalendarCheck {
  arbitrageFree : bool;
  violations : list num
}.

Arguments mkCalendarCheck {num}.
Arguments arbitrageFree {num}.
Arguments violations {num}.

Section Smile.

Context {num : Type} `{Number num}.

Local Open Scope num_scope.

(** Total implied variance at the log-moneyness [k]. *)
Definition sviTotalVariance (k : num) (params : Params num) : num :=
  let km := k - m params in
  a params
  + b params * (rho params * km + nsqrt (km * km + sigma params * sigma params)).

Definition sviImpliedVol (k T : num) (params : Params num) : num :=
  let w := sviTotalVariance k params in
  if (w <? of_Z 0) || (T <=? of_Z 0) then of_Z 0 else nsqrt (w / T).

Definition sviDerivative (k : num) (params : Params num) : num :=
  let km := k - m params in
  let sqrt_term := nsqrt (km * km + sigma params * sigma params) in
  b params * (rho params + km / sqrt_term).

(** The default [kRange]. *)
Definition default_kRange : list num :=
  [- of_Z 1; - dec 5 10; of_Z 0; dec 5 10; of_Z 1].

(** [checkCalendarArbitrage] of [svi.ts]: the log-moneyness values at
    which the later slice has the smaller total variance. *)
Definition checkCalendarArbitrage (params1 : Params num) (T1 : num)
    (params2 : Params num) (T2 : num) (kRange : list num)
    : CalendarCheck num :=
  if T1 >=? T2 then
    {| arbitrageFree := false; violations := [] |}
  else
    let violations :=
      filter (fun k =>
                sviTotalVariance k params2 <? sviTotalVariance k params1)
        kRange in
    {| arbitrageFree := (length violations =? 0)%nat;
       violations := violations |}.

End Smile.

(** The number a finite value stands for. *)
Definition real_of (v : xreal) : R :=
  match v with Fin r => r | _ => 0%R end.

End SVI.

(** ** Axes and grids in exact arithmetic *)

Local Open Scope R_scope.

(** A strictly increasing sequence of real numbers. *)
Definition increasing (xs : list R) : Prop :=
  forall i, (i + 1 < length xs)%nat -> nth i xs 0 < nth (i + 1) xs 0.

(** The surface over the axes [xs] and [ys] with the finite values [zs]
    and any metadata. *)
Definition grid (meta : Surface.Meta xreal) (xs ys zs : list R)
    : Surface.t xreal :=
  {| Surface.x := map Fin xs;
     Surface.y := map Fin ys;
     Surface.z := map Fin zs;
     Surface.nx := length xs;
     Surface.ny := length ys;
     Surface.meta := meta |}.

(** The cell value [z[i][j]] of such a grid. *)
Definition cell_value (ys zs : list R) (i j : nat) : R :=
  nth (i * length ys + j) zs 0.

(** The bilinear blend of four corner values with the weights [tx] and
    [ty], in the order [bilinearInterpolate] computes it. *)
Definition blend (z00 z01 z10 z11 tx ty : R) : R :=
  let z0 := z00 + (z01 - z00) * ty in
  let z1 := z10 + (z11 - z10) * ty in
  z0 + (z1 - z0) * tx.

Module ExampleExact.

(** Expiries 0, 1, 3 and strikes 0, 2, 3 with the values 1 to 9. *)
Definition xs : list R := [0; 1; 3]%R.
Definition ys : list R := [0; 2; 3]%R.
Definition zs : list R := [1; 2; 3; 4; 5; 6; 7; 8; 9]%R.

(** The plane [z = 1 + 2 x + 3 y] on these axes. *)
Definition plane_zs : list R := [1; 7; 10; 3; 9; 12; 7; 13; 16]%R.

Definition meta : Surface.Meta xreal :=
  {| Surface.xLabel := DefaultLabel.X;
     Surface.yLabel := DefaultLabel.Y;
     Surface.zLabel := DefaultLabel.Z;
     Surface.xDomain := (Fin 0, Fin 3);
     Surface.yDomain := (Fin 0, Fin 3);
     Surface.zDomain := (Fin 1, Fin 9);
     Surface.timestamp := Fin 0 |}.

End ExampleExact.

Local Close Scope R_scope.
(** * Properties *)

(** ** Frame codec *)

Local Open Scope Z_scope.

Lemma length_make n : length (Uint8Array.make n) = n.
Proof. apply repeat_length. Qed.

Lemma length_set dst src offset :
  (offset + length src <= length dst)%nat ->
  length (Uint8Array.set dst src offset) = length dst.
Proof.
  intros H. unfold Uint8Array.set.
  rewrite !length_app, length_firstn, length_skipn. lia.
Qed.

Lemma slice_app_exact (pre mid post : Uint8Array.t) :
  Uint8Array.slice (pre ++ mid ++ post) (length pre) (length pre + length mid) = mid.
Proof.
  unfold Uint8Array.slice.
  rewrite skipn_app, skipn_all, Nat.sub_diag. cbn [skipn app].
  replace (length pre + length mid - length pre)%nat with (length mid) by lia.
  rewrite firstn_app, firstn_all, Nat.sub_diag. cbn [firstn].
  apply app_nil_r.
Qed.

Lemma slice_app_suffix (pre mid : Uint8Array.t) :
  Uint8Array.slice (pre ++ mid) (length pre) (length pre + length mid) = mid.
Proof.
  pose proof (slice_app_exact pre mid []) as H.
  now rewrite app_nil_r in H.
Qed.

Lemma length_header_bytes len type flags seq :
  length (header_bytes len type flags seq) = FRAME_HEADER_SIZE.
Proof. reflexivity. Qed.

Lemma encodeFrame_layout type payload flags seq :
  encodeFrame type payload flags seq =
  header_bytes (Z.of_nat (length payload)) (MessageType_value type) flags seq
    ++ payload.
Proof.
  unfold encodeFrame, DataView.setUint32, DataView.setUint16, DataView.setUint8,
    Uint8Array.set, Uint8Array.make, FRAME_HEADER_SIZE, header_bytes.
  simpl.
  rewrite skipn_all2 by (rewrite repeat_length; lia).
  now rewrite app_nil_r.
Qed.

Lemma length_encodeFrame type payload flags seq :
  length (encodeFrame type payload flags seq) =
  (FRAME_HEADER_SIZE + length payload)%nat.
Proof. rewrite encodeFrame_layout, length_app. reflexivity. Qed.

(** Reading the header fields back from a buffer that starts with
    [header_bytes]. *)
Section HeaderFields.

Variables (len type flags seq : Z) (rest : Uint8Array.t).

Let data := header_bytes len type flags seq ++ rest.

Lemma getUint32_header : DataView.getUint32 data 0 = len mod 2 ^ 32.
Proof.
  change (DataView.getUint32 data 0) with (le_combine (le_split 4 len)).
  now rewrite le_combine_split.
Qed.

Lemma getUint8_type : DataView.getUint8 data 4 = type mod 2 ^ 8.
Proof.
  change (DataView.getUint8 data 4) with (le_combine (le_split 1 type)).
  now rewrite le_combine_split.
Qed.

Lemma getUint8_flags : DataView.getUint8 data 5 = flags mod 2 ^ 8.
Proof.
  change (DataView.getUint8 data 5) with (le_combine (le_split 1 flags)).
  now rewrite le_combine_split.
Qed.

Lemma getUint16_seq : DataView.getUint16 data 6 = seq mod 2 ^ 16.
Proof.
  change (DataView.getUint16 data 6) with (le_combine (le_split 2 seq)).
  now rewrite le_combine_split.
Qed.

Lemma decodeHeader_header_bytes :
  decodeHeader data =
  Some {| h_length := len mod 2 ^ 32; h_type := type mod 2 ^ 8;
          h_flags := flags mod 2 ^ 8; h_seq := seq mod 2 ^ 16 |}.
Proof.
  unfold decodeHeader.
  replace (length data <? FRAME_HEADER_SIZE)%nat with false.
  - now rewrite getUint32_header, getUint8_type, getUint8_flags, getUint16_seq.
  - symmetry. apply Nat.ltb_ge. unfold data.
    rewrite length_app, length_header_bytes. lia.
Qed.

End HeaderFields.

Lemma MessageType_value_range t : 0 <= MessageType_value t < 2 ^ 8.
Proof. destruct t; cbn; lia. Qed.

Lemma decodeHeader_encodeFrame type payload flags seq rest :
  0 <= flags <= 255 -> 0 <= seq <= 65535 ->
  Z.of_nat (length payload) < 2 ^ 32 ->
  decodeHeader (encodeFrame type payload flags seq ++ rest) =
  Some (header (frame_of type payload flags seq)).
Proof.
  intros Hf Hs Hl.
  rewrite encodeFrame_layout, <- app_assoc, decodeHeader_header_bytes.
  pose proof (MessageType_value_range type).
  rewrite !Z.mod_small by lia. reflexivity.
Qed.

(** Decoding a complete encoded frame: the header is the one that was
    encoded, the payload is the slice behind it. *)
Lemma decodeFrame_slice type payload flags seq :
  0 <= flags <= 255 -> 0 <= seq <= 65535 ->
  Z.of_nat (length payload) < 2 ^ 32 ->
  decodeFrame (encodeFrame type payload flags seq) =
  Some {| header := header (frame_of type payload flags seq);
          payload := Uint8Array.slice (encodeFrame type payload flags seq)
                       FRAME_HEADER_SIZE (FRAME_HEADER_SIZE + length payload) |}.
Proof.
  intros Hf Hs Hl. unfold decodeFrame.
  rewrite <- (app_nil_r (encodeFrame _ _ _ _)) at 1.
  rewrite decodeHeader_encodeFrame by assumption.
  cbn [frame_of header h_length].
  rewrite length_encodeFrame, Nat2Z.inj_add.
  replace (_ <? _) with false by (symmetry; apply Z.ltb_ge; lia).
  now rewrite Nat2Z.id.
Qed.

Lemma decodeFrame_frame_of type payload flags seq :
  0 <= flags <= 255 -> 0 <= seq <= 65535 ->
  Z.of_nat (length payload) < 2 ^ 32 ->
  decodeFrame (encodeFrame type payload flags seq) =
  Some (frame_of type payload flags seq).
Proof.
  intros Hf Hs Hl. rewrite decodeFrame_slice by assumption.
  rewrite encodeFrame_layout. unfold frame_of. cbn [header].
  do 2 f_equal.
  apply (slice_app_suffix (header_bytes _ _ _ _) payload).
Qed.

(** C1.  Frame codec round trip: for every message type, every payload
    shorter than 2^32 bytes, every flags byte (0..255) and every sequence
    number (0..65535), [decodeFrame] applied to the output of [encodeFrame]
    succeeds; the header it returns carries the payload length, the type,
    the flags and the sequence number that were encoded, and the payload
    comes back byte for byte. *)
Theorem decodeFrame_encodeFrame type payload flags seq :
  0 <= flags <= 255 -> 0 <= seq <= 65535 ->
  Z.of_nat (length payload) < 2 ^ 32 ->
  decodeFrame (encodeFrame type payload flags seq) =
  Some {| header := {| h_length := Z.of_nat (length payload);
                       h_type := MessageType_value type;
                       h_flags := flags;
                       h_seq := seq |};
          payload := payload |}.
Proof.
  intros Hf Hs Hl.
  rewrite decodeFrame_slice by assumption.
  cbn [frame_of header].
  do 2 f_equal.
  rewrite encodeFrame_layout.
  apply (slice_app_suffix (header_bytes _ _ _ _) payload).
Qed.

Lemma decodeFrame_encodeFrame_witness :
  decodeFrame (encodeFrame PING [Byte.x01; Byte.xff] 2 513) =
  Some {| header := {| h_length := 2; h_type := 3; h_flags := 2; h_seq := 513 |};
          payload := [Byte.x01; Byte.xff] |}.
Proof.
  apply (decodeFrame_encodeFrame PING [Byte.x01; Byte.xff] 2 513);
    cbn; lia.
Defined.


(** ** Streaming reader *)

Lemma append_buffer r data :
  FrameReader.buffer (FrameReader.append r data) = FrameReader.buffer r ++ data.
Proof.
  destruct r as [b]. unfold FrameReader.append, Uint8Array.set, Uint8Array.make.
  cbn [FrameReader.buffer firstn app Nat.add].
  rewrite firstn_app, firstn_all, Nat.sub_diag, firstn_O, app_nil_r.
  rewrite skipn_all2 with (n := (length b + length data)%nat).
  - now rewrite app_nil_r.
  - rewrite length_app, length_skipn, repeat_length. lia.
Qed.

Lemma slice_app_within (buf extra : Uint8Array.t) start stop :
  (stop <= length buf)%nat ->
  Uint8Array.slice (buf ++ extra) start stop = Uint8Array.slice buf start stop.
Proof.
  intros H. unfold Uint8Array.slice.
  rewrite skipn_app, firstn_app, length_skipn.
  replace (stop - start - (length buf - start))%nat with 0%nat by lia.
  now rewrite firstn_O, app_nil_r.
Qed.

Lemma decodeHeader_app buf extra :
  (FRAME_HEADER_SIZE <= length buf)%nat ->
  decodeHeader (buf ++ extra) = decodeHeader buf.
Proof.
  unfold decodeHeader, FRAME_HEADER_SIZE, DataView.getUint32, DataView.getUint16,
    DataView.getUint8.
  intros H.
  rewrite !slice_app_within by lia.
  rewrite length_app.
  destruct (Nat.ltb_spec (length buf) 8); [lia|].
  destruct (Nat.ltb_spec (length buf + length extra) 8); [lia|].
  reflexivity.
Qed.

Lemma h_length_nonneg buf h : decodeHeader buf = Some h -> 0 <= h_length h.
Proof.
  unfold decodeHeader. destruct (_ <? _)%nat; [discriminate|].
  intros [= <-]. cbn [h_length]. unfold DataView.getUint32.
  apply le_combine_bound.
Qed.

(** What [read] does, case by case. *)
Lemma read_spec r :
  match FrameReader.read r with
  | (None, r') =>
      r' = r /\
      ((length (FrameReader.buffer r) < FRAME_HEADER_SIZE)%nat \/
       exists h, decodeHeader (FrameReader.buffer r) = Some h /\
         Z.of_nat (length (FrameReader.buffer r)) <
         Z.of_nat FRAME_HEADER_SIZE + h_length h)
  | (Some f, r') =>
      decodeHeader (FrameReader.buffer r) = Some (header f) /\
      Z.of_nat FRAME_HEADER_SIZE + h_length (header f) <=
        Z.of_nat (length (FrameReader.buffer r)) /\
      payload f =
        Uint8Array.slice (FrameReader.buffer r) FRAME_HEADER_SIZE
          (FRAME_HEADER_SIZE + Z.to_nat (h_length (header f))) /\
      FrameReader.buffer r' =
        skipn (FRAME_HEADER_SIZE + Z.to_nat (h_length (header f)))
          (FrameReader.buffer r)
  end.
Proof.
  unfold FrameReader.read.
  destruct (Nat.ltb_spec (length (FrameReader.buffer r)) FRAME_HEADER_SIZE).
  { split; auto. }
  destruct (decodeHeader (FrameReader.buffer r)) as [h|] eqn:Hh.
  2:{ unfold decodeHeader in Hh.
      destruct (Nat.ltb_spec (length (FrameReader.buffer r)) FRAME_HEADER_SIZE);
        [lia|discriminate]. }
  pose proof (h_length_nonneg _ _ Hh) as Hnn.
  destruct (Z.ltb_spec (Z.of_nat (length (FrameReader.buffer r)))
              (Z.of_nat FRAME_HEADER_SIZE + h_length h)).
  { split; eauto. }
  cbn [header payload FrameReader.buffer Uint8Array.slice_from].
  rewrite Z2Nat.inj_add, Nat2Z.id by lia.
  repeat split; auto.
Qed.

(** A successful [read] shortens the buffer. *)
Lemma read_shortens r f r' :
  FrameReader.read r = (Some f, r') ->
  (length (FrameReader.buffer r') < length (FrameReader.buffer r))%nat.
Proof.
  intros H. pose proof (read_spec r) as S. rewrite H in S.
  destruct S as (Hh & Hlen & _ & Hb).
  pose proof (h_length_nonneg _ _ Hh).
  rewrite Hb, length_skipn. unfold FRAME_HEADER_SIZE in *. lia.
Qed.

(** A buffer that starts with a whole encoded frame yields that frame and
    keeps what follows it. *)
Lemma read_encoded r m rest :
  encodable m ->
  FrameReader.buffer r = encodeMessage m ++ rest ->
  FrameReader.read r = (Some (frame_of_message m), FrameReader.mk rest).
Proof.
  intros (Hf & Hs & Hl) Hb.
  pose proof (decodeHeader_encodeFrame (m_type m) (m_payload m) (m_flags m)
                (m_seq m) rest Hf Hs Hl) as Hh.
  fold (encodeMessage m) in Hh. rewrite <- Hb in Hh.
  unfold FrameReader.read. rewrite Hh.
  assert (Hlen : length (FrameReader.buffer r) =
                 (FRAME_HEADER_SIZE + length (m_payload m) + length rest)%nat).
  { rewrite Hb, length_app. unfold encodeMessage. now rewrite length_encodeFrame. }
  destruct (Nat.ltb_spec (length (FrameReader.buffer r)) FRAME_HEADER_SIZE); [lia|].
  cbn [frame_of header h_length].
  destruct (Z.ltb_spec (Z.of_nat (length (FrameReader.buffer r)))
              (Z.of_nat FRAME_HEADER_SIZE + Z.of_nat (length (m_payload m)))); [lia|].
  rewrite <- Nat2Z.inj_add, Nat2Z.id.
  unfold frame_of_message, frame_of, Uint8Array.slice_from.
  rewrite Hb. unfold encodeMessage. rewrite encodeFrame_layout, <- app_assoc.
  do 3 f_equal.
  - apply (slice_app_exact (header_bytes _ _ _ _) (m_payload m) rest).
  - rewrite app_assoc.
    assert (Hn : (FRAME_HEADER_SIZE + length (m_payload m))%nat =
                 length (header_bytes (Z.of_nat (length (m_payload m)))
                           (MessageType_value (m_type m)) (m_flags m) (m_seq m)
                         ++ m_payload m)).
    { now rewrite length_app, length_header_bytes. }
    rewrite Hn, skipn_app, skipn_all, Nat.sub_diag. reflexivity.
Qed.

Lemma stream_cons m ms : stream (m :: ms) = encodeMessage m ++ stream ms.
Proof. reflexivity. Qed.

Lemma stream_app ms1 ms2 : stream (ms1 ++ ms2) = stream ms1 ++ stream ms2.
Proof. unfold stream. now rewrite map_app, concat_app. Qed.

Lemma length_encodeMessage m :
  length (encodeMessage m) = (FRAME_HEADER_SIZE + length (m_payload m))%nat.
Proof. apply length_encodeFrame. Qed.

(** If the buffer followed by the bytes still to come is a stream of
    frames, a successful [read] returns the first of them and leaves the
    reader in front of the others. *)
Lemma read_in_stream r ms future f r' :
  Forall encodable ms ->
  FrameReader.buffer r ++ future = stream ms ->
  FrameReader.read r = (Some f, r') ->
  exists m ms', ms = m :: ms' /\ f = frame_of_message m /\
    FrameReader.buffer r' ++ future = stream ms'.
Proof.
  intros Hms Hb Hr.
  pose proof (read_spec r) as S. rewrite Hr in S.
  destruct S as (Hh & Hlen & _ & _).
  pose proof (h_length_nonneg _ _ Hh) as Hnn.
  destruct ms as [|m ms'].
  { apply app_eq_nil in Hb. destruct Hb as [Hb _]. rewrite Hb in Hlen.
    unfold FRAME_HEADER_SIZE in Hlen. cbn [length] in Hlen. lia. }
  inversion Hms as [|? ? Hm Hms']; subst.
  rewrite stream_cons in Hb.
  assert (Hh' : decodeHeader (FrameReader.buffer r ++ future) =
                Some (header (frame_of_message m))).
  { rewrite Hb. destruct Hm as (Hf & Hs & Hl).
    now apply decodeHeader_encodeFrame. }
  rewrite decodeHeader_app, Hh in Hh' by (unfold FRAME_HEADER_SIZE in *; lia).
  injection Hh' as Hh'. rewrite Hh' in Hlen. cbn [frame_of_message frame_of header h_length] in Hlen.
  assert (Hpre : exists l, FrameReader.buffer r = encodeMessage m ++ l /\
                           l ++ future = stream ms').
  { apply app_eq_app in Hb. destruct Hb as [l [[H1 H2]|[H1 H2]]].
    - exists l. auto.
    - pose proof (f_equal (@length _) H1) as HL.
      rewrite length_app, length_encodeMessage in HL.
      destruct l; [|cbn [length] in HL; lia].
      exists []. rewrite app_nil_r in H1. cbn [app] in H2.
      rewrite app_nil_r. split; [|symmetry]; auto. }
  destruct Hpre as (l & Hl1 & Hl2).
  rewrite (read_encoded r m l Hm Hl1) in Hr.
  injection Hr as <- <-.
  exists m, ms'. auto.
Qed.

Lemma readAll_loop_stream rounds : forall r acc ms future,
  Forall encodable ms ->
  FrameReader.buffer r ++ future = stream ms ->
  (length (FrameReader.buffer r) < rounds)%nat ->
  exists done rest r',
    ms = done ++ rest /\
    FrameReader.readAll_loop rounds r acc =
      (acc ++ map frame_of_message done, r') /\
    FrameReader.buffer r' ++ future = stream rest /\
    fst (FrameReader.read r') = None.
Proof.
  induction rounds as [|n IH]; intros r acc ms future Hms Hb Hlt; [lia|].
  cbn [FrameReader.readAll_loop].
  destruct (FrameReader.read r) as [[f|] r1] eqn:Hr.
  - destruct (read_in_stream r ms future f r1 Hms Hb Hr) as (m & ms' & -> & -> & Hb1).
    pose proof (read_shortens _ _ _ Hr) as Hsh.
    inversion Hms; subst.
    destruct (IH r1 (acc ++ [frame_of_message m]) ms' future) as
      (done & rest & r' & -> & Hloop & Hb' & Hnone); auto; [lia|].
    exists (m :: done), rest, r'. repeat split; auto.
    rewrite Hloop, <- app_assoc. reflexivity.
  - pose proof (read_spec r) as S. rewrite Hr in S. destruct S as [-> _].
    exists [], ms, r. rewrite app_nil_r, Hr. auto.
Qed.

(** A reader that holds a whole number of frames and nothing else cannot
    refuse to read unless it holds none. *)
Lemma stream_drained r ms :
  Forall encodable ms ->
  FrameReader.buffer r = stream ms ->
  fst (FrameReader.read r) = None ->
  ms = [].
Proof.
  intros Hms Hb Hnone. destruct ms as [|m ms']; [reflexivity|].
  inversion Hms; subst.
  rewrite (read_encoded r m (stream ms')) in Hnone; auto. discriminate.
Qed.

Lemma readAll_stream r ms :
  Forall encodable ms ->
  FrameReader.buffer r = stream ms ->
  exists r', FrameReader.readAll r = (map frame_of_message ms, r') /\
             FrameReader.buffer r' = [].
Proof.
  intros Hms Hb. unfold FrameReader.readAll.
  destruct (readAll_loop_stream (S (length (FrameReader.buffer r))) r [] ms [])
    as (done & rest & r' & -> & Hloop & Hb' & Hnone); auto.
  { now rewrite app_nil_r. }
  rewrite app_nil_r in Hb'.
  apply Forall_app in Hms. destruct Hms as [_ Hrest].
  pose proof (stream_drained r' rest Hrest Hb' Hnone) as ->.
  exists r'. rewrite app_nil_r. auto.
Qed.

(** Whatever the enough-rounds bound, [readAll] stops because [read] has
    nothing more to give: the loop is the source's unbounded [while]. *)
Lemma readAll_loop_drains rounds : forall r acc,
  (length (FrameReader.buffer r) < rounds)%nat ->
  fst (FrameReader.read (snd (FrameReader.readAll_loop rounds r acc))) = None.
Proof.
  induction rounds as [|n IH]; intros r acc Hlt; [lia|].
  cbn [FrameReader.readAll_loop].
  destruct (FrameReader.read r) as [[f|] r1] eqn:Hr.
  - apply IH. pose proof (read_shortens _ _ _ Hr). lia.
  - pose proof (read_spec r) as S. rewrite Hr in S. destruct S as [-> _].
    cbn [snd]. now rewrite Hr.
Qed.

Lemma readAll_drains r :
  fst (FrameReader.read (snd (FrameReader.readAll r))) = None.
Proof. apply readAll_loop_drains. lia. Qed.

Lemma run_app calls1 : forall calls2 r,
  run r (calls1 ++ calls2) =
  let '(frames1, r1) := run r calls1 in
  let '(frames2, r2) := run r1 calls2 in
  (frames1 ++ frames2, r2).
Proof.
  induction calls1 as [|c calls1 IH]; intros calls2 r; cbn [app run].
  - now destruct (run r calls2).
  - destruct c.
    + apply IH.
    + destruct (FrameReader.read r) as [o r1]. rewrite IH.
      destruct (run r1 calls1) as [fs1 r2]. destruct (run r2 calls2) as [fs2 r3].
      now destruct o.
    + destruct (FrameReader.readAll r) as [fs0 r1]. rewrite IH.
      destruct (run r1 calls1) as [fs1 r2]. destruct (run r2 calls2) as [fs2 r3].
      now rewrite app_assoc.
Qed.

(** At the end of any sequence of calls the frames handed out are a prefix
    of the stream's frames and the buffer holds the others, whole. *)
Lemma run_prefix calls : forall r ms,
  Forall encodable ms ->
  FrameReader.buffer r ++ appended calls = stream ms ->
  exists done rest r',
    ms = done ++ rest /\
    run r calls = (map frame_of_message done, r') /\
    FrameReader.buffer r' = stream rest.
Proof.
  induction calls as [|c calls IH]; intros r ms Hms Hb.
  - exists [], ms, r. cbn [appended] in Hb. rewrite app_nil_r in Hb. auto.
  - destruct c as [data| |]; cbn [run appended] in *.
    + apply IH; auto. now rewrite append_buffer, <- app_assoc.
    + destruct (FrameReader.read r) as [[f|] r1] eqn:Hr.
      * destruct (read_in_stream r ms _ f r1 Hms Hb Hr) as (m & ms' & -> & -> & Hb1).
        inversion Hms; subst.
        destruct (IH r1 ms') as (done & rest & r' & -> & Hrun & Hb'); auto.
        exists (m :: done), rest, r'. rewrite Hrun. auto.
      * pose proof (read_spec r) as S. rewrite Hr in S. destruct S as [-> _].
        destruct (IH r ms) as (done & rest & r' & -> & Hrun & Hb'); auto.
        exists done, rest, r'. rewrite Hrun. auto.
    + unfold FrameReader.readAll.
      destruct (readAll_loop_stream (S (length (FrameReader.buffer r))) r [] ms
                  (appended calls))
        as (done1 & rest1 & r1 & -> & Hloop & Hb1 & _); auto.
      rewrite Hloop. cbn [app].
      apply Forall_app in Hms. destruct Hms as [_ Hrest1].
      destruct (IH r1 rest1) as (done & rest & r' & -> & Hrun & Hb'); auto.
      exists (done1 ++ done), rest, r'. rewrite Hrun, map_app, app_assoc. auto.
Qed.

Lemma run_then_readAll calls r ms :
  Forall encodable ms ->
  FrameReader.buffer r ++ appended calls = stream ms ->
  fst (run r (calls ++ [ReadAll])) = map frame_of_message ms.
Proof.
  intros Hms Hb.
  destruct (run_prefix calls r ms Hms Hb) as (done & rest & r' & -> & Hrun & Hb').
  apply Forall_app in Hms. destruct Hms as [_ Hrest].
  destruct (readAll_stream r' rest Hrest Hb') as (r'' & Hall & _).
  rewrite run_app, Hrun. cbn [run]. rewrite Hall. cbn [fst].
  now rewrite map_app, app_nil_r.
Qed.

(** A buffer that is a proper prefix of one encoded frame, a proper prefix
    of its header included, is left alone. *)
Lemma read_partial m pre suf :
  encodable m ->
  encodeMessage m = pre ++ suf -> suf <> [] ->
  FrameReader.read (FrameReader.mk pre) = (None, FrameReader.mk pre).
Proof.
  intros Hm Hsplit Hsuf.
  assert (Hlen : (length pre < FRAME_HEADER_SIZE + length (m_payload m))%nat).
  { rewrite <- length_encodeMessage, Hsplit, length_app.
    destruct suf; [congruence|cbn [length]; lia]. }
  destruct (FrameReader.read (FrameReader.mk pre)) as [[f|] r1] eqn:Hr.
  - exfalso.
    pose proof (read_spec (FrameReader.mk pre)) as S. rewrite Hr in S.
    cbn [FrameReader.buffer] in S. destruct S as (Hh & Hle & _).
    pose proof (h_length_nonneg _ _ Hh) as Hnn.
    assert (Hh' : decodeHeader (pre ++ suf) = Some (header (frame_of_message m))).
    { rewrite <- Hsplit, <- (app_nil_r (encodeMessage m)).
      destruct Hm as (Hf & Hs & Hl). now apply decodeHeader_encodeFrame. }
    rewrite decodeHeader_app, Hh in Hh' by (unfold FRAME_HEADER_SIZE in *; lia).
    injection Hh' as Hh'. rewrite Hh' in Hle.
    cbn [frame_of_message frame_of header h_length] in Hle. lia.
  - pose proof (read_spec (FrameReader.mk pre)) as S. rewrite Hr in S.
    destruct S as [-> _]. reflexivity.
Qed.

Lemma appended_app calls1 calls2 :
  appended (calls1 ++ calls2) = appended calls1 ++ appended calls2.
Proof.
  induction calls1 as [|c calls1 IH]; [reflexivity|].
  destruct c; cbn [app appended]; now rewrite IH, ?app_assoc.
Qed.

Lemma appended_feed chunks : appended (feed chunks) = concat chunks.
Proof.
  induction chunks as [|c chunks IH]; [reflexivity|].
  cbn [feed flat_map app appended concat]. fold (feed chunks). now rewrite IH.
Qed.

Lemma feed_app chunks1 chunks2 : feed (chunks1 ++ chunks2) = feed chunks1 ++ feed chunks2.
Proof. apply flat_map_app. Qed.

Lemma stream_nil_inv ms : stream ms = [] -> ms = [].
Proof.
  destruct ms as [|m ms]; [reflexivity|].
  rewrite stream_cons. intros H. apply app_eq_nil in H. destruct H as [H _].
  apply (f_equal (@length _)) in H. rewrite length_encodeMessage in H.
  discriminate.
Qed.

(** C2.  Streaming reassembly.  Take any sequence of encodable frames and
    the concatenation of their encodings.
    (1) However that byte stream is cut into chunks, appending the chunks
    one after the other and calling [readAll] after each append returns,
    all calls together, exactly the original frames in order: same header
    fields, same payload bytes.
    (2) The same holds for any interleaving of [append], [read] and
    [readAll] calls that delivers the stream, once a last [readAll] has
    run.
    (3) While the buffer holds only a proper prefix of an encoded frame
    (fewer than the eight header bytes, or a whole header and too little
    payload), [read] returns null and the reader is unchanged; whenever
    [read] returns null the reader is unchanged. *)
Theorem FrameReader_reassembles (ms : list Message) :
  Forall encodable ms ->
  (forall chunks, concat chunks = stream ms ->
     fst (run FrameReader.new (feed chunks)) = map frame_of_message ms) /\
  (forall calls, appended calls = stream ms ->
     fst (run FrameReader.new (calls ++ [ReadAll])) = map frame_of_message ms) /\
  (forall m pre suf, encodable m -> encodeMessage m = pre ++ suf -> suf <> [] ->
     FrameReader.read (FrameReader.mk pre) = (None, FrameReader.mk pre)) /\
  (forall r, fst (FrameReader.read r) = None -> snd (FrameReader.read r) = r).
Proof.
  intros Hms.
  assert (Hcalls : forall calls, appended calls = stream ms ->
            fst (run FrameReader.new (calls ++ [ReadAll])) = map frame_of_message ms).
  { intros calls Hc. apply run_then_readAll; auto. }
  repeat split.
  - intros chunks Hc.
    destruct chunks as [|c0 chunks0] using rev_ind.
    + cbn [concat] in Hc. symmetry in Hc. apply stream_nil_inv in Hc.
      subst ms. reflexivity.
    + clear IHchunks0. rewrite feed_app. cbn [feed flat_map app].
      change [Append c0; ReadAll] with ([Append c0] ++ [ReadAll]).
      rewrite app_assoc. apply Hcalls.
      rewrite appended_app, appended_feed. cbn [appended].
      rewrite concat_app in Hc. cbn [concat] in Hc. exact Hc.
  - exact Hcalls.
  - intros m pre suf. apply read_partial.
  - intros r Hnone. pose proof (read_spec r) as S.
    destruct (FrameReader.read r) as [[f|] r']; [discriminate|].
    now destruct S.
Qed.

Lemma FrameReader_reassembles_witness :
  fst (run FrameReader.new (feed (map (fun b => [b]) (stream Example.two_messages)))) =
  map frame_of_message Example.two_messages.
Proof.
  refine (proj1 (FrameReader_reassembles Example.two_messages _) _ _).
  - repeat constructor; cbn; lia.
  - vm_compute. reflexivity.
Defined.

Local Close Scope Z_scope.

(** ** Exact arithmetic on finite values *)

Section XRealFacts.

Local Open Scope R_scope.

Lemma xreal_add_Fin a b : nadd (Fin a) (Fin b) = Fin (a + b).
Proof. reflexivity. Qed.

Lemma xreal_sub_Fin a b : nsub (Fin a) (Fin b) = Fin (a - b).
Proof. reflexivity. Qed.

Lemma xreal_mul_Fin a b : nmul (Fin a) (Fin b) = Fin (a * b).
Proof. reflexivity. Qed.

Lemma xreal_opp_Fin a : nopp (Fin a) = Fin (- a).
Proof. reflexivity. Qed.

Lemma xreal_abs_Fin a : nabs (Fin a) = Fin (Rabs a).
Proof. reflexivity. Qed.

Lemma xreal_of_Z z : of_Z z = Fin (IZR z).
Proof. reflexivity. Qed.

Lemma xreal_div_Fin a b : b <> 0 -> ndiv (Fin a) (Fin b) = Fin (a / b).
Proof.
  intros Hb. cbn. destruct (Req_dec_T b 0); [contradiction|reflexivity].
Qed.

Lemma xreal_dec p q : q <> 0%Z -> dec p q = Fin (IZR p / IZR q).
Proof.
  intros Hq. unfold dec. rewrite !xreal_of_Z. apply xreal_div_Fin.
  now apply not_0_IZR.
Qed.

Lemma xreal_ltb_Fin a b : nltb (Fin a) (Fin b) = true <-> a < b.
Proof. cbn. destruct (Rlt_dec a b); split; auto; discriminate. Qed.

Lemma xreal_ltb_Fin_false a b : nltb (Fin a) (Fin b) = false <-> b <= a.
Proof. cbn. destruct (Rlt_dec a b); split; auto; try discriminate; lra. Qed.

Lemma xreal_leb_Fin a b : nleb (Fin a) (Fin b) = true <-> a <= b.
Proof. cbn. destruct (Rle_dec a b); split; auto; discriminate. Qed.

Lemma xreal_leb_Fin_false a b : nleb (Fin a) (Fin b) = false <-> b < a.
Proof. cbn. destruct (Rle_dec a b); split; auto; try discriminate; lra. Qed.

Lemma xreal_eqb_Fin a b : neqb (Fin a) (Fin b) = true <-> a = b.
Proof. cbn. destruct (Req_dec_T a b); split; auto; discriminate. Qed.

Lemma xreal_max_Fin a b : nmax (Fin a) (Fin b) = Fin (Rmax a b).
Proof.
  cbn. unfold Rmax. destruct (Rlt_dec a b), (Rle_dec a b); auto; try lra.
  f_equal. lra.
Qed.

Lemma xreal_min_Fin a b : nmin (Fin a) (Fin b) = Fin (Rmin a b).
Proof.
  cbn. unfold Rmin. destruct (Rlt_dec a b), (Rle_dec a b); auto; try lra.
  f_equal. lra.
Qed.

Lemma xreal_sqrt_Fin a : 0 <= a -> nsqrt (Fin a) = Fin (sqrt a).
Proof. intros Ha. cbn. destruct (Rlt_dec a 0); [lra|reflexivity]. Qed.

Lemma get_map_Fin (l : list R) i :
  (i < length l)%nat -> get (map Fin l) i = Fin (nth i l 0).
Proof.
  intros Hi. unfold get.
  rewrite (nth_indep _ NaN (Fin 0)) by now rewrite length_map.
  apply (map_nth Fin).
Qed.

End XRealFacts.

(** Rewriting with these turns arithmetic on finite values into real
    arithmetic. *)
Create Rewrite HintDb xreal.
#[local] Hint Rewrite xreal_add_Fin xreal_sub_Fin xreal_mul_Fin xreal_opp_Fin
  xreal_abs_Fin xreal_of_Z xreal_max_Fin xreal_min_Fin : xreal.

Ltac xreal_simpl :=
  repeat first
    [ rewrite xreal_mul_Fin | rewrite xreal_add_Fin | rewrite xreal_sub_Fin
    | rewrite xreal_opp_Fin | rewrite xreal_abs_Fin | rewrite xreal_of_Z
    | rewrite xreal_max_Fin | rewrite xreal_min_Fin ].

(** ** Calendar arbitrage *)


Section CalendarGeneric.

Context {num : Type} `{Number num}.

Local Open Scope num_scope.




End CalendarGeneric.

Section CalendarExact.

Local Open Scope R_scope.




End CalendarExact.


(** ** Enforcing an arbitrage-free surface *)

Section Enforce.

Context {num : Type} `{Number num}.

Variable log : num -> num.

Lemma arbitrageFree_spec (surface : Surface.t num) forward tolerance :
  CheckResult.arbitrageFree (checkAllArbitrage log surface forward tolerance) = true <->
  CheckResult.violations (checkAllArbitrage log surface forward tolerance) = [].
Proof.
  unfold checkAllArbitrage.
  cbn [CheckResult.arbitrageFree CheckResult.violations].
  rewrite Nat.eqb_eq. apply length_zero_iff_nil.
Qed.

Lemma total_spec (surface : Surface.t num) forward tolerance :
  CheckResult.total
    (CheckResult.summary (checkAllArbitrage log surface forward tolerance)) =
  length (CheckResult.violations (checkAllArbitrage log surface forward tolerance)).
Proof. reflexivity. Qed.

(** A loop that applied fewer correction rounds than it was allowed left
    through its [return], which is behind the arbitrage-free test. *)
Lemma enforce_loop_early rounds : forall current tolerance,
  (snd (enforce_loop log rounds current tolerance) < rounds)%nat ->
  CheckResult.arbitrageFree
    (checkAllArbitrage log (fst (enforce_loop log rounds current tolerance))
       None tolerance) = true.
Proof.
  induction rounds as [|n IH]; intros current tolerance Hlt; [cbn in Hlt; lia|].
  cbn [enforce_loop] in *.
  destruct (CheckResult.arbitrageFree (checkAllArbitrage log current None tolerance))
    eqn:Hfree.
  - exact Hfree.
  - destruct (enforce_loop log n
                (correct current
                   (CheckResult.violations
                      (checkAllArbitrage log current None tolerance)))
                tolerance) as [final applied] eqn:Hloop.
    cbn [fst snd] in *.
    specialize (IH (correct current
                      (CheckResult.violations
                         (checkAllArbitrage log current None tolerance)))
                   tolerance).
    rewrite Hloop in IH. apply IH. cbn [snd]. lia.
Qed.

(** The loop never applies more rounds than it is allowed. *)
Lemma enforce_loop_bound rounds : forall current tolerance,
  (snd (enforce_loop log rounds current tolerance) <= rounds)%nat.
Proof.
  induction rounds as [|n IH]; intros current tolerance; [reflexivity|].
  cbn [enforce_loop].
  destruct (CheckResult.arbitrageFree _); [cbn; lia|].
  specialize (IH (correct current
                    (CheckResult.violations
                       (checkAllArbitrage log current None tolerance)))
                 tolerance).
  destruct (enforce_loop log n _ tolerance) as [final applied].
  cbn [snd] in *. lia.
Qed.

(** C9.  For every surface, every iteration bound and every tolerance, in
    any arithmetic: if [enforceArbitrageFree] returns before it has
    applied [maxIterations] rounds of corrections, then [checkAllArbitrage]
    without a forward price, at the same tolerance, finds the returned
    surface arbitrage-free: no violation in the list, a total of zero and
    zero in each category. *)
Theorem enforceArbitrageFree_early_return (surface : Surface.t num)
    (maxIterations : nat) (tolerance : num) :
  (correctionRounds log surface maxIterations tolerance < maxIterations)%nat ->
  let result :=
    checkAllArbitrage log
      (enforceArbitrageFree log surface maxIterations tolerance) None tolerance in
  CheckResult.arbitrageFree result = true /\
  CheckResult.violations result = [] /\
  CheckResult.summary result =
    {| CheckResult.n_calendar := 0; CheckResult.n_butterfly := 0;
       CheckResult.n_vertical := 0; CheckResult.total := 0 |}.
Proof.
  unfold correctionRounds, enforceArbitrageFree. intros Hlt.
  pose proof (enforce_loop_early _ _ _ Hlt) as Hfree.
  set (final := fst (enforce_loop log maxIterations _ tolerance)) in *.
  cbn zeta. split; [exact Hfree|].
  apply arbitrageFree_spec in Hfree. split; [exact Hfree|].
  unfold checkAllArbitrage in *. cbn [CheckResult.violations CheckResult.summary] in *.
  apply app_eq_nil in Hfree. destruct Hfree as [-> Hrest].
  apply app_eq_nil in Hrest. destruct Hrest as [-> _].
  reflexivity.
Qed.

End Enforce.

(** The inverted surface is repaired in two rounds out of a hundred. *)
Lemma enforceArbitrageFree_early_return_witness :
  let result :=
    checkAllArbitrage Example.log
      (enforceArbitrageFree Example.log Example.inverted 100 (dec 1 1000))
      None (dec 1 1000) in
  CheckResult.arbitrageFree result = true /\
  CheckResult.violations result = [] /\
  CheckResult.summary result =
    {| CheckResult.n_calendar := 0; CheckResult.n_butterfly := 0;
       CheckResult.n_vertical := 0; CheckResult.total := 0 |}.
Proof.
  apply (enforceArbitrageFree_early_return Example.log Example.inverted 100
           (dec 1 1000)).
  vm_compute. lia.
Defined.


(** ** Risk score *)

Section RiskGeneric.

Context {num : Type} `{Number num}.

(** The risk score is the weighted sum of the three clamped terms, read off
    the fields that are returned with it. *)
Lemma riskScore_formula (slope : SlopeData.t num) nx ny :
  let m := computeRiskMetrics slope nx ny in
  RiskMetrics.riskScore m =
  nadd (nadd (nmul (nmin (of_Z 1) (ndiv (RiskMetrics.maxSlope m) (of_Z 2)))
                   (dec 4 10))
             (nmul (nmin (of_Z 1)
                      (ndiv (nsqrt (RiskMetrics.slopeVariance m)) (dec 5 10)))
                   (dec 3 10)))
       (nmul (nmin (of_Z 1)
                (ndiv (nabs (RiskMetrics.termStructureSteepness m)) (dec 5 10)))
             (dec 3 10)).
Proof. reflexivity. Qed.

End RiskGeneric.

(** C5, where the code departs from it.  In binary64 the variance
    [E[m^2] - E[m]^2] of the uniform slope field 0.3 on six cells comes out
    negative by rounding, its square root is NaN, and so is the risk
    score: it is not in [0, 1]. *)
Lemma computeRiskMetrics_uniform_slope_NaN :
  let m := computeRiskMetrics Example.uniform_slope 3 2 in
  nltb (RiskMetrics.slopeVariance m) (of_Z 0) = true /\
  PrimFloat.is_nan (RiskMetrics.riskScore m) = true /\
  nleb (of_Z 0) (RiskMetrics.riskScore m) = false /\
  nleb (RiskMetrics.riskScore m) (of_Z 1) = false.
Proof. vm_compute. repeat split. Qed.

(** *** The risk score in exact arithmetic *)

Section RiskExact.

Local Open Scope R_scope.

Lemma rsum_snoc f a k : rsum f a (S k) = rsum f a k + f (a + k)%nat.
Proof.
  revert a. induction k as [|k IH]; intros a.
  - cbn. rewrite Nat.add_0_r. lra.
  - cbn [rsum] in *. rewrite IH. replace (S a + k)%nat with (a + S k)%nat by lia. lra.
Qed.

Lemma rmax_from_ge m f a k : m <= rmax_from m f a k.
Proof.
  revert m a. induction k as [|k IH]; intros m a; cbn; [lra|].
  eapply Rle_trans; [apply Rmax_l|apply IH].
Qed.

Lemma rsum_zero f a k : (forall i, f i = 0) -> rsum f a k = 0.
Proof.
  intros Hf. revert a. induction k as [|k IH]; intros a; cbn; [reflexivity|].
  rewrite Hf, IH. lra.
Qed.

Lemma rmax_from_zero f a k : (forall i, f i = 0) -> rmax_from 0 f a k = 0.
Proof.
  intros Hf. revert a. induction k as [|k IH]; intros a; cbn; [reflexivity|].
  rewrite Hf, Rmax_left by lra. apply IH.
Qed.

(** Twice the mixed term is below the sum of the squares. *)
Lemma rsum_mixed f a k c :
  2 * c * rsum f a k <= INR k * (c * c) + rsum (fun i => f i * f i) a k.
Proof.
  revert a. induction k as [|k IH]; intros a.
  - cbn. lra.
  - rewrite S_INR. cbn [rsum]. specialize (IH (S a)).
    pose proof (Rle_0_sqr (c - f a)) as Hsq. unfold Rsqr in Hsq. lra.
Qed.

(** The square of a sum of [k] terms is at most [k] times the sum of the
    squares: the variance is not negative. *)
Lemma rsum_sqr f a k :
  rsum f a k * rsum f a k <= INR k * rsum (fun i => f i * f i) a k.
Proof.
  revert a. induction k as [|k IH]; intros a.
  - cbn. lra.
  - rewrite S_INR. cbn [rsum]. specialize (IH (S a)).
    pose proof (rsum_mixed f (S a) k (f a)) as Hmix.
    nra.
Qed.

Variables (mag dx dy ang : list R).

Let slope : SlopeData.t xreal :=
  {| SlopeData.dz_dx := map Fin dx;
     SlopeData.dz_dy := map Fin dy;
     SlopeData.magnitude := map Fin mag;
     SlopeData.angle := map Fin ang |}.

Let m_ i := nth i mag 0.
Let dx_ i := nth i dx 0.
Let dy_ i := nth i dy 0.

Hypothesis Hdx : length dx = length mag.
Hypothesis Hdy : length dy = length mag.

(** The first loop, in closed form. *)
Lemma accumulate_loop k : forall a mx s q c t sm,
  (a + k <= length mag)%nat ->
  fold_left (accumulate slope) (seq a k)
    {| maxSlope := Fin mx; sumSlope := Fin s; sumSlopeSq := Fin q;
       upwardCount := c; sumTermSlope := Fin t; sumSmile := Fin sm |} =
  {| maxSlope := Fin (rmax_from mx m_ a k);
     sumSlope := Fin (s + rsum m_ a k);
     sumSlopeSq := Fin (q + rsum (fun i => m_ i * m_ i) a k);
     upwardCount := count_pos c dy_ a k;
     sumTermSlope := Fin (t + rsum dx_ a k);
     sumSmile := Fin (sm + rsum (fun i => Rabs (dy_ i)) a k) |}.
Proof.
  induction k as [|k IH]; intros a mx s q c t sm Hle.
  - cbn. now rewrite !Rplus_0_r.
  - cbn [seq fold_left rsum rmax_from count_pos].
    unfold accumulate at 2.
    cbn [SlopeData.magnitude SlopeData.dz_dx SlopeData.dz_dy slope
         maxSlope sumSlope sumSlopeSq upwardCount sumTermSlope sumSmile].
    rewrite !get_map_Fin by lia.
    fold (m_ a) (dx_ a) (dy_ a).
    rewrite xreal_max_Fin, xreal_mul_Fin, xreal_abs_Fin, !xreal_add_Fin.
    rewrite xreal_of_Z.
    replace (nltb (Fin 0) (Fin (dy_ a)))
      with (if Rlt_dec 0 (dy_ a) then true else false) by reflexivity.
    rewrite IH by lia.
    destruct (Rlt_dec 0 (dy_ a)); f_equal; f_equal; lra.
Qed.

Let n := length mag.

Let sums :=
  fold_left (accumulate slope) (seq 0 n) Sums_init.

Lemma sums_closed_form :
  sums =
  {| maxSlope := Fin (rmax_from 0 m_ 0 n);
     sumSlope := Fin (rsum m_ 0 n);
     sumSlopeSq := Fin (rsum (fun i => m_ i * m_ i) 0 n);
     upwardCount := count_pos 0 dy_ 0 n;
     sumTermSlope := Fin (rsum dx_ 0 n);
     sumSmile := Fin (rsum (fun i => Rabs (dy_ i)) 0 n) |}.
Proof.
  unfold sums.
  change Sums_init with
    {| maxSlope := Fin 0; sumSlope := Fin 0; sumSlopeSq := Fin 0;
       upwardCount := 0; sumTermSlope := Fin 0; sumSmile := Fin 0 |}.
  rewrite accumulate_loop by (unfold n; lia).
  now rewrite !Rplus_0_l.
Qed.

Lemma of_nat_xreal k : of_nat k = Fin (INR k).
Proof. unfold of_nat. now rewrite xreal_of_Z, <- INR_IZR_INZ. Qed.

Hypothesis Hpos : (0 < length mag)%nat.

Lemma INR_n_pos : 0 < INR n.
Proof. apply lt_0_INR. exact Hpos. Qed.

Lemma maxSlope_exact nx ny :
  RiskMetrics.maxSlope (computeRiskMetrics slope nx ny) =
  Fin (rmax_from 0 m_ 0 n).
Proof.
  transitivity (maxSlope sums).
  { unfold computeRiskMetrics, sums, n.
    cbn [RiskMetrics.maxSlope SlopeData.magnitude slope].
    now rewrite length_map. }
  now rewrite sums_closed_form.
Qed.

Lemma slopeVariance_exact nx ny :
  RiskMetrics.slopeVariance (computeRiskMetrics slope nx ny) =
  Fin (rsum (fun i => m_ i * m_ i) 0 n / INR n
       - rsum m_ 0 n / INR n * (rsum m_ 0 n / INR n)).
Proof.
  transitivity (nsub (ndiv (sumSlopeSq sums) (of_nat n))
                     (nmul (ndiv (sumSlope sums) (of_nat n))
                           (ndiv (sumSlope sums) (of_nat n)))).
  { unfold computeRiskMetrics, sums, n.
    cbn [RiskMetrics.slopeVariance SlopeData.magnitude slope].
    now rewrite length_map. }
  pose proof INR_n_pos.
  rewrite sums_closed_form. cbn [sumSlopeSq sumSlope].
  rewrite of_nat_xreal, !xreal_div_Fin by lra. reflexivity.
Qed.

Lemma termStructureSteepness_exact nx ny :
  RiskMetrics.termStructureSteepness (computeRiskMetrics slope nx ny) =
  Fin (rsum dx_ 0 n / INR n).
Proof.
  transitivity (ndiv (sumTermSlope sums) (of_nat n)).
  { unfold computeRiskMetrics, sums, n.
    cbn [RiskMetrics.termStructureSteepness SlopeData.magnitude slope].
    now rewrite length_map. }
  pose proof INR_n_pos.
  rewrite sums_closed_form. cbn [sumTermSlope].
  rewrite of_nat_xreal, !xreal_div_Fin by lra. reflexivity.
Qed.

Lemma variance_nonneg :
  0 <= rsum (fun i => m_ i * m_ i) 0 n / INR n
       - rsum m_ 0 n / INR n * (rsum m_ 0 n / INR n).
Proof.
  pose proof INR_n_pos as Hn.
  pose proof (rsum_sqr m_ 0 n) as Hcs.
  replace (rsum (fun i => m_ i * m_ i) 0 n / INR n
           - rsum m_ 0 n / INR n * (rsum m_ 0 n / INR n))
    with ((INR n * rsum (fun i => m_ i * m_ i) 0 n
           - rsum m_ 0 n * rsum m_ 0 n) / (INR n * INR n))
    by (field; lra).
  apply Rmult_le_pos; [lra|].
  apply Rlt_le, Rinv_0_lt_compat. nra.
Qed.

(** In exact arithmetic, for every slope field of finite values over at
    least one cell: the three inputs of the risk score are finite, the
    largest slope and the variance are not negative, and the risk score is
    [0.4 min(1, maxSlope / 2) + 0.3 min(1, sqrt(slopeVariance) / 0.5)
     + 0.3 min(1, |termStructureSteepness| / 0.5)], a number in [0, 1]; it
    is 0 when the field is zero everywhere. *)
Theorem computeRiskMetrics_exact nx ny :
  let m := computeRiskMetrics slope nx ny in
  exists mx var term,
    RiskMetrics.maxSlope m = Fin mx /\
    RiskMetrics.slopeVariance m = Fin var /\
    RiskMetrics.termStructureSteepness m = Fin term /\
    0 <= mx /\ 0 <= var /\
    (let r := 4 / 10 * Rmin 1 (mx / 2) + 3 / 10 * Rmin 1 (sqrt var / (5 / 10))
              + 3 / 10 * Rmin 1 (Rabs term / (5 / 10)) in
     RiskMetrics.riskScore m = Fin r /\ 0 <= r <= 1 /\
     ((forall i, m_ i = 0) -> (forall i, dx_ i = 0) -> r = 0)).
Proof.
  intros m.
  exists (rmax_from 0 m_ 0 n),
         (rsum (fun i => m_ i * m_ i) 0 n / INR n
          - rsum m_ 0 n / INR n * (rsum m_ 0 n / INR n)),
         (rsum dx_ 0 n / INR n).
  pose proof (rmax_from_ge 0 m_ 0 n) as Hmx.
  pose proof variance_nonneg as Hvar.
  split; [apply maxSlope_exact|].
  split; [apply slopeVariance_exact|].
  split; [apply termStructureSteepness_exact|].
  split; [exact Hmx|]. split; [exact Hvar|].
  cbn zeta. split; [|split].
  - subst m. rewrite riskScore_formula. cbn zeta.
    rewrite maxSlope_exact, slopeVariance_exact, termStructureSteepness_exact.
    rewrite !xreal_dec, !xreal_of_Z by discriminate.
    rewrite xreal_sqrt_Fin by exact Hvar.
    rewrite xreal_abs_Fin.
    rewrite !xreal_div_Fin by lra.
    rewrite !xreal_min_Fin, !xreal_mul_Fin, !xreal_add_Fin.
    f_equal. lra.
  - set (a := Rmin 1 _). set (b := Rmin 1 _). set (c := Rmin 1 _).
    assert (0 <= a <= 1).
    { subst a. split; [apply Rmin_glb; lra|apply Rmin_l]. }
    assert (0 <= b <= 1).
    { subst b. split; [|apply Rmin_l].
      apply Rmin_glb; [lra|]. pose proof (sqrt_pos (rsum (fun i => m_ i * m_ i) 0 n / INR n
          - rsum m_ 0 n / INR n * (rsum m_ 0 n / INR n))). lra. }
    assert (0 <= c <= 1).
    { subst c. split; [|apply Rmin_l].
      apply Rmin_glb; [lra|]. pose proof (Rabs_pos (rsum dx_ 0 n / INR n)). lra. }
    lra.
  - intros Hm0 Hdx0.
    rewrite (rmax_from_zero m_ 0 n Hm0).
    rewrite (rsum_zero m_ 0 n Hm0), (rsum_zero dx_ 0 n Hdx0).
    rewrite (rsum_zero (fun i => m_ i * m_ i) 0 n)
      by (intros i; rewrite Hm0; lra).
    unfold Rdiv. rewrite !Rmult_0_l, Rminus_0_r, sqrt_0, Rabs_R0, !Rmult_0_l.
    rewrite Rmin_right by lra. lra.
Qed.

End RiskExact.

Lemma computeRiskMetrics_exact_witness :
  exists r,
    RiskMetrics.riskScore
      (computeRiskMetrics
         {| SlopeData.dz_dx := map Fin [1; 0]%R;
            SlopeData.dz_dy := map Fin [0; 1]%R;
            SlopeData.magnitude := map Fin [1; 1]%R;
            SlopeData.angle := map Fin [0; 0]%R |} 1 2) = Fin r /\
    (0 <= r <= 1)%R.
Proof.
  destruct (computeRiskMetrics_exact [1; 1]%R [1; 0]%R [0; 1]%R [0; 0]%R
              eq_refl eq_refl (Nat.lt_0_succ 1) 1 2)
    as (mx & var & term & _ & _ & _ & _ & _ & Hr & Hb & _).
  eexists. split; [exact Hr|exact Hb].
Defined.

(** ** Projection *)

Section ProjectExact.

Local Open Scope R_scope.

Lemma DEG2RAD_xreal : DEG2RAD = Fin (PI / 180).
Proof. unfold DEG2RAD. cbn [nPI xreal_Trig]. rewrite xreal_of_Z. apply xreal_div_Fin. lra. Qed.

(** C6.  In exact arithmetic, with azimuth 0, elevation 0 and aspect ratio
    1, for every zoom, every screen centre and every point
    [(x, y, z_val)]: [project3D] returns the screen coordinates
    [x = centerX + x * zoom] and [y = centerY - z_val * zoom] (and the depth
    [y]); with azimuth 0 and elevation 0 and any aspect ratio, the origin
    goes to [(centerX, centerY)]. *)
Theorem project3D_front_view (cx cy zm x y z_val ar : R) :
  let front ratio :=
    {| Projection.azimuth := of_Z 0;
       Projection.elevation := of_Z 0;
       Projection.zoom := Fin zm;
       Projection.centerX := Fin cx;
       Projection.centerY := Fin cy;
       Projection.aspectRatio := ratio |} in
  project3D {| p3_x := Fin x; p3_y := Fin y; p3_z := Fin z_val |}
    (front (of_Z 1)) =
    {| p2_x := Fin (cx + x * zm); p2_y := Fin (cy - z_val * zm);
       depth := Fin y |} /\
  p2_x (project3D {| p3_x := of_Z 0; p3_y := of_Z 0; p3_z := of_Z 0 |}
          (front (Fin ar))) = Fin cx /\
  p2_y (project3D {| p3_x := of_Z 0; p3_y := of_Z 0; p3_z := of_Z 0 |}
          (front (Fin ar))) = Fin cy.
Proof.
  cbn zeta. unfold project3D.
  cbn [Projection.azimuth Projection.elevation Projection.zoom
       Projection.centerX Projection.centerY Projection.aspectRatio
       p3_x p3_y p3_z].
  rewrite DEG2RAD_xreal, !xreal_of_Z, !xreal_mul_Fin.
  cbn [ncos nsin xreal_Trig].
  rewrite !Rmult_0_l, cos_0, sin_0.
  xreal_simpl.
  cbn [p2_x p2_y].
  repeat split; f_equal; try f_equal; lra.
Qed.

End ProjectExact.

(** ** Rotation and zoom *)

(** C7, where the code departs from it.  In binary64: turning the front
    camera by -390 degrees leaves the azimuth at -30, which is not in
    [0, 360). *)
Lemma rotateProjection_negative_azimuth :
  let p := rotateProjection Example.camera (of_Z (-390)) (of_Z 0) in
  Projection.azimuth p = of_Z (-30) /\
  nltb (Projection.azimuth p) (of_Z 0) = true.
Proof. vm_compute. split; reflexivity. Qed.

Section RotateExact.

Local Open Scope R_scope.

Lemma trunc_nonneg r : 0 <= r -> XReal.trunc r = Int_part r.
Proof. intros Hr. unfold XReal.trunc. destruct (Rle_dec 0 r); [reflexivity|lra]. Qed.

(** The remainder of a non-negative number by 360. *)
Lemma rem_360_nonneg a :
  0 <= a ->
  exists k : Z, nrem (Fin a) (Fin 360) = Fin (a - 360 * IZR k) /\
                0 <= a - 360 * IZR k < 360.
Proof.
  intros Ha. exists (Int_part (a / 360)).
  cbn.
  destruct (Req_dec_T 360 0); [lra|].
  rewrite trunc_nonneg by (apply Rmult_le_pos; lra).
  split; [reflexivity|].
  destruct (base_Int_part (a / 360)) as [H1 H2].
  split.
  - assert (360 * IZR (Int_part (a / 360)) <= 360 * (a / 360))
      by (apply Rmult_le_compat_l; lra).
    replace (360 * (a / 360)) with a in * by (field; lra). lra.
  - assert (360 * (a / 360) - 360 < 360 * IZR (Int_part (a / 360))) by lra.
    replace (360 * (a / 360)) with a in * by (field; lra). lra.
Qed.

(** The remainder of a negative number is not positive. *)
Lemma rem_360_neg a :
  a < 0 ->
  exists r, nrem (Fin a) (Fin 360) = Fin r /\ -360 < r <= 0.
Proof.
  intros Ha. cbn.
  destruct (Req_dec_T 360 0); [lra|].
  eexists. split; [reflexivity|].
  unfold XReal.trunc. destruct (Rle_dec 0 (a / 360)) as [H0|H0].
  { exfalso. assert (a / 360 < 0); [|lra].
    unfold Rdiv. apply Rlt_le_trans with (0 * / 360); [|lra].
    apply Rmult_lt_compat_r; lra. }
  rewrite opp_IZR.
  destruct (base_Int_part (- (a / 360))) as [H1 H2].
  replace (a - 360 * - IZR (Int_part (- (a / 360))))
    with (360 * (IZR (Int_part (- (a / 360))) - - (a / 360))) by (field; lra).
  lra.
Qed.

Variables (az el zm cx cy ar : R).

Let p : Projection.t xreal :=
  {| Projection.azimuth := Fin az;
     Projection.elevation := Fin el;
     Projection.zoom := Fin zm;
     Projection.centerX := Fin cx;
     Projection.centerY := Fin cy;
     Projection.aspectRatio := Fin ar |}.

(** In exact arithmetic, for a camera of finite fields and finite deltas:
    - if [azimuth + dAz + 360] is not negative, the new azimuth is
      [azimuth + dAz] reduced modulo 360 into [0, 360);
    - if it is negative, the new azimuth is not positive;
    - a full turn of 360 leaves an azimuth in [0, 360) as it is;
    - the new elevation is [elevation + dEl] clamped to [-89, 89];
    - the new zoom is [max(1, zoom * f)], which is positive. *)
Theorem rotate_zoom_exact (dAz dEl f : R) :
  (0 <= az + dAz + 360 ->
   exists k : Z,
     Projection.azimuth (rotateProjection p (Fin dAz) (Fin dEl)) =
       Fin (az + dAz - 360 * IZR k) /\
     0 <= az + dAz - 360 * IZR k < 360) /\
  (az + dAz + 360 < 0 ->
   exists r,
     Projection.azimuth (rotateProjection p (Fin dAz) (Fin dEl)) = Fin r /\
     -360 < r <= 0) /\
  (0 <= az < 360 ->
   Projection.azimuth (rotateProjection p (of_Z 360) (of_Z 0)) = Fin az) /\
  (Projection.elevation (rotateProjection p (Fin dAz) (Fin dEl)) =
     Fin (Rmax (-89) (Rmin 89 (el + dEl))) /\
   -89 <= Rmax (-89) (Rmin 89 (el + dEl)) <= 89) /\
  (Projection.zoom (zoomProjection p (Fin f)) = Fin (Rmax 1 (zm * f)) /\
   0 < Rmax 1 (zm * f)).
Proof.
  unfold rotateProjection, zoomProjection.
  cbn [Projection.azimuth Projection.elevation Projection.zoom p].
  xreal_simpl.
  split; [|split; [|split; [|split]]].
  - intros Hnn. destruct (rem_360_nonneg _ Hnn) as (k & Hk & Hr).
    exists (k - 1)%Z. rewrite Hk, minus_IZR. split; [f_equal; lra|lra].
  - intros Hneg. destruct (rem_360_neg _ Hneg) as (r & Hr & Hb).
    exists r. auto.
  - intros Haz.
    destruct (rem_360_nonneg (az + 360 + 360) ltac:(lra)) as (k & Hk & Hr).
    rewrite Hk. f_equal.
    assert (Hk2 : k = 2%Z).
    { assert (1 < IZR k < 3) as [H1 H3] by (split; lra).
      apply lt_IZR in H1. apply lt_IZR in H3. lia. }
    subst k. lra.
  - split; [reflexivity|].
    split; [apply Rmax_l|].
    apply Rmax_lub; [lra|apply Rmin_l].
  - split; [reflexivity|].
    pose proof (Rmax_l 1 (zm * f)). lra.
Qed.

End RotateExact.

(** ** Interpolation *)

Section InterpolateProofs.

Context {num : Type} `{Number num}.

Lemma midpoint_between lo hi :
  (lo + 2 <= hi)%nat -> (Z.of_nat hi < 2 ^ 31)%Z ->
  (lo < midpoint lo hi < hi)%nat.
Proof.
  intros Hlt Hhi. unfold midpoint.
  rewrite Z.mod_small by lia.
  rewrite Z.shiftr_div_pow2 by lia. change (2 ^ 1)%Z with 2%Z.
  pose proof (Z.div_mod (Z.of_nat lo + Z.of_nat hi) 2 ltac:(lia)) as Hdm.
  pose proof (Z.mod_pos_bound (Z.of_nat lo + Z.of_nat hi) 2 ltac:(lia)) as Hmod.
  lia.
Qed.

(** The search stays inside the interval it starts from. *)
Lemma findIndex_loop_range rounds : forall (values : Vec num) target lo hi,
  (lo < hi)%nat -> (Z.of_nat hi < 2 ^ 31)%Z ->
  (lo <= findIndex_loop rounds values target lo hi < hi)%nat.
Proof.
  induction rounds as [|n IH]; intros values target lo hi Hlt Hhi;
    cbn [findIndex_loop]; [lia|].
  destruct (Nat.ltb_spec lo (hi - 1)) as [Hgap|Hgap]; [|lia].
  pose proof (midpoint_between lo hi ltac:(lia) Hhi) as Hmid.
  destruct (nleb (get values (midpoint lo hi)) target).
  - specialize (IH values target (midpoint lo hi) hi ltac:(lia) Hhi). lia.
  - specialize (IH values target lo (midpoint lo hi) ltac:(lia) ltac:(lia)). lia.
Qed.

(** The bound on the rounds is never what stops the search: any two bounds
    of at least [hi - lo] rounds give the same index, so the loop is the
    source's [while (lo < hi - 1)]. *)
Lemma findIndex_loop_enough r1 : forall r2 (values : Vec num) target lo hi,
  (Z.of_nat hi < 2 ^ 31)%Z ->
  (hi - lo <= r1)%nat -> (hi - lo <= r2)%nat ->
  findIndex_loop r1 values target lo hi = findIndex_loop r2 values target lo hi.
Proof.
  induction r1 as [|n IH]; intros r2 values target lo hi Hhi H1 H2.
  - destruct r2; cbn [findIndex_loop]; [reflexivity|].
    destruct (Nat.ltb_spec lo (hi - 1)); [lia|reflexivity].
  - destruct r2 as [|m]; cbn [findIndex_loop].
    + destruct (Nat.ltb_spec lo (hi - 1)); [lia|reflexivity].
    + destruct (Nat.ltb_spec lo (hi - 1)) as [Hgap|Hgap]; [|reflexivity].
      pose proof (midpoint_between lo hi ltac:(lia) Hhi) as Hmid.
      destruct (nleb (get values (midpoint lo hi)) target); apply IH; lia.
Qed.

Local Open Scope Z_scope.

(** On at least two values [findIndex] answers with the lower index of a
    cell, whatever the target. *)
Lemma findIndex_range (values : Vec num) target :
  (2 <= length values)%nat -> Z.of_nat (length values) < 2 ^ 31 ->
  0 <= findIndex values target <= Z.of_nat (length values) - 2.
Proof.
  intros Hn Hsmall. unfold findIndex.
  destruct (Nat.eqb_spec (length values) 0); [lia|].
  destruct (nleb target (get values 0)); [lia|].
  destruct (nleb (get values (length values - 1)) target); [lia|].
  pose proof (findIndex_loop_range (length values) values target 0
                (length values - 1) ltac:(lia) ltac:(lia)).
  lia.
Qed.

Lemma findIndex_below (values : Vec num) target :
  (1 <= length values)%nat ->
  nleb target (get values 0) = true ->
  findIndex values target = 0.
Proof.
  intros Hn Hle. unfold findIndex.
  destruct (Nat.eqb_spec (length values) 0); [lia|].
  now rewrite Hle.
Qed.

Lemma findIndex_above (values : Vec num) target :
  (1 <= length values)%nat ->
  nleb target (get values 0) = false ->
  nleb (get values (length values - 1)) target = true ->
  findIndex values target = Z.of_nat (length values) - 2.
Proof.
  intros Hn Hle Hge. unfold findIndex.
  destruct (Nat.eqb_spec (length values) 0); [lia|].
  now rewrite Hle, Hge.
Qed.

Lemma read_in_range (v : Vec num) i :
  0 <= i < Z.of_nat (length v) -> exists a, read v i = Some a.
Proof.
  intros Hi. unfold read.
  destruct (Z.ltb_spec i 0); [lia|].
  destruct (nth_error v (Z.to_nat i)) as [a|] eqn:E; [eauto|].
  apply nth_error_None in E. lia.
Qed.

(** C8.  For every surface that satisfies the length relations and has at
    least two (and fewer than 2^31) points on each axis, in any arithmetic,
    and for every query [(x, y)]:
    (1) [bilinearInterpolate] returns a number: every array read it makes
    is in range, so nothing is raised and no non-null assertion fails;
    (2) the cell it uses has its lower corner between [0] and [nx - 2],
    [ny - 2], and is the one [findIndex] gives;
    (3) below the domain ([x <= x[0]]) the binary search returns 0 and the
    cell is the first one; above it ([x >= x[nx-1]], the first test having
    failed) it returns [nx - 2] and the cell is the last one; likewise for
    [y]. *)
Theorem bilinearInterpolate_total (surface : Surface.t num) (x y : num) :
  Surface.well_formed surface ->
  (2 <= Surface.nx surface)%nat -> (2 <= Surface.ny surface)%nat ->
  Z.of_nat (Surface.nx surface) < 2 ^ 31 ->
  Z.of_nat (Surface.ny surface) < 2 ^ 31 ->
  let nx := Z.of_nat (Surface.nx surface) in
  let ny := Z.of_nat (Surface.ny surface) in
  (exists v, bilinearInterpolate surface x y = Some v) /\
  cell surface x y =
    (findIndex (Surface.x surface) x, findIndex (Surface.y surface) y) /\
  (0 <= fst (cell surface x y) <= nx - 2 /\
   0 <= snd (cell surface x y) <= ny - 2) /\
  (nleb x (get (Surface.x surface) 0) = true ->
   findIndex (Surface.x surface) x = 0) /\
  (nleb x (get (Surface.x surface) 0) = false ->
   nleb (get (Surface.x surface) (Surface.nx surface - 1)) x = true ->
   findIndex (Surface.x surface) x = nx - 2) /\
  (nleb y (get (Surface.y surface) 0) = true ->
   findIndex (Surface.y surface) y = 0) /\
  (nleb y (get (Surface.y surface) 0) = false ->
   nleb (get (Surface.y surface) (Surface.ny surface - 1)) y = true ->
   findIndex (Surface.y surface) y = ny - 2).
Proof.
  intros (Hx & Hy & Hz) Hnx Hny Hnx' Hny' nx ny.
  pose proof (findIndex_range (Surface.x surface) x ltac:(lia) ltac:(lia)) as Hxi.
  pose proof (findIndex_range (Surface.y surface) y ltac:(lia) ltac:(lia)) as Hyi.
  rewrite Hx in Hxi. rewrite Hy in Hyi. fold nx in Hxi. fold ny in Hyi.
  assert (Hcell : cell surface x y =
            (findIndex (Surface.x surface) x, findIndex (Surface.y surface) y)).
  { unfold cell. fold nx ny. f_equal; lia. }
  split; [|split; [exact Hcell|split; [rewrite Hcell; cbn [fst snd]; lia|]]].
  - unfold bilinearInterpolate. rewrite Hcell. fold ny.
    set (x0 := findIndex (Surface.x surface) x) in *.
    set (y0 := findIndex (Surface.y surface) y) in *.
    assert (Hzlen : Z.of_nat (length (Surface.z surface)) = nx * ny)
      by (rewrite Hz; unfold nx, ny; lia).
    assert (Hxlen : Z.of_nat (length (Surface.x surface)) = nx)
      by (rewrite Hx; reflexivity).
    assert (Hylen : Z.of_nat (length (Surface.y surface)) = ny)
      by (rewrite Hy; reflexivity).
    destruct (read_in_range (Surface.z surface) (x0 * ny + y0)) as [z00 ->]; [nia|].
    destruct (read_in_range (Surface.z surface) (x0 * ny + (y0 + 1))) as [z01 ->]; [nia|].
    destruct (read_in_range (Surface.z surface) ((x0 + 1) * ny + y0)) as [z10 ->]; [nia|].
    destruct (read_in_range (Surface.z surface) ((x0 + 1) * ny + (y0 + 1))) as [z11 ->]; [nia|].
    destruct (read_in_range (Surface.x surface) x0) as [sx0 ->]; [lia|].
    destruct (read_in_range (Surface.x surface) (x0 + 1)) as [sx1 ->]; [lia|].
    destruct (read_in_range (Surface.y surface) y0) as [sy0 ->]; [lia|].
    destruct (read_in_range (Surface.y surface) (y0 + 1)) as [sy1 ->]; [lia|].
    cbn [bind]. eauto.
  - repeat split.
    + intros Hle. apply findIndex_below; [lia|exact Hle].
    + intros Hle Hge. unfold nx. rewrite <- Hx.
      apply findIndex_above; [lia|exact Hle|now rewrite Hx].
    + intros Hle. apply findIndex_below; [lia|exact Hle].
    + intros Hle Hge. unfold ny. rewrite <- Hy.
      apply findIndex_above; [lia|exact Hle|now rewrite Hy].
Qed.

End InterpolateProofs.

(** A query left of and above the 2 by 2 grid of the inverted surface. *)
Lemma bilinearInterpolate_total_witness :
  (exists v, bilinearInterpolate Example.inverted (of_Z 0) (of_Z 200) = Some v) /\
  cell Example.inverted (of_Z 0) (of_Z 200) = (0, 0)%Z.
Proof.
  destruct (bilinearInterpolate_total Example.inverted (of_Z 0) (of_Z 200))
    as (Hv & Hcell & _ & Hx0 & _ & _ & Hy1).
  - vm_compute. repeat split.
  - vm_compute. lia.
  - vm_compute. lia.
  - vm_compute. reflexivity.
  - vm_compute. reflexivity.
  - split; [exact Hv|].
    rewrite Hcell, Hx0, Hy1 by (vm_compute; reflexivity). reflexivity.
Defined.

Section InterpolateExact.

Local Open Scope R_scope.

Lemma increasing_from_first (xs : list R) :
  (forall i, (i + 1 < length xs)%nat -> nth i xs 0 < nth (i + 1) xs 0) ->
  forall i, (0 < i < length xs)%nat -> nth 0 xs 0 < nth i xs 0.
Proof.
  intros Hinc i. induction i as [|i IH]; intros Hi; [lia|].
  destruct i as [|i].
  - apply (Hinc 0%nat). lia.
  - apply Rlt_trans with (nth (S i) xs 0); [apply IH; lia|].
    replace (S (S i)) with (S i + 1)%nat by lia. apply Hinc. lia.
Qed.

(** On a strictly increasing axis of finite values, in exact arithmetic:
    a target at or below the first value is put in the first cell, a
    target at or above the last value in the last cell. *)
Theorem findIndex_outside_exact (xs : list R) (q : R) :
  (2 <= length xs)%nat -> (Z.of_nat (length xs) < 2 ^ 31)%Z ->
  (forall i, (i + 1 < length xs)%nat -> nth i xs 0 < nth (i + 1) xs 0) ->
  (q <= nth 0 xs 0 -> findIndex (map Fin xs) (Fin q) = 0%Z) /\
  (nth (length xs - 1) xs 0 <= q ->
   findIndex (map Fin xs) (Fin q) = (Z.of_nat (length xs) - 2)%Z).
Proof.
  intros Hn Hsmall Hinc.
  pose proof (increasing_from_first xs Hinc (length xs - 1) ltac:(lia)) as Hends.
  assert (Hfirst : get (map Fin xs) 0 = Fin (nth 0 xs 0))
    by (apply get_map_Fin; lia).
  assert (Hlast : get (map Fin xs) (length (map Fin xs) - 1) =
                  Fin (nth (length xs - 1) xs 0))
    by (rewrite length_map; apply get_map_Fin; lia).
  split; intros Hq.
  - apply findIndex_below; [rewrite length_map; lia|].
    rewrite Hfirst. apply xreal_leb_Fin. exact Hq.
  - rewrite <- (length_map Fin xs).
    apply findIndex_above; [rewrite length_map; lia| |].
    + rewrite Hfirst. apply xreal_leb_Fin_false. lra.
    + rewrite Hlast. apply xreal_leb_Fin. exact Hq.
Qed.

End InterpolateExact.

Lemma findIndex_outside_exact_witness :
  (-1 <= nth 0 [0; 1; 4]%R 0 ->
   findIndex (map Fin [0; 1; 4]%R) (Fin (-1)) = 0%Z)%R /\
  (nth (length [0; 1; 4]%R - 1) [0; 1; 4]%R 0 <= 9 ->
   findIndex (map Fin [0; 1; 4]%R) (Fin 9) =
     (Z.of_nat (length [0; 1; 4]%R) - 2)%Z)%R.
Proof.
  split.
  - apply (findIndex_outside_exact [0; 1; 4]%R (-1)%R); [cbn; lia|cbn; lia|].
    intros [|[|[|i]]] Hi; cbn in *; try lia; lra.
  - apply (findIndex_outside_exact [0; 1; 4]%R 9%R); [cbn; lia|cbn; lia|].
    intros [|[|[|i]]] Hi; cbn in *; try lia; lra.
Defined.

(** ** Creating a surface *)

Section CreateSurface.

Context {num : Type} `{Number num}.

Lemma minmax_nil : minmax (@nil num) = (Infinity, nopp Infinity).
Proof. reflexivity. Qed.


End CreateSurface.

Section MinmaxExact.

Local Open Scope R_scope.

Lemma minmax_step_Fin lo hi v :
  (let '(lo, hi) := (Fin lo, Fin hi) in
   let lo := if nltb (Fin v) lo then Fin v else lo in
   let hi := if nltb hi (Fin v) then Fin v else hi in
   (lo, hi)) = (Fin (Rmin lo v), Fin (Rmax hi v)).
Proof.
  cbn. unfold Rmin, Rmax.
  destruct (Rlt_dec v lo), (Rle_dec lo v), (Rlt_dec hi v), (Rle_dec hi v);
    try lra; repeat f_equal; lra.
Qed.

Lemma minmax_fold_Fin l : forall lo hi,
  fold_left
    (fun '(lo, hi) val =>
       let lo := if nltb val lo then val else lo in
       let hi := if nltb hi val then val else hi in
       (lo, hi))
    (map Fin l) (Fin lo, Fin hi) =
  (Fin (fold_left Rmin l lo), Fin (fold_left Rmax l hi)).
Proof.
  induction l as [|v l IH]; intros lo hi; [reflexivity|].
  cbn [map fold_left]. rewrite <- IH. f_equal. apply minmax_step_Fin.
Qed.

Lemma fold_Rmin_spec l : forall a,
  (fold_left Rmin l a = a \/ In (fold_left Rmin l a) l) /\
  fold_left Rmin l a <= a /\
  forall v, In v l -> fold_left Rmin l a <= v.
Proof.
  induction l as [|b l IH]; intros a; cbn [fold_left In].
  - split; [auto|split; [lra|tauto]].
  - destruct (IH (Rmin a b)) as (Hin & Hle & Hall).
    pose proof (Rmin_l a b). pose proof (Rmin_r a b).
    split; [|split].
    + destruct Hin as [Heq|Hin]; [|auto].
      rewrite Heq. unfold Rmin. destruct (Rle_dec a b); auto.
    + lra.
    + intros v [<-|Hv]; [lra|auto].
Qed.

Lemma fold_Rmax_spec l : forall a,
  (fold_left Rmax l a = a \/ In (fold_left Rmax l a) l) /\
  a <= fold_left Rmax l a /\
  forall v, In v l -> v <= fold_left Rmax l a.
Proof.
  induction l as [|b l IH]; intros a; cbn [fold_left In].
  - split; [auto|split; [lra|tauto]].
  - destruct (IH (Rmax a b)) as (Hin & Hle & Hall).
    pose proof (Rmax_l a b). pose proof (Rmax_r a b).
    split; [|split].
    + destruct Hin as [Heq|Hin]; [|auto].
      rewrite Heq. unfold Rmax. destruct (Rle_dec a b); auto.
    + lra.
    + intros v [<-|Hv]; [lra|auto].
Qed.

(** In exact arithmetic [minmax] of a non-empty vector of finite values is
    its least and its greatest element. *)
Theorem minmax_exact (l : list R) :
  l <> [] ->
  exists lo hi,
    minmax (map Fin l) = (Fin lo, Fin hi) /\
    In lo l /\ In hi l /\
    forall v, In v l -> lo <= v <= hi.
Proof.
  destruct l as [|a l]; [congruence|]. intros _.
  exists (fold_left Rmin l a), (fold_left Rmax l a).
  destruct (fold_Rmin_spec l a) as (Hin1 & Hle1 & Hall1).
  destruct (fold_Rmax_spec l a) as (Hin2 & Hle2 & Hall2).
  split; [|split; [|split]].
  - unfold minmax. cbn [map fold_left].
    rewrite <- minmax_fold_Fin. f_equal.
  - cbn [In]. destruct Hin1 as [->|]; auto.
  - cbn [In]. destruct Hin2 as [->|]; auto.
  - intros v [<-|Hv]; split; auto.
Qed.

End MinmaxExact.

Lemma minmax_exact_witness :
  exists lo hi,
    minmax (map Fin [3; 1; 2]%R) = (Fin lo, Fin hi) /\
    In lo [3; 1; 2]%R /\ In hi [3; 1; 2]%R /\
    forall v, In v [3; 1; 2]%R -> (lo <= v <= hi)%R.
Proof. apply (minmax_exact [3; 1; 2]%R). discriminate. Defined.

(** ** The domains of a new surface *)

Section MinmaxOrder.










End MinmaxOrder.


(** ** Surface wire format *)

Section SerializeBytes.

Local Open Scope nat_scope.

(** Overwriting the middle of a buffer. *)
Lemma set_at (pre old src post : Uint8Array.t) :
  length old = length src ->
  Uint8Array.set (pre ++ old ++ post) src (length pre) = pre ++ src ++ post.
Proof.
  intros Hlen. unfold Uint8Array.set.
  rewrite firstn_app, firstn_all, Nat.sub_diag, firstn_O, app_nil_r.
  rewrite <- Hlen.
  rewrite skipn_app, skipn_all2 by lia.
  replace (length pre + length old - length pre) with (length old) by lia.
  rewrite skipn_app, skipn_all, Nat.sub_diag. reflexivity.
Qed.

Lemma set_at' (pre old src post : Uint8Array.t) offset :
  offset = length pre -> length old = length src ->
  Uint8Array.set (pre ++ old ++ post) src offset = pre ++ src ++ post.
Proof. intros ->. apply set_at. Qed.

Lemma set_at_0 (old src post : Uint8Array.t) :
  length old = length src ->
  Uint8Array.set (old ++ post) src 0 = src ++ post.
Proof. intros Hlen. apply (set_at [] old src post Hlen). Qed.

Lemma make_app n m :
  Uint8Array.make (n + m) = Uint8Array.make n ++ Uint8Array.make m.
Proof. apply repeat_app. Qed.

Lemma length_f32_bytes v : length (f32_bytes v) = 4.
Proof. reflexivity. Qed.

Lemma length_concat_f32 vs : length (concat (map f32_bytes vs)) = 4 * length vs.
Proof.
  induction vs as [|v vs IH]; [reflexivity|].
  cbn [map concat length]. rewrite length_app, IH, length_f32_bytes. lia.
Qed.

(** One copy loop fills the next [n] elements of the view. *)
Lemma copy_loop_from byteOffset (v : Vec PrimFloat.float) n :
  forall a pre mid post k,
    length pre = byteOffset + 4 * k ->
    length mid = 4 * n ->
    fold_left
      (fun '(bytes, f32Offset) i =>
         (Float32Array.store bytes byteOffset f32Offset (get v i), S f32Offset))
      (seq a n) (pre ++ mid ++ post, k) =
    (pre ++ concat (map (fun i => f32_bytes (get v i)) (seq a n)) ++ post, k + n).
Proof.
  induction n as [|n IH]; intros a pre mid post k Hpre Hmid.
  - destruct mid; [|discriminate]. cbn. now rewrite Nat.add_0_r.
  - cbn [seq fold_left map concat].
    assert (Hsplit : mid = firstn 4 mid ++ skipn 4 mid)
      by (symmetry; apply firstn_skipn).
    rewrite Hsplit at 1. rewrite <- app_assoc.
    unfold Float32Array.store at 2.
    rewrite (set_at' pre (firstn 4 mid) _ (skipn 4 mid ++ post))
      by (rewrite ?length_firstn, ?length_le_split; lia).
    fold (f32_bytes (get v a)).
    rewrite (app_assoc pre).
    rewrite IH.
    + rewrite <- !app_assoc. f_equal. lia.
    + rewrite length_app, length_f32_bytes. lia.
    + rewrite length_skipn. lia.
Qed.

Lemma map_get_seq (v : Vec PrimFloat.float) :
  map (fun i => get v i) (seq 0 (length v)) = v.
Proof.
  unfold get. induction v as [|a v IH]; [reflexivity|].
  cbn [length seq map nth]. f_equal.
  rewrite <- seq_shift, map_map. exact IH.
Qed.

Lemma copy_loop_all byteOffset (v : Vec PrimFloat.float) pre mid post k :
  length pre = byteOffset + 4 * k ->
  length mid = 4 * length v ->
  copy_loop byteOffset v (length v) (pre ++ mid ++ post, k) =
  (pre ++ concat (map f32_bytes v) ++ post, k + length v).
Proof.
  intros Hpre Hmid. unfold copy_loop.
  rewrite (copy_loop_from byteOffset v (length v) 0 pre mid post k Hpre Hmid).
  rewrite <- (map_map (fun i => get v i) f32_bytes), map_get_seq. reflexivity.
Qed.

End SerializeBytes.

Lemma padding_aligned h : ((h + padding_after h) mod 4 = 0)%nat.
Proof.
  unfold padding_after.
  pose proof (Nat.div_mod_eq h 4) as Hh.
  pose proof (Nat.mod_upper_bound h 4 ltac:(lia)) as Hr.
  set (r := (h mod 4)%nat) in *.
  assert (Hp : ((4 - r) mod 4 = if (r =? 0)%nat then 0 else 4 - r)%nat).
  { destruct (Nat.eqb_spec r 0) as [->|Hne]; [reflexivity|].
    apply Nat.mod_small. lia. }
  rewrite Hp.
  destruct (Nat.eqb_spec r 0) as [Hr0|Hr0].
  - rewrite Nat.add_0_r. exact Hr0.
  - replace (h + (4 - r))%nat with ((h / 4 + 1) * 4)%nat by lia.
    apply Nat.Div0.mod_mul.
Qed.

Lemma padding_small h : (padding_after h < 4)%nat.
Proof. unfold padding_after. apply Nat.mod_upper_bound. lia. Qed.

Section SerializeLayout.

Variable stringify : Surface.Meta PrimFloat.float -> Uint8Array.t.

Local Open Scope nat_scope.

Lemma length_surface_layout s :
  length (surface_layout stringify s) =
  data_offset stringify s
  + 4 * (length (Surface.x s) + length (Surface.y s) + length (Surface.z s)).
Proof.
  unfold surface_layout, data_offset.
  rewrite !length_app, !length_le_split, length_make, length_concat_f32.
  rewrite !length_app. lia.
Qed.

(** [serializeSurface] does not throw on a well-formed surface, and its
    payload has the documented layout. *)
Lemma serializeSurface_payload_layout s :
  Surface.well_formed s ->
  serializeSurface_payload stringify s = Some (surface_layout stringify s).
Proof.
  intros (Hx & Hy & Hz).
  unfold serializeSurface_payload, surface_layout.
  set (metaBytes := stringify (Surface.meta s)).
  set (L := length metaBytes).
  fold (padding_after (4 + 4 + 4 + L)).
  set (pad := padding_after (4 + 4 + 4 + L)).
  rewrite <- Hx, <- Hy in Hz |- *.
  set (nx := length (Surface.x s)) in *.
  set (ny := length (Surface.y s)) in *.
  replace (4 + 4 + 4 + L + pad + (nx + ny + nx * ny) * 4)
    with (4 + (4 + (4 + (L + (pad + (4 * nx + (4 * ny + 4 * (nx * ny))))))))
    by lia.
  rewrite !make_app.
  unfold DataView.setUint32.
  set (Z4 := Uint8Array.make 4).
  (* the three header words *)
  rewrite (set_at_0 Z4 (le_split 4 (Z.of_nat nx))) by reflexivity.
  rewrite (set_at' (le_split 4 (Z.of_nat nx)) Z4 (le_split 4 (Z.of_nat ny)) _
             (0 + 4)) by reflexivity.
  rewrite (app_assoc (le_split 4 (Z.of_nat nx))).
  rewrite (set_at' (le_split 4 (Z.of_nat nx) ++ le_split 4 (Z.of_nat ny)) Z4
             (le_split 4 (Z.of_nat L)) _ (0 + 4 + 4)) by reflexivity.
  rewrite (app_assoc (le_split 4 (Z.of_nat nx) ++ le_split 4 (Z.of_nat ny))).
  (* the metadata *)
  rewrite (set_at' ((le_split 4 (Z.of_nat nx) ++ le_split 4 (Z.of_nat ny))
                    ++ le_split 4 (Z.of_nat L))
             (Uint8Array.make L) metaBytes _ (0 + 4 + 4 + 4))
    by (rewrite ?length_make; reflexivity).
  set (head := (le_split 4 (Z.of_nat nx) ++ le_split 4 (Z.of_nat ny))
               ++ le_split 4 (Z.of_nat L)).
  assert (Hhead : length head = 12) by reflexivity.
  (* the view *)
  assert (Hvalid :
    Float32Array.valid
      (head ++ metaBytes ++ Uint8Array.make pad ++ Uint8Array.make (4 * nx)
       ++ Uint8Array.make (4 * ny) ++ Uint8Array.make (4 * (nx * ny)))
      (0 + 4 + 4 + 4 + L + pad) (nx + ny + nx * ny) = true).
  { unfold Float32Array.valid. apply andb_true_intro. split.
    - apply Nat.eqb_eq. apply (padding_aligned (4 + 4 + 4 + L)).
    - apply Nat.leb_le. rewrite !length_app, !length_make, Hhead.
      fold L. lia. }
  rewrite Hvalid.
  (* the three copy loops *)
  rewrite (app_assoc head), (app_assoc (head ++ metaBytes)).
  set (pre := (head ++ metaBytes) ++ Uint8Array.make pad).
  assert (Hpre : length pre = 0 + 4 + 4 + 4 + L + pad + 4 * 0).
  { unfold pre. rewrite !length_app, length_make, Hhead. fold L. lia. }
  rewrite (copy_loop_all _ (Surface.x s) pre _ _ 0 Hpre)
    by (rewrite length_make; reflexivity).
  rewrite (app_assoc pre).
  rewrite (copy_loop_all _ (Surface.y s) (pre ++ concat (map f32_bytes (Surface.x s))))
    by (rewrite ?length_app, ?length_make, ?length_concat_f32; fold nx ny; lia).
  rewrite (app_assoc (pre ++ concat (map f32_bytes (Surface.x s)))).
  rewrite <- (app_nil_r (Uint8Array.make (4 * (nx * ny)))).
  rewrite <- Hz.
  rewrite (copy_loop_all _ (Surface.z s))
    by (rewrite ?length_app, ?length_make, ?length_concat_f32; fold nx ny; lia).
  cbn [fst]. f_equal.
  unfold pre, head. rewrite !map_app, !concat_app, <- !app_assoc, app_nil_r.
  reflexivity.
Qed.

End SerializeLayout.

Section Float32Bits.

Local Open Scope Z_scope.

(** Reading an element looks at 32 bits only. *)
Lemma of_bits_mod b : Float32.of_bits (b mod 2 ^ 32) = Float32.of_bits b.
Proof.
  unfold Float32.of_bits, Float32.SF_of_bits.
  assert (H1 : Z.testbit (b mod 2 ^ 32) 31 = Z.testbit b 31)
    by (apply Z.mod_pow2_bits_low; lia).
  assert (H2 : Z.land (Z.shiftr (b mod 2 ^ 32) 23) 0xff =
               Z.land (Z.shiftr b 23) 0xff).
  { change 0xff with (Z.ones 8). rewrite <- (Z.land_ones b 32) by lia.
    Z.bitblast. }
  assert (H3 : Z.land (b mod 2 ^ 32) 0x7fffff = Z.land b 0x7fffff).
  { change 0x7fffff with (Z.ones 23). rewrite <- (Z.land_ones b 32) by lia.
    Z.bitblast. }
  now rewrite H1, H2, H3.
Qed.

Lemma of_bits_f32_bytes v :
  Float32.of_bits (le_combine (f32_bytes v)) = Float32.fround v.
Proof.
  unfold f32_bytes, Float32.fround.
  rewrite le_combine_split. apply of_bits_mod.
Qed.

End Float32Bits.

Section DeserializeLayout.

Local Open Scope nat_scope.

Lemma slice_at (pre mid post : Uint8Array.t) start stop :
  start = length pre -> stop = start + length mid ->
  Uint8Array.slice (pre ++ mid ++ post) start stop = mid.
Proof. intros -> ->. apply slice_app_exact. Qed.

(** Element [j] of a view over the encoded values [vs]. *)
Lemma load_concat_f32 (pre : Uint8Array.t) (vs : Vec PrimFloat.float) j :
  j < length vs ->
  Float32Array.load (pre ++ concat (map f32_bytes vs)) (length pre) j =
  Float32.fround (nth j vs NaN).
Proof.
  intros Hj. unfold Float32Array.load.
  rewrite <- of_bits_f32_bytes. do 2 f_equal.
  rewrite <- (firstn_skipn j vs) at 1.
  assert (Hsk : skipn j vs = nth j vs NaN :: skipn (S j) vs).
  { clear pre. revert j Hj. induction vs as [|a vs IH]; intros j Hj;
      [cbn in Hj; lia|].
    destruct j; [reflexivity|]. cbn [skipn nth]. apply IH. cbn in Hj. lia. }
  rewrite Hsk, map_app, concat_app. cbn [map concat].
  rewrite app_assoc.
  apply slice_at.
  - rewrite length_app, length_concat_f32, length_firstn. lia.
  - rewrite length_f32_bytes. lia.
Qed.

(** A run of elements of the view, where the encoded values are the
    concatenation of three vectors. *)
Lemma loads_middle (pre : Uint8Array.t) (A B C : Vec PrimFloat.float) :
  Float32Array.loads (pre ++ concat (map f32_bytes (A ++ B ++ C)))
    (length pre) (length A) (length B) =
  map Float32.fround B.
Proof.
  unfold Float32Array.loads.
  rewrite <- (map_get_seq B) at 2. rewrite map_map.
  apply map_ext_in. intros k Hk. apply in_seq in Hk.
  rewrite load_concat_f32 by (rewrite !length_app; lia).
  f_equal. unfold get.
  rewrite app_nth2_plus. apply app_nth1. lia.
Qed.

End DeserializeLayout.

Section DeserializeSurface.

Variable stringify : Surface.Meta PrimFloat.float -> Uint8Array.t.
Variable parse : Uint8Array.t -> option (Surface.Meta PrimFloat.float).

Local Open Scope nat_scope.

Lemma getUint32_at (pre post : Uint8Array.t) (v : Z) offset :
  offset = length pre ->
  getUint32_checked (pre ++ le_split 4 v ++ post) offset = Some (v mod 2 ^ 32)%Z.
Proof.
  intros ->. unfold getUint32_checked, DataView.getUint32.
  rewrite !length_app, length_le_split.
  destruct (Nat.leb_spec (length pre + 4) (length pre + (4 + length post))); [|lia].
  rewrite (slice_at pre (le_split 4 v) post) by reflexivity.
  now rewrite le_combine_split.
Qed.

Lemma getUint32_at_0 (post : Uint8Array.t) (v : Z) :
  getUint32_checked (le_split 4 v ++ post) 0 = Some (v mod 2 ^ 32)%Z.
Proof. apply (getUint32_at [] post v 0). reflexivity. Qed.

Lemma to_nat_u32 n :
  (Z.of_nat n < 2 ^ 32)%Z -> Z.to_nat (Z.of_nat n mod 2 ^ 32) = n.
Proof. intros Hn. rewrite Z.mod_small by lia. apply Nat2Z.id. Qed.

Lemma deserializeSurface_layout s meta' :
  Surface.well_formed s ->
  (Z.of_nat (length (surface_layout stringify s)) < 2 ^ 32)%Z ->
  parse (stringify (Surface.meta s)) = Some meta' ->
  deserializeSurface parse (surface_layout stringify s) = Some (received s meta').
Proof.
  intros (Hx & Hy & Hz) Hsize Hparse.
  pose proof (length_surface_layout stringify s) as Hlen.
  unfold data_offset in Hlen.
  unfold deserializeSurface, surface_layout in *.
  set (metaBytes := stringify (Surface.meta s)) in *.
  set (L := length metaBytes) in *.
  set (D := concat (map f32_bytes (Surface.x s ++ Surface.y s ++ Surface.z s))) in *.
  set (pad := padding_after (12 + L)) in *.
  set (w1 := le_split 4 (Z.of_nat (Surface.nx s))) in *.
  set (w2 := le_split 4 (Z.of_nat (Surface.ny s))) in *.
  set (w3 := le_split 4 (Z.of_nat L)) in *.
  (* nx *)
  unfold w1 at 1. rewrite getUint32_at_0. fold w1.
  rewrite to_nat_u32 by lia.
  (* ny *)
  unfold w2 at 1. rewrite (getUint32_at w1 _ _ (0 + 4)) by reflexivity. fold w2.
  rewrite to_nat_u32 by lia.
  (* metaLen *)
  rewrite (app_assoc w1 w2).
  unfold w3 at 1. rewrite (getUint32_at (w1 ++ w2) _ _ (0 + 4 + 4)) by reflexivity.
  fold w3.
  rewrite to_nat_u32 by lia.
  (* metadata *)
  rewrite (app_assoc (w1 ++ w2) w3).
  rewrite (slice_at ((w1 ++ w2) ++ w3) metaBytes _ (0 + 4 + 4 + 4) (0 + 4 + 4 + 4 + L))
    by reflexivity.
  rewrite Hparse.
  (* the view *)
  fold (padding_after (4 + 4 + 4 + L)). change (padding_after (4 + 4 + 4 + L)) with pad.
  rewrite (app_assoc ((w1 ++ w2) ++ w3)), (app_assoc (((w1 ++ w2) ++ w3) ++ metaBytes)).
  set (pre := (((w1 ++ w2) ++ w3) ++ metaBytes) ++ Uint8Array.make pad).
  assert (Hpre : length pre = 0 + 4 + 4 + 4 + L + pad).
  { unfold pre. rewrite !length_app, length_make. reflexivity. }
  assert (HD : length D = 4 * (Surface.nx s + Surface.ny s + Surface.nx s * Surface.ny s)).
  { unfold D. rewrite length_concat_f32, !length_app. lia. }
  assert (Hvalid : Float32Array.valid (pre ++ D) (0 + 4 + 4 + 4 + L + pad)
                     (Surface.nx s + Surface.ny s + Surface.nx s * Surface.ny s) = true).
  { unfold Float32Array.valid. apply andb_true_intro. split.
    - apply Nat.eqb_eq. apply (padding_aligned (12 + L)).
    - apply Nat.leb_le. rewrite length_app, Hpre, HD. lia. }
  rewrite Hvalid. rewrite <- Hpre.
  unfold received. f_equal. f_equal.
  - rewrite <- Hx. unfold D.
    apply (loads_middle pre [] (Surface.x s) (Surface.y s ++ Surface.z s)).
  - rewrite <- Hx, <- Hy. unfold D.
    apply (loads_middle pre (Surface.x s) (Surface.y s) (Surface.z s)).
  - rewrite <- Hz. rewrite <- Hx, <- Hy, <- length_app. unfold D.
    rewrite <- (app_nil_r (Surface.z s)) at 1. rewrite app_assoc.
    apply (loads_middle pre (Surface.x s ++ Surface.y s) (Surface.z s) []).
Qed.

End DeserializeSurface.

Section Deviation.

Import QArith_base Qabs.

Local Open Scope Q_scope.

Lemma deviation_same (a : Vec PrimFloat.float) : deviation a a == 0.
Proof.
  unfold deviation. induction a as [|v a IH]; [reflexivity|].
  cbn [combine map fold_right]. rewrite IH.
  setoid_replace (exact_value v - exact_value v) with 0 by ring.
  reflexivity.
Qed.

Lemma map_fround_representable (a : Vec PrimFloat.float) :
  Forall Float32.representable a -> map Float32.fround a = a.
Proof.
  induction 1 as [|v a [_ Hv] _ IH]; [reflexivity|].
  cbn [map]. now rewrite Hv, IH.
Qed.

End Deviation.

Section Roundtrip.

Variable stringify : Surface.Meta PrimFloat.float -> Uint8Array.t.
Variable parse : Uint8Array.t -> option (Surface.Meta PrimFloat.float).

Hypothesis json : labels_survive stringify parse.

(** Without any assumption on the values: the frame decodes to the payload
    with the documented layout, and deserialising it gives back [nx], [ny],
    the labels, and every value rounded to binary32. *)
Lemma serializeSurface_roundtrip_fround (s : Surface.t PrimFloat.float) :
  Surface.well_formed s ->
  (Z.of_nat (length (surface_layout stringify s)) < 2 ^ 32)%Z ->
  exists frame s',
    serializeSurface stringify s = Some frame /\
    decodeFrame frame =
      Some {| header := {| h_length := Z.of_nat (length (surface_layout stringify s));
                           h_type := 0x10; h_flags := 0; h_seq := 0 |};
              payload := surface_layout stringify s |} /\
    deserializeSurface parse (surface_layout stringify s) = Some s' /\
    Surface.nx s' = Surface.nx s /\ Surface.ny s' = Surface.ny s /\
    Surface.xLabel (Surface.meta s') = Surface.xLabel (Surface.meta s) /\
    Surface.yLabel (Surface.meta s') = Surface.yLabel (Surface.meta s) /\
    Surface.zLabel (Surface.meta s') = Surface.zLabel (Surface.meta s) /\
    Surface.x s' = map Float32.fround (Surface.x s) /\
    Surface.y s' = map Float32.fround (Surface.y s) /\
    Surface.z s' = map Float32.fround (Surface.z s).
Proof.
  intros Hwf Hsize.
  destruct (json (Surface.meta s)) as (meta' & Hparse & HxL & HyL & HzL).
  exists (encodeFrame SURFACE_FULL (surface_layout stringify s) 0 0),
         (received s meta').
  split.
  { unfold serializeSurface.
    now rewrite (serializeSurface_payload_layout stringify s Hwf). }
  split.
  { apply (decodeFrame_frame_of SURFACE_FULL); lia. }
  split.
  { now apply deserializeSurface_layout. }
  cbn [received Surface.nx Surface.ny Surface.x Surface.y Surface.z
       Surface.meta Surface.xLabel Surface.yLabel Surface.zLabel].
  repeat split; auto.
Qed.

(** C3, as the code has it.  For every surface that satisfies the length
    relations, has [nx >= 1] and [ny >= 1], and whose payload is shorter
    than 2^32 bytes, whatever its values: [serializeSurface] returns a
    frame; [decodeFrame] gives its payload; [deserializeSurface] of that
    payload returns a surface with the same [nx], [ny] and labels whose
    [x], [y] and [z] values are the original ones rounded to binary32,
    element by element; if all values are finite and binary32 holds them
    exactly, they come back as they were, so that the summed absolute
    deviation is below [10^-6 * nx * ny]; and the payload is the two
    dimensions, the metadata length and the metadata, padded with zero
    bytes to a multiple of four, followed by the [x], [y] and [z] values
    as binary32. *)
Theorem serializeSurface_roundtrip (s : Surface.t PrimFloat.float) :
  Surface.well_formed s ->
  (1 <= Surface.nx s)%nat -> (1 <= Surface.ny s)%nat ->
  (Z.of_nat (length (surface_layout stringify s)) < 2 ^ 32)%Z ->
  exists frame payload s',
    serializeSurface stringify s = Some frame /\
    decodeFrame frame =
      Some {| header := {| h_length := Z.of_nat (length payload);
                           h_type := MessageType_value SURFACE_FULL;
                           h_flags := 0; h_seq := 0 |};
              payload := payload |} /\
    deserializeSurface parse payload = Some s' /\
    Surface.nx s' = Surface.nx s /\ Surface.ny s' = Surface.ny s /\
    Surface.xLabel (Surface.meta s') = Surface.xLabel (Surface.meta s) /\
    Surface.yLabel (Surface.meta s') = Surface.yLabel (Surface.meta s) /\
    Surface.zLabel (Surface.meta s') = Surface.zLabel (Surface.meta s) /\
    Surface.x s' = map Float32.fround (Surface.x s) /\
    Surface.y s' = map Float32.fround (Surface.y s) /\
    Surface.z s' = map Float32.fround (Surface.z s) /\
    (Forall Float32.representable (Surface.x s ++ Surface.y s ++ Surface.z s) ->
     Surface.x s' = Surface.x s /\ Surface.y s' = Surface.y s /\
     Surface.z s' = Surface.z s /\
     QArith_base.Qlt
       (QArith_base.Qplus
          (QArith_base.Qplus (deviation (Surface.x s') (Surface.x s))
                             (deviation (Surface.y s') (Surface.y s)))
          (deviation (Surface.z s') (Surface.z s)))
       (QArith_base.Qmult
          (QArith_base.Qmult (QArith_base.Qmake 1 1000000)
                             (QArith_base.inject_Z (Z.of_nat (Surface.nx s))))
          (QArith_base.inject_Z (Z.of_nat (Surface.ny s))))) /\
    payload = surface_layout stringify s /\
    (data_offset stringify s mod 4 = 0)%nat /\
    (data_offset stringify s
     - (12 + length (stringify (Surface.meta s))) < 4)%nat.
Proof.
  intros Hwf Hnx Hny Hsize.
  destruct (serializeSurface_roundtrip_fround s Hwf Hsize)
    as (frame & s' & Hser & Hdec & Hdes & Hnx' & Hny' & HxL & HyL & HzL
        & Hx' & Hy' & Hz').
  exists frame, (surface_layout stringify s), s'.
  repeat (split; [assumption|]).
  split; [|split; [reflexivity|split]].
  - intros Hrep.
    apply Forall_app in Hrep. destruct Hrep as [Hrx Hrep].
    apply Forall_app in Hrep. destruct Hrep as [Hry Hrz].
    rewrite map_fround_representable in Hx', Hy', Hz' by assumption.
    repeat (split; [assumption|]).
    rewrite Hx', Hy', Hz', !deviation_same.
    unfold QArith_base.Qlt, QArith_base.Qmult, QArith_base.Qplus,
      QArith_base.inject_Z.
    cbn [QArith_base.Qnum QArith_base.Qden].
    nia.
  - apply (padding_aligned (12 + length (stringify (Surface.meta s)))).
  - unfold data_offset.
    pose proof (padding_small (12 + length (stringify (Surface.meta s)))). lia.
Qed.

End Roundtrip.

Lemma read_write_label l : forall fuel rest,
  (length (Example.write_label l ++ rest) <= fuel)%nat ->
  Example.read_label fuel (Example.write_label l ++ rest) = Some (l, rest).
Proof.
  induction l as [|b l IH]; intros fuel rest Hfuel.
  - destruct fuel; [cbn in Hfuel; lia|]. reflexivity.
  - destruct fuel; [cbn in Hfuel; lia|].
    cbn [Example.write_label app Example.read_label].
    rewrite IH; [reflexivity|]. cbn [Example.write_label app length] in Hfuel. lia.
Qed.

Lemma Example_labels_survive : labels_survive Example.stringify Example.parse.
Proof.
  intros m. unfold Example.parse, Example.stringify.
  rewrite read_write_label by lia.
  rewrite read_write_label by lia.
  rewrite <- (app_nil_r (Example.write_label _)).
  rewrite read_write_label by lia.
  eexists. split; [reflexivity|].
  cbn [Surface.xLabel Surface.yLabel Surface.zLabel].
  now rewrite !String.string_of_list_byte_of_string.
Qed.

(** The one-cell surface with 0.1, 100.1 and 0.3, which binary32
    rounds. *)
Lemma serializeSurface_roundtrip_witness :
  let s := Example.decimal in
  exists frame payload s',
    serializeSurface Example.stringify s = Some frame /\
    decodeFrame frame =
      Some {| header := {| h_length := Z.of_nat (length payload);
                           h_type := MessageType_value SURFACE_FULL;
                           h_flags := 0; h_seq := 0 |};
              payload := payload |} /\
    deserializeSurface Example.parse payload = Some s' /\
    Surface.nx s' = Surface.nx s /\ Surface.ny s' = Surface.ny s /\
    Surface.xLabel (Surface.meta s') = Surface.xLabel (Surface.meta s) /\
    Surface.yLabel (Surface.meta s') = Surface.yLabel (Surface.meta s) /\
    Surface.zLabel (Surface.meta s') = Surface.zLabel (Surface.meta s) /\
    Surface.x s' = map Float32.fround (Surface.x s) /\
    Surface.y s' = map Float32.fround (Surface.y s) /\
    Surface.z s' = map Float32.fround (Surface.z s) /\
    (Forall Float32.representable (Surface.x s ++ Surface.y s ++ Surface.z s) ->
     Surface.x s' = Surface.x s /\ Surface.y s' = Surface.y s /\
     Surface.z s' = Surface.z s /\
     QArith_base.Qlt
       (QArith_base.Qplus
          (QArith_base.Qplus (deviation (Surface.x s') (Surface.x s))
                             (deviation (Surface.y s') (Surface.y s)))
          (deviation (Surface.z s') (Surface.z s)))
       (QArith_base.Qmult
          (QArith_base.Qmult (QArith_base.Qmake 1 1000000)
                             (QArith_base.inject_Z (Z.of_nat (Surface.nx s))))
          (QArith_base.inject_Z (Z.of_nat (Surface.ny s))))) /\
    payload = surface_layout Example.stringify s /\
    (data_offset Example.stringify s mod 4 = 0)%nat /\
    (data_offset Example.stringify s
     - (12 + length (Example.stringify (Surface.meta s))) < 4)%nat.
Proof.
  apply (serializeSurface_roundtrip Example.stringify Example.parse
           Example_labels_survive Example.decimal).
  - vm_compute. repeat split.
  - vm_compute. lia.
  - vm_compute. lia.
  - vm_compute. reflexivity.
Defined.

(** The same round trip for values that binary32 holds exactly. *)
Lemma serializeSurface_roundtrip_dyadic :
  exists frame bytes s',
    serializeSurface Example.stringify Example.dyadic = Some frame /\
    option_map payload (decodeFrame frame) = Some bytes /\
    deserializeSurface Example.parse bytes = Some s' /\
    Surface.x s' = Surface.x Example.dyadic /\
    Surface.y s' = Surface.y Example.dyadic /\
    Surface.z s' = Surface.z Example.dyadic.
Proof.
  do 3 eexists.
  split; [vm_compute; reflexivity|].
  split; [vm_compute; reflexivity|].
  split; [vm_compute; reflexivity|].
  repeat split; vm_compute; reflexivity.
Qed.

(** Where C3 as worded fails.  The values 0.1, 100.1 and 0.3 are finite
    and within the range of binary32, and so are their roundings; the
    surface has one cell; the values that come back deviate from them by
    more than [10^-6 * nx * ny] in sum. *)
Lemma serializeSurface_roundtrip_counterexample :
  exists frame bytes s',
    serializeSurface Example.stringify Example.decimal = Some frame /\
    option_map payload (decodeFrame frame) = Some bytes /\
    deserializeSurface Example.parse bytes = Some s' /\
    Surface.nx Example.decimal = 1%nat /\ Surface.ny Example.decimal = 1%nat /\
    forallb (fun v => Float32.is_finite v && Float32.is_finite (Float32.fround v))
      (Surface.x Example.decimal ++ Surface.y Example.decimal
       ++ Surface.z Example.decimal) = true /\
    Surface.nx s' = 1%nat /\ Surface.ny s' = 1%nat /\
    QArith_base.Qlt
      (QArith_base.Qmult
         (QArith_base.Qmult (QArith_base.Qmake 1 1000000)
            (QArith_base.inject_Z (Z.of_nat (Surface.nx Example.decimal))))
         (QArith_base.inject_Z (Z.of_nat (Surface.ny Example.decimal))))
      (QArith_base.Qplus
         (QArith_base.Qplus
            (deviation (Surface.x s') (Surface.x Example.decimal))
            (deviation (Surface.y s') (Surface.y Example.decimal)))
         (deviation (Surface.z s') (Surface.z Example.decimal))).
Proof.
  do 3 eexists.
  split; [vm_compute; reflexivity|].
  split; [vm_compute; reflexivity|].
  split; [vm_compute; reflexivity|].
  repeat split; vm_compute; reflexivity.
Qed.

(** A value that is only in the range of binary32 comes back rounded: for
    100.1 the deviation is above [10^-6]. *)
Lemma fround_changes_100_1 :
  Float32.is_finite (dec 1001 10) = true /\
  Float32.fround (dec 1001 10) <> dec 1001 10 /\
  QArith_base.Qlt (QArith_base.Qmake 1 1000000)
    (deviation [Float32.fround (dec 1001 10)] [dec 1001 10]).
Proof.
  split; [vm_compute; reflexivity|]. split.
  - vm_compute. intros H. discriminate H.
  - vm_compute. reflexivity.
Qed.

(** ** Frames: edge cases and conservation of bytes *)

Section FrameEdges.

Local Open Scope Z_scope.

(** The header fields [decodeHeader] reads, written back, are the first
    eight bytes of the buffer. *)
Lemma decodeHeader_firstn buf h :
  decodeHeader buf = Some h ->
  firstn FRAME_HEADER_SIZE buf =
  header_bytes (h_length h) (h_type h) (h_flags h) (h_seq h).
Proof.
  unfold decodeHeader.
  destruct (Nat.ltb_spec (length buf) FRAME_HEADER_SIZE) as [|Hlen];
    [discriminate|].
  unfold FRAME_HEADER_SIZE in *.
  do 8 (destruct buf as [|? buf]; [cbn in Hlen; lia|]).
  intros [= <-]. cbn [h_length h_type h_flags h_seq].
  unfold header_bytes, DataView.getUint32, DataView.getUint16,
    DataView.getUint8, Uint8Array.slice.
  cbn [skipn firstn Nat.sub Nat.add].
  change 4%nat with (length [b; b0; b1; b2]).
  change 2%nat with (length [b5; b6]).
  rewrite !split_le_combine, !le_combine_1, !byte.of_Z_unsigned.
  reflexivity.
Qed.

Lemma read_conserves r f r' :
  FrameReader.read r = (Some f, r') ->
  FrameReader.buffer r = frame_bytes f ++ FrameReader.buffer r'.
Proof.
  intros Hread. pose proof (read_spec r) as Hspec. rewrite Hread in Hspec.
  destruct Hspec as (Hh & Hlen & Hp & Hrest).
  pose proof (h_length_nonneg _ _ Hh) as Hnn.
  unfold frame_bytes. rewrite <- (decodeHeader_firstn _ _ Hh), Hp, Hrest.
  unfold Uint8Array.slice.
  replace (FRAME_HEADER_SIZE + Z.to_nat (h_length (header f)) - FRAME_HEADER_SIZE)%nat
    with (Z.to_nat (h_length (header f))) by lia.
  rewrite <- app_assoc, (Nat.add_comm FRAME_HEADER_SIZE), <- skipn_skipn.
  now rewrite !firstn_skipn.
Qed.

Lemma read_none_same r r' : FrameReader.read r = (None, r') -> r' = r.
Proof.
  intros Hread. pose proof (read_spec r) as Hspec. rewrite Hread in Hspec.
  apply Hspec.
Qed.

Lemma readAll_loop_conserves rounds : forall r acc,
  concat (map frame_bytes acc) ++ FrameReader.buffer r =
  concat (map frame_bytes (fst (FrameReader.readAll_loop rounds r acc)))
  ++ FrameReader.buffer (snd (FrameReader.readAll_loop rounds r acc)).
Proof.
  induction rounds as [|n IH]; intros r acc; cbn [FrameReader.readAll_loop];
    [reflexivity|].
  destruct (FrameReader.read r) as [[f|] r'] eqn:Hread.
  - rewrite <- IH, map_app, concat_app. cbn [map concat].
    rewrite app_nil_r, <- app_assoc. f_equal.
    now apply read_conserves.
  - cbn [fst snd]. now rewrite (read_none_same _ _ Hread).
Qed.

Lemma run_conserves calls : forall r,
  FrameReader.buffer r ++ appended calls =
  concat (map frame_bytes (fst (run r calls)))
  ++ FrameReader.buffer (snd (run r calls)).
Proof.
  induction calls as [|[data| |] calls IH]; intros r; cbn [run appended].
  - now rewrite app_nil_r.
  - rewrite <- IH, append_buffer, <- app_assoc. reflexivity.
  - destruct (FrameReader.read r) as [[f|] r'] eqn:Hread;
      specialize (IH r'); destruct (run r' calls) as [frames r''];
      cbn [fst snd map concat] in *.
    + rewrite <- app_assoc, <- IH, app_assoc. f_equal.
      now apply read_conserves.
    + now rewrite <- IH, (read_none_same _ _ Hread).
  - pose proof (readAll_loop_conserves (S (length (FrameReader.buffer r))) r [])
      as Hall.
    unfold FrameReader.readAll.
    destruct (FrameReader.readAll_loop _ r []) as [frames1 r'].
    specialize (IH r'). destruct (run r' calls) as [frames2 r''].
    cbn [fst snd map concat app] in *.
    rewrite map_app, concat_app, <- app_assoc, <- IH, app_assoc.
    f_equal. exact Hall.
Qed.

(** The reader neither drops nor invents bytes, whatever it is fed and
    however it is called: at any moment the bytes appended so far are the
    frames returned so far, header and payload, followed by the bytes still
    pending. *)
Theorem FrameReader_conserves_bytes (calls : list ReaderCall) :
  appended calls =
    concat (map frame_bytes (fst (run FrameReader.new calls)))
    ++ FrameReader.buffer (snd (run FrameReader.new calls)) /\
  (FrameReader.pending (snd (run FrameReader.new calls)) +
   length (concat (map frame_bytes (fst (run FrameReader.new calls)))) =
   length (appended calls))%nat.
Proof.
  pose proof (run_conserves calls FrameReader.new) as Hrun.
  cbn [FrameReader.new FrameReader.buffer Uint8Array.make repeat app] in Hrun.
  split; [exact Hrun|].
  pose proof (f_equal (@length _) Hrun) as HL. rewrite length_app in HL.
  unfold FrameReader.pending. lia.
Qed.

(** [decodeFrame] takes one frame from the front of its argument: the
    bytes behind the frame are ignored, and [flags] and [seq] of any size
    come back reduced to their field, modulo 256 and 65536, with the other
    fields and the payload untouched. *)
Theorem decodeFrame_front_wraps type payload flags seq rest :
  Z.of_nat (length payload) < 2 ^ 32 ->
  decodeFrame (encodeFrame type payload flags seq ++ rest) =
  Some {| header := {| h_length := Z.of_nat (length payload);
                       h_type := MessageType_value type;
                       h_flags := flags mod 256;
                       h_seq := seq mod 65536 |};
          payload := payload |}.
Proof.
  intros Hl. unfold decodeFrame.
  rewrite encodeFrame_layout, <- app_assoc, decodeHeader_header_bytes.
  pose proof (MessageType_value_range type).
  rewrite !(Z.mod_small (Z.of_nat _)), !(Z.mod_small (MessageType_value _))
    by lia.
  cbn [h_length].
  rewrite length_app, length_header_bytes, length_app.
  replace (_ <? _) with false by (symmetry; apply Z.ltb_ge; lia).
  rewrite Nat2Z.id. do 2 f_equal.
  apply (slice_app_exact (header_bytes _ _ _ _) payload rest).
Qed.

(** Every proper prefix of an encoded frame is incomplete: [decodeFrame]
    returns [null] on it, and [decodeHeader] does on fewer than eight
    bytes of it. *)
Theorem decodeFrame_prefix type payload flags seq pre suf :
  Z.of_nat (length payload) < 2 ^ 32 ->
  encodeFrame type payload flags seq = pre ++ suf -> suf <> [] ->
  decodeFrame pre = None /\
  ((length pre < FRAME_HEADER_SIZE)%nat -> decodeHeader pre = None).
Proof.
  intros Hl Hsplit Hsuf.
  assert (Hshort : (length pre < FRAME_HEADER_SIZE + length payload)%nat).
  { pose proof (f_equal (@length _) Hsplit) as HL.
    rewrite length_encodeFrame, length_app in HL.
    destruct suf; [contradiction|cbn [length] in HL; lia]. }
  assert (Hhead : (length pre < FRAME_HEADER_SIZE)%nat -> decodeHeader pre = None).
  { intros Hlt. unfold decodeHeader.
    now destruct (Nat.ltb_spec (length pre) FRAME_HEADER_SIZE); [|lia]. }
  split; [|exact Hhead].
  unfold decodeFrame.
  destruct (Nat.lt_ge_cases (length pre) FRAME_HEADER_SIZE) as [Hlt|Hge].
  - now rewrite Hhead.
  - rewrite <- (decodeHeader_app pre suf Hge), <- Hsplit.
    rewrite <- (app_nil_r (encodeFrame _ _ _ _)), encodeFrame_layout,
      <- app_assoc, decodeHeader_header_bytes.
    cbn [h_length]. rewrite Z.mod_small by lia.
    now destruct (Z.ltb_spec (Z.of_nat (length pre))
                    (Z.of_nat FRAME_HEADER_SIZE + Z.of_nat (length payload)));
      [|lia].
Qed.

End FrameEdges.

Lemma decodeFrame_front_wraps_witness :
  decodeFrame (encodeFrame PING [Byte.x2a] 258 (-1) ++ [Byte.xff]) =
  Some {| header := {| h_length := 1; h_type := 3; h_flags := 2;
                       h_seq := 65535 |};
          payload := [Byte.x2a] |}.
Proof.
  apply (decodeFrame_front_wraps PING [Byte.x2a] 258 (-1) [Byte.xff]).
  cbn. lia.
Defined.

Lemma decodeFrame_prefix_witness :
  decodeFrame (firstn 10 (encodeFrame PING [Byte.x01; Byte.x02; Byte.x03] 0 0))
    = None /\
  ((length (firstn 10 (encodeFrame PING [Byte.x01; Byte.x02; Byte.x03] 0 0))
    < FRAME_HEADER_SIZE)%nat ->
   decodeHeader (firstn 10 (encodeFrame PING [Byte.x01; Byte.x02; Byte.x03] 0 0))
     = None).
Proof.
  apply (decodeFrame_prefix PING [Byte.x01; Byte.x02; Byte.x03] 0 0
           (firstn 10 (encodeFrame PING [Byte.x01; Byte.x02; Byte.x03] 0 0))
           (skipn 10 (encodeFrame PING [Byte.x01; Byte.x02; Byte.x03] 0 0))).
  - cbn. lia.
  - symmetry. apply firstn_skipn.
  - vm_compute. discriminate.
Defined.

(** ** Typed-array frames *)

Section TypedArrayFrames.

Local Open Scope nat_scope.

Lemma set_make_all (src : Uint8Array.t) :
  Uint8Array.set (Uint8Array.make (length src)) src 0 = src.
Proof.
  unfold Uint8Array.set. cbn [firstn Nat.add app].
  rewrite skipn_all2 by (rewrite length_make; lia). apply app_nil_r.
Qed.

(** The payload of a typed-array frame: the tag, then the elements. *)
Lemma typed_payload_layout {k} (arr : TypedArray.t k) :
  Uint8Array.set
    (Uint8Array.set (Uint8Array.make (1 + TypedArray.byteLength arr))
       [byte.of_Z (tag_of k)] 0)
    (TypedArray.bytes arr) 1 =
  byte.of_Z (tag_of k) :: TypedArray.bytes arr.
Proof.
  unfold Uint8Array.set, Uint8Array.make, TypedArray.byteLength.
  cbn [repeat firstn skipn Nat.add length app].
  rewrite skipn_all2 by (rewrite repeat_length; lia).
  now rewrite app_nil_r.
Qed.

Lemma view_whole k (data : Uint8Array.t) :
  length data mod TypedArray.BYTES_PER_ELEMENT k = 0 ->
  TypedArray.view k data 0 (length data / TypedArray.BYTES_PER_ELEMENT k) =
  Some (TypedArray.mk k data).
Proof.
  intros Hwf. unfold TypedArray.view.
  assert (Hsize : TypedArray.BYTES_PER_ELEMENT k <> 0) by (destruct k; cbn; lia).
  assert (Hlen : length data / TypedArray.BYTES_PER_ELEMENT k
                 * TypedArray.BYTES_PER_ELEMENT k = length data).
  { pose proof (Nat.div_mod_eq (length data) (TypedArray.BYTES_PER_ELEMENT k)).
    lia. }
  rewrite Nat.Div0.mod_0_l, Hlen. cbn [Nat.add Nat.eqb andb].
  rewrite Nat.leb_refl. unfold Uint8Array.slice. cbn [skipn].
  rewrite Nat.sub_0_r, firstn_all. reflexivity.
Qed.

Lemma decodeTypedArrayPayload_tagged {k} (arr : TypedArray.t k) :
  TypedArray.well_formed arr ->
  decodeTypedArrayPayload (byte.of_Z (tag_of k) :: TypedArray.bytes arr) =
  Some (existT TypedArray.t k arr).
Proof.
  intros Hwf. destruct arr as [data]. unfold TypedArray.well_formed in Hwf.
  cbn [TypedArray.byteLength TypedArray.bytes] in *.
  unfold decodeTypedArrayPayload. cbn [nth_error option_map Uint8Array.slice_from skipn].
  destruct k; cbn [tag_of]; rewrite byte.unsigned_of_Z;
    change (byte.wrap _) with 0%Z + change (byte.wrap _) with 1%Z
    + change (byte.wrap _) with 2%Z + change (byte.wrap _) with 3%Z;
    cbv iota beta;
    [ rewrite (view_whole TypedArray.f32) | rewrite (view_whole TypedArray.f64)
    | rewrite (view_whole TypedArray.u32) | rewrite (view_whole TypedArray.i32) ];
    auto.
Qed.

(** A typed array sent with [encodeTypedArrayFrame] comes back from
    [decodeFrame] and [decodeTypedArrayPayload] as an array of the same
    element type over the same bytes. *)
Theorem decodeTypedArrayPayload_encodeTypedArrayFrame {k} type
    (arr : TypedArray.t k) flags seq :
  TypedArray.well_formed arr ->
  (0 <= flags <= 255)%Z -> (0 <= seq <= 65535)%Z ->
  (Z.of_nat (1 + TypedArray.byteLength arr) < 2 ^ 32)%Z ->
  exists frame,
    decodeFrame (encodeTypedArrayFrame type arr flags seq) = Some frame /\
    h_type (header frame) = MessageType_value type /\
    h_flags (header frame) = flags /\ h_seq (header frame) = seq /\
    decodeTypedArrayPayload (payload frame) = Some (existT TypedArray.t k arr).
Proof.
  intros Hwf Hf Hs Hl.
  unfold encodeTypedArrayFrame. rewrite typed_payload_layout.
  rewrite decodeFrame_frame_of
    by (try assumption; cbn [length]; unfold TypedArray.byteLength in Hl; lia).
  eexists. split; [reflexivity|].
  cbn [frame_of header payload h_type h_flags h_seq].
  repeat split. now apply decodeTypedArrayPayload_tagged.
Qed.

(** [decodeTypedArrayPayload] throws on the empty payload and on every tag
    byte other than 0, 1, 2 and 3; on those four it never throws, whatever
    follows the tag, and returns the whole elements that follow it. *)
Theorem decodeTypedArrayPayload_errors :
  decodeTypedArrayPayload [] = None /\
  (forall tag data, (4 <= byte.unsigned tag)%Z ->
     decodeTypedArrayPayload (tag :: data) = None) /\
  (forall tag data, (byte.unsigned tag < 4)%Z ->
     exists k (a : TypedArray.t k),
       decodeTypedArrayPayload (tag :: data) = Some (existT TypedArray.t k a) /\
       tag_of k = byte.unsigned tag /\
       TypedArray.bytes a =
         firstn (length data / TypedArray.BYTES_PER_ELEMENT k
                 * TypedArray.BYTES_PER_ELEMENT k) data).
Proof.
  split; [reflexivity|]. split.
  - intros tag data Htag. unfold decodeTypedArrayPayload.
    cbn [nth_error option_map].
    destruct (byte.unsigned tag) as [|p|p]; try lia.
    do 2 (destruct p as [p|p|]; try lia; try reflexivity).
  - intros tag data Htag.
    pose proof (byte.unsigned_range tag) as Hr.
    unfold decodeTypedArrayPayload.
    cbn [nth_error option_map Uint8Array.slice_from skipn].
    assert (Hview : forall k,
      TypedArray.view k data 0 (length data / TypedArray.BYTES_PER_ELEMENT k) =
      Some (TypedArray.mk k
              (firstn (length data / TypedArray.BYTES_PER_ELEMENT k
                       * TypedArray.BYTES_PER_ELEMENT k) data))).
    { intros k. unfold TypedArray.view.
      assert (Hsize : TypedArray.BYTES_PER_ELEMENT k <> 0) by (destruct k; cbn; lia).
      pose proof (Nat.Div0.mul_div_le (length data) (TypedArray.BYTES_PER_ELEMENT k)).
      rewrite Nat.Div0.mod_0_l. cbn [Nat.add Nat.eqb andb].
      destruct (Nat.leb_spec
                  (length data / TypedArray.BYTES_PER_ELEMENT k
                   * TypedArray.BYTES_PER_ELEMENT k) (length data)); [|lia].
      unfold Uint8Array.slice. cbn [skipn]. now rewrite Nat.sub_0_r. }
    assert (Hcases : byte.unsigned tag = 0%Z \/ byte.unsigned tag = 1%Z \/
                     byte.unsigned tag = 2%Z \/ byte.unsigned tag = 3%Z) by lia.
    destruct Hcases as [E|[E|[E|E]]]; rewrite E; cbv iota beta.
    + exists TypedArray.f32. eexists.
      change (length data / 4) with
        (length data / TypedArray.BYTES_PER_ELEMENT TypedArray.f32).
      rewrite Hview. cbn [option_map]. repeat split.
    + exists TypedArray.f64. eexists.
      change (length data / 8) with
        (length data / TypedArray.BYTES_PER_ELEMENT TypedArray.f64).
      rewrite Hview. cbn [option_map]. repeat split.
    + exists TypedArray.u32. eexists.
      change (length data / 4) with
        (length data / TypedArray.BYTES_PER_ELEMENT TypedArray.u32).
      rewrite Hview. cbn [option_map]. repeat split.
    + exists TypedArray.i32. eexists.
      change (length data / 4) with
        (length data / TypedArray.BYTES_PER_ELEMENT TypedArray.i32).
      rewrite Hview. cbn [option_map]. repeat split.
Qed.

End TypedArrayFrames.

Lemma decodeTypedArrayPayload_encodeTypedArrayFrame_witness :
  exists frame,
    decodeFrame
      (encodeTypedArrayFrame SURFACE_DELTA
         (TypedArray.mk TypedArray.u32
            [Byte.x40; Byte.x42; Byte.x0f; Byte.x00]) 0 7) = Some frame /\
    h_type (header frame) = MessageType_value SURFACE_DELTA /\
    h_flags (header frame) = 0%Z /\ h_seq (header frame) = 7%Z /\
    decodeTypedArrayPayload (payload frame) =
      Some (existT TypedArray.t TypedArray.u32
              (TypedArray.mk TypedArray.u32
                 [Byte.x40; Byte.x42; Byte.x0f; Byte.x00])).
Proof.
  apply (decodeTypedArrayPayload_encodeTypedArrayFrame SURFACE_DELTA
           (TypedArray.mk TypedArray.u32
              [Byte.x40; Byte.x42; Byte.x0f; Byte.x00]) 0 7).
  - reflexivity.
  - lia.
  - lia.
  - cbn. lia.
Defined.

(** ** Delta updates *)

Section SurfaceDelta.

Local Open Scope nat_scope.

Lemma length_typed_bytes {k} (a : TypedArray.t k) :
  TypedArray.well_formed a ->
  length (TypedArray.bytes a) =
  TypedArray.length a * TypedArray.BYTES_PER_ELEMENT k.
Proof.
  unfold TypedArray.well_formed, TypedArray.length, TypedArray.byteLength.
  intros Hwf.
  pose proof (Nat.div_mod_eq (length (TypedArray.bytes a))
                (TypedArray.BYTES_PER_ELEMENT k)).
  lia.
Qed.

Lemma view_at k (pre mid post : Uint8Array.t) offset len :
  offset = length pre -> length mid = len * TypedArray.BYTES_PER_ELEMENT k ->
  offset mod TypedArray.BYTES_PER_ELEMENT k = 0 ->
  TypedArray.view k (pre ++ mid ++ post) offset len = Some (TypedArray.mk k mid).
Proof.
  intros -> Hmid Halign. unfold TypedArray.view.
  rewrite Halign, !length_app, <- Hmid. cbn [Nat.eqb andb].
  destruct (Nat.leb_spec (length pre + length mid)
              (length pre + (length mid + length post))); [|lia].
  now rewrite (slice_at pre mid post).
Qed.

Variables (indices : TypedArray.t TypedArray.u32)
          (values : TypedArray.t TypedArray.f32).

Hypothesis indices_whole : TypedArray.well_formed indices.
Hypothesis values_whole : TypedArray.well_formed values.

Let count := TypedArray.length indices.

Lemma serializeSurfaceDelta_layout :
  TypedArray.length values <= count ->
  serializeSurfaceDelta indices values =
  Some (encodeFrame SURFACE_DELTA (delta_layout indices values) 0 0).
Proof.
  intros Hle.
  pose proof (length_typed_bytes indices indices_whole) as Hi.
  pose proof (length_typed_bytes values values_whole) as Hv.
  cbn [TypedArray.BYTES_PER_ELEMENT] in Hi, Hv. fold count in Hi.
  unfold serializeSurfaceDelta, delta_layout. fold count.
  unfold DataView.setUint32.
  rewrite <- Nat.add_assoc, make_app, make_app.
  rewrite (set_at_0 (Uint8Array.make 4) (le_split 4 (Z.of_nat count)))
    by now rewrite length_make, length_le_split.
  rewrite (view_at TypedArray.u32 (le_split 4 (Z.of_nat count))
             (Uint8Array.make (count * 4)) _ 4 count)
    by (rewrite ?length_le_split, ?length_make; reflexivity).
  unfold TypedArray.set_view. fold count. rewrite Nat.leb_refl.
  rewrite (set_at' (le_split 4 (Z.of_nat count)) (Uint8Array.make (count * 4))
             (TypedArray.bytes indices) _ 4)
    by (rewrite ?length_le_split, ?length_make; lia).
  replace (le_split 4 (Z.of_nat count) ++ TypedArray.bytes indices
           ++ Uint8Array.make (count * 4))
    with ((le_split 4 (Z.of_nat count) ++ TypedArray.bytes indices)
          ++ Uint8Array.make (count * 4) ++ [])
    by now rewrite app_nil_r, <- app_assoc.
  rewrite (view_at TypedArray.f32 _ (Uint8Array.make (count * 4)) [] _ count);
    [|rewrite length_app, length_le_split; lia
     |rewrite length_make; reflexivity
     |cbn [TypedArray.BYTES_PER_ELEMENT]; now rewrite Nat.Div0.mod_add].
  destruct (Nat.leb_spec (TypedArray.length values) count); [|lia].
  replace (count * 4) with
    (length (TypedArray.bytes values)
     + 4 * (count - TypedArray.length values)) at 1 by lia.
  rewrite make_app, app_nil_r.
  rewrite (set_at' (le_split 4 (Z.of_nat count) ++ TypedArray.bytes indices)
             (Uint8Array.make (length (TypedArray.bytes values)))
             (TypedArray.bytes values) _ (4 + count * 4))
    by (rewrite ?length_app, ?length_le_split, ?length_make; lia).
  now rewrite <- app_assoc.
Qed.

Lemma length_delta_layout :
  TypedArray.length values <= count ->
  length (delta_layout indices values) = 4 + 8 * count.
Proof.
  intros Hle.
  pose proof (length_typed_bytes indices indices_whole) as Hi.
  pose proof (length_typed_bytes values values_whole) as Hv.
  cbn [TypedArray.BYTES_PER_ELEMENT] in Hi, Hv. fold count in Hi.
  unfold delta_layout. fold count.
  rewrite !length_app, length_le_split, length_make. lia.
Qed.

Lemma deserializeSurfaceDelta_layout :
  TypedArray.length values <= count ->
  (Z.of_nat count < 2 ^ 32)%Z ->
  deserializeSurfaceDelta (delta_layout indices values) =
  Some (indices,
        TypedArray.mk TypedArray.f32
          (TypedArray.bytes values ++
           Uint8Array.make (4 * (count - TypedArray.length values)))).
Proof.
  intros Hle Hsmall.
  pose proof (length_typed_bytes indices indices_whole) as Hi.
  pose proof (length_typed_bytes values values_whole) as Hv.
  cbn [TypedArray.BYTES_PER_ELEMENT] in Hi, Hv. fold count in Hi.
  unfold deserializeSurfaceDelta, delta_layout. fold count.
  rewrite getUint32_at_0, to_nat_u32 by assumption.
  rewrite (view_at TypedArray.u32 (le_split 4 (Z.of_nat count))
             (TypedArray.bytes indices) _ 4 count)
    by (rewrite ?length_le_split; auto).
  replace (le_split 4 (Z.of_nat count) ++ TypedArray.bytes indices
           ++ TypedArray.bytes values
           ++ Uint8Array.make (4 * (count - TypedArray.length values)))
    with ((le_split 4 (Z.of_nat count) ++ TypedArray.bytes indices)
          ++ (TypedArray.bytes values
              ++ Uint8Array.make (4 * (count - TypedArray.length values)))
          ++ [])
    by now rewrite app_nil_r, <- app_assoc.
  rewrite (view_at TypedArray.f32 _ _ [] _ count);
    [|rewrite length_app, length_le_split; lia
     |rewrite length_app, length_make; cbn [TypedArray.BYTES_PER_ELEMENT]; lia
     |cbn [TypedArray.BYTES_PER_ELEMENT]; now rewrite Nat.Div0.mod_add].
  now destruct indices.
Qed.

(** A delta update survives the wire: for as many values as indices,
    [deserializeSurfaceDelta] gives back from the payload of the frame
    that [serializeSurfaceDelta] built the same indices and the same values,
    bit for bit; values that are missing read back as zero bytes; and with
    more values than indices [serializeSurfaceDelta] throws. *)
Theorem deserializeSurfaceDelta_serializeSurfaceDelta :
  (Z.of_nat (4 + 8 * count) < 2 ^ 32)%Z ->
  (count < TypedArray.length values ->
   serializeSurfaceDelta indices values = None) /\
  (TypedArray.length values <= count ->
   exists bytes frame,
     serializeSurfaceDelta indices values = Some bytes /\
     decodeFrame bytes = Some frame /\
     h_type (header frame) = MessageType_value SURFACE_DELTA /\
     h_length (header frame) = Z.of_nat (4 + 8 * count) /\
     deserializeSurfaceDelta (payload frame) =
       Some (indices,
             TypedArray.mk TypedArray.f32
               (TypedArray.bytes values ++
                Uint8Array.make (4 * (count - TypedArray.length values)))) /\
     (TypedArray.length values = count ->
      deserializeSurfaceDelta (payload frame) = Some (indices, values))).
Proof.
  intros Hsize. split.
  - intros Hlt. unfold serializeSurfaceDelta. fold count.
    unfold DataView.setUint32.
    rewrite <- Nat.add_assoc, make_app, make_app.
    rewrite (set_at_0 (Uint8Array.make 4) (le_split 4 (Z.of_nat count)))
      by now rewrite length_make, length_le_split.
    rewrite (view_at TypedArray.u32 (le_split 4 (Z.of_nat count))
               (Uint8Array.make (count * 4)) _ 4 count)
      by (rewrite ?length_le_split, ?length_make; reflexivity).
    unfold TypedArray.set_view. fold count. rewrite Nat.leb_refl.
    destruct (TypedArray.view TypedArray.f32 _ _ _); [|reflexivity].
    now destruct (Nat.leb_spec (TypedArray.length values) count); [lia|].
  - intros Hle.
    exists (encodeFrame SURFACE_DELTA (delta_layout indices values) 0 0),
           (frame_of SURFACE_DELTA (delta_layout indices values) 0 0).
    split; [now apply serializeSurfaceDelta_layout|].
    split.
    { apply decodeFrame_frame_of; try lia.
      rewrite length_delta_layout by assumption. exact Hsize. }
    cbn [frame_of header payload h_type h_length].
    split; [reflexivity|].
    split; [now rewrite length_delta_layout|].
    split; [apply deserializeSurfaceDelta_layout; [assumption|lia]|].
    intros Heq. rewrite deserializeSurfaceDelta_layout by (assumption || lia).
    rewrite Heq, Nat.sub_diag. cbn [Nat.mul Uint8Array.make repeat].
    rewrite app_nil_r. now destruct values.
Qed.

End SurfaceDelta.

(** The cells 1 and 7 set to 1.5 and -2. *)
Lemma deserializeSurfaceDelta_serializeSurfaceDelta_witness :
  exists bytes frame,
    serializeSurfaceDelta
      (TypedArray.mk TypedArray.u32
         [Byte.x01; Byte.x00; Byte.x00; Byte.x00;
          Byte.x07; Byte.x00; Byte.x00; Byte.x00])
      (TypedArray.mk TypedArray.f32
         [Byte.x00; Byte.x00; Byte.xc0; Byte.x3f;
          Byte.x00; Byte.x00; Byte.x00; Byte.xc0]) = Some bytes /\
    decodeFrame bytes = Some frame /\
    deserializeSurfaceDelta (payload frame) =
      Some (TypedArray.mk TypedArray.u32
              [Byte.x01; Byte.x00; Byte.x00; Byte.x00;
               Byte.x07; Byte.x00; Byte.x00; Byte.x00],
            TypedArray.mk TypedArray.f32
              [Byte.x00; Byte.x00; Byte.xc0; Byte.x3f;
               Byte.x00; Byte.x00; Byte.x00; Byte.xc0]).
Proof.
  destruct (deserializeSurfaceDelta_serializeSurfaceDelta
              (TypedArray.mk TypedArray.u32
                 [Byte.x01; Byte.x00; Byte.x00; Byte.x00;
                  Byte.x07; Byte.x00; Byte.x00; Byte.x00])
              (TypedArray.mk TypedArray.f32
                 [Byte.x00; Byte.x00; Byte.xc0; Byte.x3f;
                  Byte.x00; Byte.x00; Byte.x00; Byte.xc0]))
    as [_ Hround].
  - reflexivity.
  - reflexivity.
  - vm_compute. reflexivity.
  - destruct Hround as (bytes & frame & Hs & Hd & _ & _ & _ & Heq).
    + vm_compute. lia.
    + exists bytes, frame. repeat split; try assumption.
      apply Heq. reflexivity.
Defined.

(** ** Array stores *)

Section Store.

Context {A : Type}.

Lemma length_store (v : list A) : forall i a, length (store v i a) = length v.
Proof.
  induction v as [|b v IH]; intros [|i] a; cbn [store length]; auto.
Qed.

Lemma nth_store_same (v : list A) : forall i a d,
  i < length v -> nth i (store v i a) d = a.
Proof.
  induction v as [|b v IH]; intros [|i] a d Hi; cbn [store nth length] in *;
    try lia; auto.
  apply IH. lia.
Qed.

Lemma nth_store_other (v : list A) : forall i j a d,
  i <> j -> nth j (store v i a) d = nth j v d.
Proof.
  induction v as [|b v IH]; intros [|i] [|j] a d Hij; cbn [store nth];
    try reflexivity; try contradiction.
  apply IH. lia.
Qed.


Lemma store_app (pre : list A) b old a :
  store (pre ++ b :: old) (length pre) a = pre ++ a :: old.
Proof. induction pre as [|c pre IH]; cbn [store app length]; congruence. Qed.

(** A loop that stores [f i] at every index [i] of an array. *)
Lemma store_loop (f : nat -> A) k : forall a pre old,
  length pre = a -> length old = k ->
  fold_left (fun result i => store result i (f i)) (seq a k) (pre ++ old) =
  pre ++ map f (seq a k).
Proof.
  induction k as [|k IH]; intros a pre old Hpre Hold.
  - destruct old; [reflexivity|discriminate].
  - destruct old as [|b old]; [discriminate|].
    cbn [seq fold_left map]. rewrite <- Hpre, store_app.
    replace (pre ++ f (length pre) :: old)
      with ((pre ++ [f (length pre)]) ++ old) by now rewrite <- app_assoc.
    rewrite IH.
    + rewrite <- app_assoc. reflexivity.
    + rewrite length_app. cbn [length]. lia.
    + now injection Hold.
Qed.

Lemma store_loop_all (f : nat -> A) (init : list A) :
  fold_left (fun result i => store result i (f i)) (seq 0 (length init)) init =
  map f (seq 0 (length init)).
Proof. apply (store_loop f (length init) 0 [] init); reflexivity. Qed.

End Store.

(** A list built index by index. *)
Lemma map_seq_nth {A B} (f : A -> B) (d : A) (v : list A) :
  forall g : nat -> B,
    (forall i, i < length v -> g i = f (nth i v d)) ->
    map g (seq 0 (length v)) = map f v.
Proof.
  induction v as [|a v IH]; intros g Hg; cbn [length seq map]; [reflexivity|].
  f_equal; [apply (Hg 0); cbn; lia|].
  rewrite <- seq_shift, map_map. apply IH.
  intros i Hi. apply (Hg (S i)). cbn. lia.
Qed.

(** ** Cells, rows and columns *)

Section SurfaceAccessProofs.

Context {num : Type} `{Number num}.


Lemma skipn_rows (z : Vec num) ny : forall nx,
  length z = nx * ny ->
  concat (map (fun xi => firstn ny (skipn (xi * ny) z)) (seq 0 nx)) = z.
Proof.
  intros nx. revert z.
  induction nx as [|nx IH]; intros z Hlen.
  - destruct z; [reflexivity|discriminate].
  - cbn [seq map concat]. cbn [Nat.mul skipn].
    transitivity (firstn ny z ++ skipn ny z); [|apply firstn_skipn].
    f_equal.
    rewrite <- seq_shift, map_map.
    rewrite <- (IH (skipn ny z)) at 1
      by (rewrite length_skipn; lia).
    f_equal. apply map_ext. intros xi.
    rewrite skipn_skipn. do 2 f_equal. lia.
Qed.

(** Rows and columns of a surface that satisfies the length relations:
    [getRow] has [ny] elements and [getCol] has [nx]; element [yi] of row
    [xi] and element [xi] of column [yi] are both the cell [(xi, yi)]; and
    the rows, in order, are the whole [z] array. *)
Theorem getRow_getCol (s : Surface.t num) :
  Surface.well_formed s ->
  (forall xi, xi < Surface.nx s -> length (getRow s xi) = Surface.ny s) /\
  (forall yi, length (getCol s yi) = Surface.nx s) /\
  (forall xi yi, xi < Surface.nx s -> yi < Surface.ny s ->
     get (getRow s xi) yi = getZ s xi yi /\
     get (getCol s yi) xi = getZ s xi yi) /\
  concat (map (getRow s) (seq 0 (Surface.nx s))) = Surface.z s.
Proof.
  intros (Hx & Hy & Hz).
  assert (Hrow : forall xi,
            getRow s xi = firstn (Surface.ny s) (skipn (xi * Surface.ny s) (Surface.z s))).
  { intros xi. unfold getRow. f_equal. lia. }
  assert (Hcol : forall yi,
            getCol s yi = map (fun xi => getZ s xi yi) (seq 0 (Surface.nx s))).
  { intros yi. unfold getCol.
    rewrite <- (repeat_length (of_Z 0) (Surface.nx s)) at 1.
    rewrite store_loop_all. now rewrite repeat_length. }
  split; [|split; [|split]].
  - intros xi Hxi. rewrite Hrow, length_firstn, length_skipn. nia.
  - intros yi. now rewrite Hcol, length_map, length_seq.
  - intros xi yi Hxi Hyi. split.
    + rewrite Hrow. unfold getZ, get.
      rewrite nth_firstn.
      destruct (Nat.ltb_spec yi (Surface.ny s)); [|lia].
      rewrite nth_skipn. reflexivity.
    + rewrite Hcol. unfold get at 1.
      rewrite (nth_indep _ NaN (getZ s 0 yi)) by now rewrite length_map, length_seq.
      rewrite (map_nth (fun xi => getZ s xi yi)), seq_nth by assumption.
      reflexivity.
  - rewrite (map_ext _ _ Hrow). now apply skipn_rows.
Qed.

(** [minmax] is [min] and [max] in one pass, in any arithmetic; on the
    empty vector the three give [Infinity] and [-Infinity]. *)
Theorem minmax_min_max (v : Vec num) :
  minmax v = (vec.min v, vec.max v) /\
  vec.min (@nil num) = Infinity /\ vec.max (@nil num) = nopp Infinity.
Proof.
  split; [|split; reflexivity].
  unfold minmax, vec.min, vec.max.
  generalize (@Infinity num _) (nopp (@Infinity num _)).
  induction v as [|a v IH]; intros lo hi; [reflexivity|].
  cbn [fold_left]. apply IH.
Qed.

End SurfaceAccessProofs.

Lemma getRow_getCol_witness :
  (forall xi, xi < Surface.nx Example.dyadic ->
     length (getRow Example.dyadic xi) = Surface.ny Example.dyadic) /\
  (forall yi, length (getCol Example.dyadic yi) = Surface.nx Example.dyadic) /\
  (forall xi yi, xi < Surface.nx Example.dyadic ->
     yi < Surface.ny Example.dyadic ->
     get (getRow Example.dyadic xi) yi = getZ Example.dyadic xi yi /\
     get (getCol Example.dyadic yi) xi = getZ Example.dyadic xi yi) /\
  concat (map (getRow Example.dyadic) (seq 0 (Surface.nx Example.dyadic))) =
    Surface.z Example.dyadic.
Proof.
  apply (getRow_getCol Example.dyadic). vm_compute. repeat split.
Defined.

(** ** Vectors in exact arithmetic *)

Section VecExact.

Local Open Scope R_scope.

Lemma minmax_Fin_cons a l :
  minmax (map Fin (a :: l)) =
  (Fin (fold_left Rmin l a), Fin (fold_left Rmax l a)).
Proof.
  unfold minmax. cbn [map fold_left]. rewrite <- minmax_fold_Fin. f_equal.
Qed.

(** [clamp] on finite numbers, in exact arithmetic: with [lo <= hi] the
    result lies in [[lo, hi]] and is the value itself when that lies
    there; with the bounds the wrong way round it is [lo], whatever the
    value. *)
Theorem clamp_exact (value lo hi : R) :
  exists c, vec.clamp (Fin value) (Fin lo) (Fin hi) = Fin c /\
    (lo <= hi -> lo <= c <= hi) /\
    (lo <= value <= hi -> c = value) /\
    (value < lo -> lo <= hi -> c = lo) /\
    (hi < value -> lo <= hi -> c = hi) /\
    (hi < lo -> c = lo).
Proof.
  exists (Rmax lo (Rmin hi value)).
  unfold vec.clamp. rewrite xreal_min_Fin, xreal_max_Fin.
  split; [reflexivity|].
  repeat split; intros; try split; unfold Rmax, Rmin;
    destruct (Rle_dec hi value);
    repeat match goal with
           | |- context [Rle_dec ?a ?b] => destruct (Rle_dec a b)
           end; lra.
Qed.

(** [normalize] in exact arithmetic, on a non-empty vector of finite
    numbers and without an [out] array: the result has the length of the
    input and every element lies in [[0, 1]]; unless the vector is
    constant the element is [(v - min) / (max - min)], so the least value
    goes to 0 and the greatest to 1; a constant vector goes to zeros. *)
Theorem normalize_exact (l : list R) :
  l <> [] ->
  exists lo hi r,
    vec.normalize (map Fin l) None = map Fin r /\
    length r = length l /\
    In lo l /\ In hi l /\ (forall v, In v l -> lo <= v <= hi) /\
    (forall i, (i < length l)%nat ->
       0 <= nth i r 0 <= 1 /\
       (lo < hi -> nth i r 0 = (nth i l 0 - lo) / (hi - lo)) /\
       (lo = hi -> nth i r 0 = 0)).
Proof.
  destruct l as [|a l]; [congruence|]. intros _.
  set (v := a :: l).
  destruct (fold_Rmin_spec l a) as (Hin1 & Hle1 & Hall1).
  destruct (fold_Rmax_spec l a) as (Hin2 & Hle2 & Hall2).
  set (lo := fold_left Rmin l a) in *. set (hi := fold_left Rmax l a) in *.
  assert (Hlo : In lo v)
    by (destruct Hin1 as [E|E]; [left; symmetry; exact E|right; exact E]).
  assert (Hhi : In hi v)
    by (destruct Hin2 as [E|E]; [left; symmetry; exact E|right; exact E]).
  assert (Hbounds : forall x, In x v -> lo <= x <= hi)
    by (intros x [E|Hx]; [rewrite <- E|]; split; auto).
  pose proof (Hbounds lo Hlo) as Hlohi.
  exists lo, hi.
  unfold vec.normalize. fold v. unfold v at 1. rewrite minmax_Fin_cons.
  fold lo hi v. rewrite xreal_sub_Fin. cbn [nullish].
  destruct (Req_dec_T (hi - lo) 0) as [Hconst|Hrange].
  - exists (map (fun _ => 0) v).
    replace (neqb (Fin (hi - lo)) (of_Z 0)) with true
      by (symmetry; apply xreal_eqb_Fin; cbn; lra).
    split; [|split; [now rewrite length_map|]].
    { unfold vec.vec64. rewrite length_map, map_map, !map_const, repeat_length.
      reflexivity. }
    split; [exact Hlo|]. split; [exact Hhi|]. split; [exact Hbounds|].
    intros i Hi.
    assert (E : nth i (map (fun _ : R => 0) v) 0 = 0)
      by exact (map_nth (fun _ : R => 0) v 0 i).
    rewrite E. repeat split; intros; lra.
  - exists (map (fun x => (x - lo) / (hi - lo)) v).
    replace (neqb (Fin (hi - lo)) (of_Z 0)) with false.
    2:{ symmetry. cbn. destruct (Req_dec_T (hi - lo) 0); [|reflexivity].
        exfalso. apply Hrange. lra. }
    split; [|split; [now rewrite length_map|]].
    { unfold vec.vec64. rewrite length_map.
      rewrite <- (repeat_length (of_Z 0) (length v)) at 1.
      rewrite store_loop_all, repeat_length, map_map.
      apply (map_seq_nth _ 0). intros i Hi.
      rewrite get_map_Fin by assumption.
      rewrite xreal_sub_Fin, xreal_div_Fin by assumption. reflexivity. }
    split; [exact Hlo|]. split; [exact Hhi|]. split; [exact Hbounds|].
    intros i Hi.
    rewrite (nth_indep _ 0 ((fun x => (x - lo) / (hi - lo)) 0))
      by now rewrite length_map.
    rewrite (map_nth (fun x => (x - lo) / (hi - lo))).
    cbv beta.
    pose proof (Hbounds (nth i v 0) (nth_In v 0 Hi)).
    repeat split; intros; try lra.
    + apply Rmult_le_pos; [lra|]. apply Rlt_le, Rinv_0_lt_compat. lra.
    + apply Rmult_le_reg_r with (hi - lo); [lra|].
      unfold Rdiv. rewrite Rmult_assoc, Rinv_l by lra. lra.
Qed.

(** [linspace] in exact arithmetic.  The result has [n] elements.  For
    [n >= 2] and finite ends they are
    [start + i * (end - start) / (n - 1)]: the first is [start] and the
    last is [end].  For [n = 1] the step is a division by zero and the
    only element is NaN, whatever the ends. *)
Theorem linspace_exact :
  (forall (start end_ : xreal) n, length (vec.linspace start end_ n) = n) /\
  (forall start end_ : xreal, vec.linspace start end_ 1 = [NaN]) /\
  (forall (s e : R) n, (2 <= n)%nat ->
     vec.linspace (Fin s) (Fin e) n =
       map (fun i => Fin (s + INR i * ((e - s) / (INR n - 1)))) (seq 0 n) /\
     get (vec.linspace (Fin s) (Fin e) n) 0 = Fin s /\
     get (vec.linspace (Fin s) (Fin e) n) (n - 1) = Fin e).
Proof.
  assert (Hloop : forall (start end_ : xreal) n,
            vec.linspace start end_ n =
            map (fun i =>
                   nadd start
                     (nmul (of_nat i)
                        (ndiv (nsub end_ start) (of_Z (Z.of_nat n - 1)))))
              (seq 0 n)).
  { intros start end_ n. unfold vec.linspace, vec.vec64.
    rewrite <- (repeat_length (of_Z 0) n) at 1.
    rewrite store_loop_all. now rewrite repeat_length. }
  split; [|split].
  - intros start end_ n. now rewrite Hloop, length_map, length_seq.
  - intros start end_. rewrite Hloop. cbn [seq map Z.of_nat Z.sub Z.pos_sub].
    f_equal.
    assert (Hzero : forall a : xreal, nmul (of_nat 0) (ndiv a (of_Z 0)) = NaN).
    { intros a. unfold of_nat. cbn [Z.of_nat]. rewrite !xreal_of_Z.
      destruct a as [r| | |]; cbn.
      - destruct (Req_dec_T 0 0) as [_|Hne]; [|contradiction].
        unfold XReal.scale.
        destruct (Rlt_dec 0 r); cbn;
          [unfold XReal.scale;
           destruct (Rlt_dec 0 0), (Rlt_dec 0 0); try lra; reflexivity|].
        destruct (Rlt_dec r 0); cbn; [|reflexivity].
        unfold XReal.scale.
        destruct (Rlt_dec 0 0), (Rlt_dec 0 0); try lra; reflexivity.
      - destruct (Rle_dec 0 0); [|lra]. unfold XReal.scale.
        destruct (Rlt_dec 0 0); [lra|reflexivity].
      - destruct (Rle_dec 0 0); [|lra]. unfold XReal.scale.
        destruct (Rlt_dec 0 0); [lra|reflexivity].
      - reflexivity. }
    rewrite Hzero. now destruct start.
  - intros s e n Hn.
    assert (Hden : INR n - 1 <> 0).
    { pose proof (le_INR 2 n Hn) as H2. cbn in H2. lra. }
    assert (Hmap : vec.linspace (Fin s) (Fin e) n =
              map (fun i => Fin (s + INR i * ((e - s) / (INR n - 1)))) (seq 0 n)).
    { rewrite Hloop. apply map_ext. intros i.
      rewrite of_nat_xreal, xreal_of_Z, xreal_sub_Fin.
      rewrite minus_IZR, <- INR_IZR_INZ.
      now rewrite xreal_div_Fin, xreal_mul_Fin, xreal_add_Fin by assumption. }
    split; [exact Hmap|].
    rewrite Hmap. unfold get.
    rewrite !(nth_indep _ NaN
                ((fun i => Fin (s + INR i * ((e - s) / (INR n - 1)))) 0%nat))
      by (rewrite length_map, length_seq; lia).
    rewrite !(map_nth (fun i => Fin (s + INR i * ((e - s) / (INR n - 1))))).
    rewrite !seq_nth by lia. cbn [Nat.add].
    split; f_equal.
    + cbn [INR]. lra.
    + rewrite minus_INR by lia. cbn [INR]. field. exact Hden.
Qed.

End VecExact.

Lemma normalize_exact_witness :
  exists lo hi r,
    vec.normalize (map Fin [2; 4; 3]%R) None = map Fin r /\
    length r = length [2; 4; 3]%R /\
    In lo [2; 4; 3]%R /\ In hi [2; 4; 3]%R /\
    (forall v, In v [2; 4; 3]%R -> (lo <= v <= hi)%R) /\
    (forall i, (i < length [2; 4; 3]%R)%nat ->
       (0 <= nth i r 0 <= 1)%R /\
       ((lo < hi)%R -> nth i r 0%R = ((nth i [2; 4; 3] 0 - lo) / (hi - lo))%R) /\
       (lo = hi -> nth i r 0%R = 0%R)).
Proof. apply (normalize_exact [2; 4; 3]%R). discriminate. Defined.

(** ** Binary search and bilinear interpolation in exact arithmetic *)

Section SearchExact.

Local Open Scope R_scope.

Lemma increasing_lt (xs : list R) :
  increasing xs ->
  forall i j, (i < j < length xs)%nat -> nth i xs 0 < nth j xs 0.
Proof.
  intros Hinc i j. induction j as [|j IH]; intros Hij; [lia|].
  destruct (Nat.eq_dec i j) as [->|Hne].
  - replace (S j) with (j + 1)%nat by lia. apply Hinc. lia.
  - apply Rlt_trans with (nth j xs 0); [apply IH; lia|].
    replace (S j) with (j + 1)%nat by lia. apply Hinc. lia.
Qed.

Lemma increasing_le (xs : list R) :
  increasing xs ->
  forall i j, (i <= j < length xs)%nat -> nth i xs 0 <= nth j xs 0.
Proof.
  intros Hinc i j Hij. destruct (Nat.eq_dec i j) as [->|Hne]; [lra|].
  apply Rlt_le, increasing_lt; [assumption|lia].
Qed.

(** A value between two neighbours of an increasing axis names the cell. *)
Lemma increasing_cell (xs : list R) q i j :
  increasing xs ->
  (i + 1 < length xs)%nat -> (j + 1 < length xs)%nat ->
  nth i xs 0 <= q < nth (i + 1) xs 0 ->
  nth j xs 0 <= q < nth (j + 1) xs 0 ->
  i = j.
Proof.
  intros Hinc Hi Hj Hqi Hqj.
  destruct (Nat.lt_trichotomy i j) as [Hlt|[Heq|Hgt]]; [|exact Heq|].
  - pose proof (increasing_le xs Hinc (i + 1) j ltac:(lia)). lra.
  - pose proof (increasing_le xs Hinc (j + 1) i ltac:(lia)). lra.
Qed.

(** The invariant of the binary search: the target stays between the
    values at [lo] and [hi]. *)
Lemma findIndex_loop_bracket (xs : list R) q rounds : forall lo hi,
  (lo < hi < length xs)%nat -> (Z.of_nat hi < 2 ^ 31)%Z ->
  (hi - lo <= rounds)%nat ->
  nth lo xs 0 <= q < nth hi xs 0 ->
  let r := findIndex_loop rounds (map Fin xs) (Fin q) lo hi in
  (lo <= r < hi)%nat /\ nth r xs 0 <= q < nth (r + 1) xs 0.
Proof.
  induction rounds as [|n IH]; intros lo hi Hlh Hsmall Hrounds Hq;
    cbn [findIndex_loop]; [lia|].
  destruct (Nat.ltb_spec lo (hi - 1)) as [Hgap|Hgap].
  - pose proof (midpoint_between lo hi ltac:(lia) Hsmall) as Hmid.
    rewrite get_map_Fin by lia.
    destruct (Rle_dec (nth (midpoint lo hi) xs 0) q) as [Hle|Hgt].
    + replace (nleb _ _) with true by (symmetry; now apply xreal_leb_Fin).
      destruct (IH (midpoint lo hi) hi) as [Hr Hb]; try lia; [lra|].
      split; [lia|exact Hb].
    + replace (nleb _ _) with false by (symmetry; apply xreal_leb_Fin_false; lra).
      destruct (IH lo (midpoint lo hi)) as [Hr Hb]; try lia; [lra|].
      split; [lia|exact Hb].
  - replace hi with (lo + 1)%nat in * by lia. split; [lia|exact Hq].
Qed.

Lemma findIndex_strictly_inside (xs : list R) q :
  (2 <= length xs)%nat -> (Z.of_nat (length xs) < 2 ^ 31)%Z ->
  nth 0 xs 0 < q < nth (length xs - 1) xs 0 ->
  exists i, findIndex (map Fin xs) (Fin q) = Z.of_nat i /\
    (i + 1 < length xs)%nat /\ nth i xs 0 <= q < nth (i + 1) xs 0.
Proof.
  intros Hn Hsmall Hq. unfold findIndex. rewrite length_map.
  destruct (Nat.eqb_spec (length xs) 0); [lia|].
  rewrite !get_map_Fin by lia.
  replace (nleb (Fin q) _) with false by (symmetry; apply xreal_leb_Fin_false; lra).
  replace (nleb _ (Fin q)) with false by (symmetry; apply xreal_leb_Fin_false; lra).
  destruct (findIndex_loop_bracket xs q (length xs) 0 (length xs - 1))
    as [Hr Hb]; try lia; [lra|].
  eexists. split; [reflexivity|]. split; [lia|exact Hb].
Qed.

(** [findIndex] does what its comment says.  In exact arithmetic, on an
    axis of at least two (fewer than 2^31) finite values and for a target
    strictly between the first and the last, it returns an index [i] with
    [values[i] <= target < values[i+1]]; on a strictly increasing axis
    that is the only such index. *)
Theorem findIndex_exact (xs : list R) (q : R) :
  (2 <= length xs)%nat -> (Z.of_nat (length xs) < 2 ^ 31)%Z ->
  nth 0 xs 0 < q < nth (length xs - 1) xs 0 ->
  exists i, findIndex (map Fin xs) (Fin q) = Z.of_nat i /\
    (i + 1 < length xs)%nat /\ nth i xs 0 <= q < nth (i + 1) xs 0 /\
    (increasing xs ->
     forall j, (j + 1 < length xs)%nat ->
       nth j xs 0 <= q < nth (j + 1) xs 0 -> j = i).
Proof.
  intros Hn Hsmall Hq.
  destruct (findIndex_strictly_inside xs q Hn Hsmall Hq) as (i & Hi & Hlt & Hb).
  exists i. repeat split; try assumption; try apply Hb.
  intros Hinc j Hj Hqj. now apply (increasing_cell xs q j i).
Qed.

(** On an increasing axis every target between the ends falls in the cell
    [findIndex] returns. *)
Lemma findIndex_inside (xs : list R) q :
  increasing xs ->
  (2 <= length xs)%nat -> (Z.of_nat (length xs) < 2 ^ 31)%Z ->
  nth 0 xs 0 <= q <= nth (length xs - 1) xs 0 ->
  exists i, findIndex (map Fin xs) (Fin q) = Z.of_nat i /\
    (i + 1 < length xs)%nat /\ nth i xs 0 <= q <= nth (i + 1) xs 0.
Proof.
  intros Hinc Hn Hsmall Hq.
  destruct (Rle_dec q (nth 0 xs 0)) as [Hfirst|Hfirst].
  - exists 0%nat. split; [|split; [lia|]].
    + apply findIndex_below; [rewrite length_map; lia|].
      rewrite get_map_Fin by lia. now apply xreal_leb_Fin.
    + pose proof (Hinc 0%nat ltac:(lia)). cbn [Nat.add] in *. lra.
  - destruct (Rle_dec (nth (length xs - 1) xs 0) q) as [Hlast|Hlast].
    + exists (length xs - 2)%nat. split; [|split; [lia|]].
      * rewrite (findIndex_above (map Fin xs) (Fin q)).
        -- rewrite length_map. lia.
        -- rewrite length_map. lia.
        -- rewrite get_map_Fin by lia. apply xreal_leb_Fin_false. lra.
        -- rewrite length_map, get_map_Fin by lia. now apply xreal_leb_Fin.
      * replace (length xs - 2 + 1)%nat with (length xs - 1)%nat by lia.
        pose proof (Hinc (length xs - 2)%nat ltac:(lia)) as Hstep.
        replace (length xs - 2 + 1)%nat with (length xs - 1)%nat in Hstep by lia.
        lra.
    + destruct (findIndex_strictly_inside xs q Hn Hsmall ltac:(lra))
        as (i & Hi & Hlt & Hb).
      exists i. repeat split; try assumption; lra.
Qed.

End SearchExact.

Lemma findIndex_exact_witness :
  exists i, findIndex (map Fin ExampleExact.xs) (Fin 2) = Z.of_nat i /\
    (i + 1 < length ExampleExact.xs)%nat /\
    (nth i ExampleExact.xs 0 <= 2 < nth (i + 1) ExampleExact.xs 0)%R /\
    (increasing ExampleExact.xs ->
     forall j, (j + 1 < length ExampleExact.xs)%nat ->
       (nth j ExampleExact.xs 0 <= 2 < nth (j + 1) ExampleExact.xs 0)%R ->
       j = i).
Proof.
  apply (findIndex_exact ExampleExact.xs 2%R).
  - cbn. lia.
  - cbn. lia.
  - cbn. lra.
Defined.

Section BilinearExact.

Local Open Scope R_scope.

Lemma read_map_Fin (l : list R) k :
  (0 <= k < Z.of_nat (length l))%Z ->
  read (map Fin l) k = Some (Fin (nth (Z.to_nat k) l 0)).
Proof.
  intros Hk. unfold read.
  destruct (Z.ltb_spec k 0); [lia|].
  rewrite nth_error_map, (nth_error_nth' l 0) by lia. reflexivity.
Qed.

Lemma lerp_ge m a b t : m <= a -> m <= b -> 0 <= t <= 1 -> m <= a + (b - a) * t.
Proof. intros. nra. Qed.

Lemma lerp_le m a b t : a <= m -> b <= m -> 0 <= t <= 1 -> a + (b - a) * t <= m.
Proof. intros. nra. Qed.

Lemma weight_range lo hi q : lo < hi -> lo <= q <= hi -> 0 <= (q - lo) / (hi - lo) <= 1.
Proof.
  intros Hlt Hq. split.
  - apply Rmult_le_pos; [lra|]. apply Rlt_le, Rinv_0_lt_compat. lra.
  - apply Rmult_le_reg_r with (hi - lo); [lra|].
    unfold Rdiv. rewrite Rmult_assoc, Rinv_l by lra. lra.
Qed.

Variables (meta : Surface.Meta xreal) (xs ys zs : list R).

Hypothesis cells : length zs = (length xs * length ys)%nat.
Hypothesis increasing_x : increasing xs.
Hypothesis increasing_y : increasing ys.

(** What [bilinearInterpolate] computes once the cell is known. *)
Lemma bilinearInterpolate_cell qx qy i j :
  findIndex (map Fin xs) (Fin qx) = Z.of_nat i ->
  findIndex (map Fin ys) (Fin qy) = Z.of_nat j ->
  (i + 1 < length xs)%nat -> (j + 1 < length ys)%nat ->
  bilinearInterpolate (grid meta xs ys zs) (Fin qx) (Fin qy) =
  Some (Fin (blend (cell_value ys zs i j) (cell_value ys zs i (j + 1))
               (cell_value ys zs (i + 1) j) (cell_value ys zs (i + 1) (j + 1))
               ((qx - nth i xs 0) / (nth (i + 1) xs 0 - nth i xs 0))
               ((qy - nth j ys 0) / (nth (j + 1) ys 0 - nth j ys 0)))).
Proof.
  intros Hxi Hyj Hi Hj.
  pose proof (increasing_x i Hi) as Hdx. pose proof (increasing_y j Hj) as Hdy.
  unfold bilinearInterpolate, cell.
  cbn [grid Surface.x Surface.y Surface.z Surface.nx Surface.ny].
  rewrite Hxi, Hyj.
  rewrite (Z.min_l (Z.of_nat i)), (Z.min_l (Z.of_nat j)) by lia.
  rewrite !Z.max_r by lia.
  rewrite !read_map_Fin by nia.
  cbn [bind].
  replace (Z.to_nat (Z.of_nat i * Z.of_nat (length ys) + Z.of_nat j))
    with (i * length ys + j)%nat by nia.
  replace (Z.to_nat (Z.of_nat i * Z.of_nat (length ys) + (Z.of_nat j + 1)))
    with (i * length ys + (j + 1))%nat by nia.
  replace (Z.to_nat ((Z.of_nat i + 1) * Z.of_nat (length ys) + Z.of_nat j))
    with ((i + 1) * length ys + j)%nat by nia.
  replace (Z.to_nat ((Z.of_nat i + 1) * Z.of_nat (length ys) + (Z.of_nat j + 1)))
    with ((i + 1) * length ys + (j + 1))%nat by nia.
  rewrite !Nat2Z.id.
  replace (Z.to_nat (Z.of_nat i + 1)) with (i + 1)%nat by lia.
  replace (Z.to_nat (Z.of_nat j + 1)) with (j + 1)%nat by lia.
  rewrite !xreal_sub_Fin.
  replace (neqb (Fin (nth (i + 1) xs 0 - nth i xs 0)) (of_Z 0)) with false.
  2:{ symmetry. cbn. destruct (Req_dec_T _ _) as [E|]; [|reflexivity].
      exfalso. cbn in E. lra. }
  replace (neqb (Fin (nth (j + 1) ys 0 - nth j ys 0)) (of_Z 0)) with false.
  2:{ symmetry. cbn. destruct (Req_dec_T _ _) as [E|]; [|reflexivity].
      exfalso. cbn in E. lra. }
  cbn [negb]. rewrite !xreal_div_Fin by lra.
  unfold lerp. xreal_simpl. reflexivity.
Qed.

(** Inside the grid, in exact arithmetic on strictly increasing axes:
    [bilinearInterpolate] uses a cell that holds the query, the two weights
    lie in [[0, 1]], the result is the usual weighted mean of the four
    corner values, and so it lies between the least and the greatest of
    them. *)
Theorem bilinearInterpolate_inside (qx qy : R) :
  (2 <= length xs)%nat -> (2 <= length ys)%nat ->
  (Z.of_nat (length xs) < 2 ^ 31)%Z -> (Z.of_nat (length ys) < 2 ^ 31)%Z ->
  nth 0 xs 0 <= qx <= nth (length xs - 1) xs 0 ->
  nth 0 ys 0 <= qy <= nth (length ys - 1) ys 0 ->
  exists i j v,
    bilinearInterpolate (grid meta xs ys zs) (Fin qx) (Fin qy) = Some (Fin v) /\
    (i + 1 < length xs)%nat /\ (j + 1 < length ys)%nat /\
    nth i xs 0 <= qx <= nth (i + 1) xs 0 /\
    nth j ys 0 <= qy <= nth (j + 1) ys 0 /\
    let tx := (qx - nth i xs 0) / (nth (i + 1) xs 0 - nth i xs 0) in
    let ty := (qy - nth j ys 0) / (nth (j + 1) ys 0 - nth j ys 0) in
    let z00 := cell_value ys zs i j in
    let z01 := cell_value ys zs i (j + 1) in
    let z10 := cell_value ys zs (i + 1) j in
    let z11 := cell_value ys zs (i + 1) (j + 1) in
    0 <= tx <= 1 /\ 0 <= ty <= 1 /\
    v = (1 - tx) * (1 - ty) * z00 + (1 - tx) * ty * z01
        + tx * (1 - ty) * z10 + tx * ty * z11 /\
    Rmin (Rmin z00 z01) (Rmin z10 z11) <= v <= Rmax (Rmax z00 z01) (Rmax z10 z11).
Proof.
  intros Hnx Hny Hsx Hsy Hqx Hqy.
  destruct (findIndex_inside xs qx increasing_x Hnx Hsx Hqx) as (i & Hxi & Hi & Hbx).
  destruct (findIndex_inside ys qy increasing_y Hny Hsy Hqy) as (j & Hyj & Hj & Hby).
  exists i, j. eexists.
  split; [apply (bilinearInterpolate_cell qx qy i j); assumption|].
  repeat (split; [assumption|]).
  pose proof (increasing_x i Hi) as Hdx. pose proof (increasing_y j Hj) as Hdy.
  pose proof (weight_range _ _ qx Hdx Hbx) as Htx.
  pose proof (weight_range _ _ qy Hdy Hby) as Hty.
  cbv zeta.
  set (tx := (qx - nth i xs 0) / (nth (i + 1) xs 0 - nth i xs 0)) in *.
  set (ty := (qy - nth j ys 0) / (nth (j + 1) ys 0 - nth j ys 0)) in *.
  set (z00 := cell_value ys zs i j).
  set (z01 := cell_value ys zs i (j + 1)).
  set (z10 := cell_value ys zs (i + 1) j).
  set (z11 := cell_value ys zs (i + 1) (j + 1)).
  split; [exact Htx|]. split; [exact Hty|].
  split; [unfold blend; ring|].
  unfold blend. split.
  - apply lerp_ge; [| |exact Htx]; apply lerp_ge; try exact Hty.
    + eapply Rle_trans; [apply Rmin_l|apply Rmin_l].
    + eapply Rle_trans; [apply Rmin_l|apply Rmin_r].
    + eapply Rle_trans; [apply Rmin_r|apply Rmin_l].
    + eapply Rle_trans; [apply Rmin_r|apply Rmin_r].
  - apply lerp_le; [| |exact Htx]; apply lerp_le; try exact Hty.
    + eapply Rle_trans; [apply Rmax_l|apply Rmax_l].
    + eapply Rle_trans; [apply Rmax_r|apply Rmax_l].
    + eapply Rle_trans; [apply Rmax_l|apply Rmax_r].
    + eapply Rle_trans; [apply Rmax_r|apply Rmax_r].
Qed.

(** A grid value of an axis lies in the cell left or right of it. *)
Lemma node_in_cell (axis : list R) a i :
  increasing axis -> (a < length axis)%nat -> (i + 1 < length axis)%nat ->
  nth i axis 0 <= nth a axis 0 <= nth (i + 1) axis 0 ->
  a = i \/ a = (i + 1)%nat.
Proof.
  intros Hinc Ha Hi Hb.
  destruct (Nat.lt_trichotomy a i) as [Hlt|[Heq|Hgt]]; [|now left|].
  - pose proof (increasing_lt axis Hinc a i ltac:(lia)). lra.
  - destruct (Nat.eq_dec a (i + 1)) as [|Hne]; [now right|].
    pose proof (increasing_lt axis Hinc (i + 1) a ltac:(lia)). lra.
Qed.

Lemma bilinearInterpolate_node a b :
  (2 <= length xs)%nat -> (2 <= length ys)%nat ->
  (Z.of_nat (length xs) < 2 ^ 31)%Z -> (Z.of_nat (length ys) < 2 ^ 31)%Z ->
  (a < length xs)%nat -> (b < length ys)%nat ->
  bilinearInterpolate (grid meta xs ys zs) (Fin (nth a xs 0)) (Fin (nth b ys 0)) =
  Some (Fin (cell_value ys zs a b)).
Proof.
  intros Hnx Hny Hsx Hsy Ha Hb.
  assert (Hqx : nth 0 xs 0 <= nth a xs 0 <= nth (length xs - 1) xs 0)
    by (split; apply increasing_le; auto; lia).
  assert (Hqy : nth 0 ys 0 <= nth b ys 0 <= nth (length ys - 1) ys 0)
    by (split; apply increasing_le; auto; lia).
  destruct (findIndex_inside xs _ increasing_x Hnx Hsx Hqx) as (i & Hxi & Hi & Hbx).
  destruct (findIndex_inside ys _ increasing_y Hny Hsy Hqy) as (j & Hyj & Hj & Hby).
  rewrite (bilinearInterpolate_cell _ _ i j) by assumption.
  pose proof (increasing_x i Hi) as Hdx. pose proof (increasing_y j Hj) as Hdy.
  do 2 f_equal. unfold blend.
  destruct (node_in_cell xs a i increasing_x Ha Hi Hbx) as [->| ->];
    destruct (node_in_cell ys b j increasing_y Hb Hj Hby) as [->| ->];
    field; lra.
Qed.

(** At a grid node [bilinearInterpolate] returns the value of the node: in
    exact arithmetic, on strictly increasing axes of at least two points
    each, the query [(x[a], y[b])] gives [z[a][b]]. *)
Theorem bilinearInterpolate_reproduces_grid a b :
  (2 <= length xs)%nat -> (2 <= length ys)%nat ->
  (Z.of_nat (length xs) < 2 ^ 31)%Z -> (Z.of_nat (length ys) < 2 ^ 31)%Z ->
  (a < length xs)%nat -> (b < length ys)%nat ->
  bilinearInterpolate (grid meta xs ys zs)
    (get (Surface.x (grid meta xs ys zs)) a)
    (get (Surface.y (grid meta xs ys zs)) b) =
  Some (getZ (grid meta xs ys zs) a b).
Proof.
  intros Hnx Hny Hsx Hsy Ha Hb.
  unfold getZ. cbn [grid Surface.x Surface.y Surface.z Surface.ny].
  rewrite !get_map_Fin by (try assumption; rewrite cells; nia).
  now apply bilinearInterpolate_node.
Qed.

(** A slice along the strikes at a grid expiry is that row of the grid:
    in exact arithmetic, on strictly increasing axes, [sliceAtX] at
    [x[a]] with the bilinear method pairs every strike [y[j]] with
    [z[a][j]], that is with [getRow] of row [a]. *)
Theorem sliceAtX_row a :
  (2 <= length xs)%nat -> (2 <= length ys)%nat ->
  (Z.of_nat (length xs) < 2 ^ 31)%Z -> (Z.of_nat (length ys) < 2 ^ 31)%Z ->
  (a < length xs)%nat ->
  map fst (sliceAtX (grid meta xs ys zs) (Fin (nth a xs 0)) bilinear) =
    Surface.y (grid meta xs ys zs) /\
  map snd (sliceAtX (grid meta xs ys zs) (Fin (nth a xs 0)) bilinear) =
    map Some (getRow (grid meta xs ys zs) a).
Proof.
  intros Hnx Hny Hsx Hsy Ha. unfold sliceAtX.
  cbn [grid Surface.x Surface.y Surface.z Surface.ny]. rewrite !map_map.
  cbn [fst snd interpolate]. split.
  - apply (map_seq_nth Fin 0). intros j Hj. now apply get_map_Fin.
  - unfold getRow. cbn [grid Surface.z Surface.ny].
    replace (a * length ys + length ys - a * length ys)%nat
      with (length ys) by lia.
    rewrite skipn_map, firstn_map, map_map.
    assert (Hrow : length (firstn (length ys) (skipn (a * length ys) zs))
                   = length ys)
      by (rewrite length_firstn, length_skipn; nia).
    rewrite <- Hrow at 1.
    apply (map_seq_nth (fun v => Some (Fin v)) 0). intros j Hj.
    rewrite Hrow in Hj.
    rewrite get_map_Fin by assumption.
    rewrite bilinearInterpolate_node by assumption.
    do 2 f_equal. unfold cell_value.
    rewrite nth_firstn. destruct (Nat.ltb_spec j (length ys)); [|lia].
    now rewrite nth_skipn.
Qed.

End BilinearExact.

Lemma ExampleExact_increasing_x : increasing ExampleExact.xs.
Proof. intros [|[|[|i]]] Hi; cbn in *; try lia; lra. Qed.

Lemma ExampleExact_increasing_y : increasing ExampleExact.ys.
Proof. intros [|[|[|i]]] Hi; cbn in *; try lia; lra. Qed.

(** The query (2, 1) lies in the cell with corners 4, 5, 7, 8. *)
Lemma bilinearInterpolate_inside_witness :
  exists i j v,
    bilinearInterpolate
      (grid ExampleExact.meta ExampleExact.xs ExampleExact.ys ExampleExact.zs)
      (Fin 2) (Fin 1) = Some (Fin v) /\
    (i + 1 < length ExampleExact.xs)%nat /\
    (j + 1 < length ExampleExact.ys)%nat.
Proof.
  destruct (bilinearInterpolate_inside ExampleExact.meta
              ExampleExact.xs ExampleExact.ys ExampleExact.zs
              eq_refl ExampleExact_increasing_x ExampleExact_increasing_y
              2%R 1%R)
    as (i & j & v & Hv & Hi & Hj & _); try (cbn; lia); try (cbn; lra).
  exists i, j, v. auto.
Defined.

Lemma bilinearInterpolate_reproduces_grid_witness :
  bilinearInterpolate
    (grid ExampleExact.meta ExampleExact.xs ExampleExact.ys ExampleExact.zs)
    (get (Surface.x (grid ExampleExact.meta ExampleExact.xs ExampleExact.ys
                       ExampleExact.zs)) 2)
    (get (Surface.y (grid ExampleExact.meta ExampleExact.xs ExampleExact.ys
                       ExampleExact.zs)) 1) =
  Some (getZ (grid ExampleExact.meta ExampleExact.xs ExampleExact.ys
                ExampleExact.zs) 2 1).
Proof.
  apply (bilinearInterpolate_reproduces_grid ExampleExact.meta
           ExampleExact.xs ExampleExact.ys ExampleExact.zs
           eq_refl ExampleExact_increasing_x ExampleExact_increasing_y 2 1);
    cbn; lia.
Defined.

Lemma sliceAtX_row_witness :
  map fst (sliceAtX (grid ExampleExact.meta ExampleExact.xs ExampleExact.ys
                       ExampleExact.zs)
             (Fin (nth 1 ExampleExact.xs 0%R)) bilinear) =
    Surface.y (grid ExampleExact.meta ExampleExact.xs ExampleExact.ys
                 ExampleExact.zs) /\
  map snd (sliceAtX (grid ExampleExact.meta ExampleExact.xs ExampleExact.ys
                       ExampleExact.zs)
             (Fin (nth 1 ExampleExact.xs 0%R)) bilinear) =
    map Some (getRow (grid ExampleExact.meta ExampleExact.xs ExampleExact.ys
                        ExampleExact.zs) 1).
Proof.
  apply (sliceAtX_row ExampleExact.meta
           ExampleExact.xs ExampleExact.ys ExampleExact.zs
           eq_refl ExampleExact_increasing_x ExampleExact_increasing_y 1);
    cbn; lia.
Defined.

(** ** Cubic and bicubic interpolation *)

Section CubicExact.

Local Open Scope R_scope.

(** The cubic through finite values is a finite value, the polynomial. *)
Lemma cubicInterpolate_Fin p0 p1 p2 p3 t :
  cubicInterpolate (Fin p0) (Fin p1) (Fin p2) (Fin p3) (Fin t) =
  Fin (5 / 10 *
       (2 * p1 + (- p0 + p2) * t
        + (2 * p0 - 5 * p1 + 4 * p2 - p3) * (t * t)
        + (- p0 + 3 * p1 - 3 * p2 + p3) * (t * t * t))).
Proof.
  unfold cubicInterpolate. rewrite xreal_dec by lia. xreal_simpl. reflexivity.
Qed.

(** [cubicInterpolate] in exact arithmetic: at [t = 0] it is [p1], at
    [t = 1] it is [p2], and four equally spaced values on a line are
    interpolated linearly. *)
Theorem cubicInterpolate_exact (p0 p1 p2 p3 t : R) :
  exists c,
    cubicInterpolate (Fin p0) (Fin p1) (Fin p2) (Fin p3) (Fin t) = Fin c /\
    (t = 0 -> c = p1) /\
    (t = 1 -> c = p2) /\
    (p1 - p0 = p2 - p1 -> p2 - p1 = p3 - p2 -> c = p1 + (p2 - p1) * t).
Proof.
  eexists. split; [apply cubicInterpolate_Fin|].
  split; [|split].
  - intros ->. field.
  - intros ->. field.
  - intros H1 H2.
    assert (E2 : p2 = 2 * p1 - p0) by lra.
    assert (E3 : p3 = 3 * p1 - 2 * p0) by lra.
    rewrite E3, E2. field.
Qed.

Lemma xreal_add_NaN_r (a : xreal) : nadd a NaN = NaN.
Proof. now destruct a. Qed.

Lemma xreal_mul_NaN_r (a : xreal) : nmul a NaN = NaN.
Proof. now destruct a. Qed.

Lemma xreal_mul_NaN_l (a : xreal) : nmul NaN a = NaN.
Proof. now destruct a. Qed.

Lemma xreal_add_NaN_l (a : xreal) : nadd NaN a = NaN.
Proof. now destruct a. Qed.

Lemma xreal_sub_NaN_l (a : xreal) : nsub NaN a = NaN.
Proof. now destruct a. Qed.

Lemma xreal_div_NaN_r (a : xreal) : ndiv a NaN = NaN.
Proof. now destruct a. Qed.

Lemma cubicInterpolate_NaN_t (p0 p1 p2 p3 : xreal) :
  cubicInterpolate p0 p1 p2 p3 NaN = NaN.
Proof.
  unfold cubicInterpolate.
  now rewrite !xreal_mul_NaN_r, !xreal_add_NaN_r, xreal_mul_NaN_r.
Qed.

Lemma cubicInterpolate_NaN_p (t : xreal) :
  cubicInterpolate NaN NaN NaN NaN t = NaN.
Proof.
  unfold cubicInterpolate.
  now rewrite (xreal_mul_NaN_r (of_Z 2)), !xreal_add_NaN_l, xreal_mul_NaN_r.
Qed.

Lemma get_at_beyond (v : Vec xreal) i :
  (Z.of_nat (length v) <= i)%Z -> get_at v i = NaN.
Proof.
  intros Hi. unfold get_at, get.
  destruct (Z.ltb_spec i 0); [reflexivity|].
  apply nth_overflow. lia.
Qed.

(** [bicubicInterpolate] needs three points on each axis: on a surface
    with fewer on either, in exact arithmetic, it returns NaN for every
    query, because the weight is computed from an axis value that does not
    exist. *)
Theorem bicubicInterpolate_small_grid (s : Surface.t xreal) (x y : xreal) :
  Surface.well_formed s ->
  (Surface.nx s <= 2)%nat \/ (Surface.ny s <= 2)%nat ->
  bicubicInterpolate s x y = NaN.
Proof.
  intros (Hx & Hy & Hz) Hsmall. unfold bicubicInterpolate.
  destruct Hsmall as [Hnx|Hny].
  - rewrite (Z.max_l 1 (Z.min _ (Z.of_nat (Surface.nx s) - 3))) by lia.
    rewrite (get_at_beyond (Surface.x s) (1 + 1)) by lia.
    rewrite xreal_sub_NaN_l.
    change (neqb NaN (of_Z 0)) with false. cbn [negb].
    rewrite xreal_div_NaN_r. apply cubicInterpolate_NaN_t.
  - rewrite (Z.max_l 1 (Z.min _ (Z.of_nat (Surface.ny s) - 3))) by lia.
    rewrite (get_at_beyond (Surface.y s) (1 + 1)) by lia.
    rewrite xreal_sub_NaN_l.
    change (neqb NaN (of_Z 0)) with false. cbn [negb].
    rewrite xreal_div_NaN_r.
    cbn [map]. rewrite !cubicInterpolate_NaN_t.
    cbn [get nth]. apply cubicInterpolate_NaN_p.
Qed.

End CubicExact.

Lemma bicubicInterpolate_small_grid_witness :
  bicubicInterpolate Example.flat_exact (Fin 1) (Fin 90) = NaN.
Proof.
  apply (bicubicInterpolate_small_grid Example.flat_exact (Fin 1) (Fin 90)).
  - repeat split.
  - left. cbn. lia.
Defined.

Section BicubicExact.

Local Open Scope R_scope.

Lemma get_at_map_Fin (l : list R) k :
  (0 <= k < Z.of_nat (length l))%Z ->
  get_at (map Fin l) k = Fin (nth (Z.to_nat k) l 0).
Proof.
  intros Hk. unfold get_at.
  destruct (Z.ltb_spec k 0); [lia|]. apply get_map_Fin. lia.
Qed.

(** The binary search finds an interior grid value in its own cell. *)
Lemma findIndex_node (axis : list R) a :
  increasing axis ->
  (Z.of_nat (length axis) < 2 ^ 31)%Z ->
  (1 <= a)%nat -> (a + 1 < length axis)%nat ->
  findIndex (map Fin axis) (Fin (nth a axis 0)) = Z.of_nat a.
Proof.
  intros Hinc Hsmall Ha1 Ha2.
  destruct (findIndex_strictly_inside axis (nth a axis 0)) as (i & Hi & Hlt & Hb);
    try lia.
  { split; apply increasing_lt; auto; lia. }
  rewrite Hi. f_equal.
  apply (increasing_cell axis (nth a axis 0)); auto.
  split; [lra|]. apply increasing_lt; auto. lia.
Qed.

(** The cell and the weight [bicubicInterpolate] uses along one axis for
    a grid value that is neither the first nor the last. *)
Lemma bicubic_axis (axis : list R) a :
  increasing axis ->
  (1 <= a)%nat -> (a + 1 < length axis)%nat ->
  exists k : nat,
    Z.max 1 (Z.min (Z.of_nat a) (Z.of_nat (length axis) - 3)) = Z.of_nat k /\
    (1 <= k)%nat /\ (k + 1 < length axis)%nat /\
    ((k = a /\
      (nth a axis 0 - nth k axis 0) / (nth (k + 1) axis 0 - nth k axis 0) = 0) \/
     ((k + 1)%nat = a /\
      (nth a axis 0 - nth k axis 0) / (nth (k + 1) axis 0 - nth k axis 0) = 1)).
Proof.
  intros Hinc Ha1 Ha2.
  assert (Hcases : (a + 3 <= length axis \/ a = 1 \/
                    (length axis < a + 3 /\ 2 <= a))%nat) by lia.
  destruct Hcases as [Hin|[Hin|[Hlast Ha3]]].
  - exists a. split; [lia|]. split; [lia|]. split; [lia|].
    left. split; [reflexivity|].
    pose proof (Hinc a ltac:(lia)). field. lra.
  - exists a. split; [lia|]. split; [lia|]. split; [lia|].
    left. split; [reflexivity|].
    pose proof (Hinc a ltac:(lia)). field. lra.
  - exists (a - 1)%nat. split; [lia|]. split; [lia|]. split; [lia|].
    right. split; [lia|].
    replace (a - 1 + 1)%nat with a by lia.
    pose proof (Hinc (a - 1)%nat ltac:(lia)) as Hstep.
    replace (a - 1 + 1)%nat with a in Hstep by lia.
    field. lra.
Qed.

Variables (meta : Surface.Meta xreal) (xs ys zs : list R).

Hypothesis cells : length zs = (length xs * length ys)%nat.
Hypothesis increasing_x : increasing xs.
Hypothesis increasing_y : increasing ys.

(** The value [bicubicInterpolate] reads at possibly outlying indices. *)
Let corner (i j : Z) : R :=
  nth (Z.to_nat (Z.max 0 (Z.min i (Z.of_nat (length xs) - 1))
                 * Z.of_nat (length ys)
                 + Z.max 0 (Z.min j (Z.of_nat (length ys) - 1)))) zs 0.

Lemma bicubic_read i j :
  (1 <= length xs)%nat -> (1 <= length ys)%nat ->
  get_at (map Fin zs)
    (Z.max 0 (Z.min i (Z.of_nat (length xs) - 1)) * Z.of_nat (length ys)
     + Z.max 0 (Z.min j (Z.of_nat (length ys) - 1))) =
  Fin (corner i j).
Proof.
  intros Hnx Hny. apply get_at_map_Fin. rewrite cells.
  set (ci := Z.max 0 (Z.min i (Z.of_nat (length xs) - 1))).
  set (cj := Z.max 0 (Z.min j (Z.of_nat (length ys) - 1))).
  assert (0 <= ci <= Z.of_nat (length xs) - 1)%Z by (unfold ci; lia).
  assert (0 <= cj <= Z.of_nat (length ys) - 1)%Z by (unfold cj; lia).
  nia.
Qed.

(** [bicubicInterpolate] returns the value of a grid node except on the
    first and the last row and column: in exact arithmetic, on strictly
    increasing axes of at least three points each, the query
    [(x[a], y[b])] with [1 <= a <= nx - 2] and [1 <= b <= ny - 2] gives
    [z[a][b]]. *)
Theorem bicubicInterpolate_reproduces_interior a b :
  (Z.of_nat (length xs) < 2 ^ 31)%Z -> (Z.of_nat (length ys) < 2 ^ 31)%Z ->
  (1 <= a)%nat -> (a + 1 < length xs)%nat ->
  (1 <= b)%nat -> (b + 1 < length ys)%nat ->
  bicubicInterpolate (grid meta xs ys zs) (Fin (nth a xs 0)) (Fin (nth b ys 0)) =
  Fin (cell_value ys zs a b).
Proof.
  intros Hsx Hsy Ha1 Ha2 Hb1 Hb2.
  destruct (bicubic_axis xs a increasing_x Ha1 Ha2) as (kx & Hkx & Hkx1 & Hkx2 & Htx).
  destruct (bicubic_axis ys b increasing_y Hb1 Hb2) as (ky & Hky & Hky1 & Hky2 & Hty).
  pose proof (increasing_x kx Hkx2) as Hdx.
  pose proof (increasing_y ky Hky2) as Hdy.
  unfold bicubicInterpolate.
  cbn [grid Surface.x Surface.y Surface.z Surface.nx Surface.ny].
  rewrite !findIndex_node by assumption.
  rewrite Hkx, Hky.
  rewrite !get_at_map_Fin by (rewrite ?length_map; lia).
  rewrite !Nat2Z.id.
  replace (Z.to_nat (Z.of_nat kx + 1)) with (kx + 1)%nat by lia.
  replace (Z.to_nat (Z.of_nat ky + 1)) with (ky + 1)%nat by lia.
  rewrite !xreal_sub_Fin.
  replace (neqb (Fin (nth (kx + 1) xs 0 - nth kx xs 0)) (of_Z 0)) with false.
  2:{ symmetry. cbn. destruct (Req_dec_T _ _) as [E|]; [|reflexivity].
      exfalso. cbn in E. lra. }
  replace (neqb (Fin (nth (ky + 1) ys 0 - nth ky ys 0)) (of_Z 0)) with false.
  2:{ symmetry. cbn. destruct (Req_dec_T _ _) as [E|]; [|reflexivity].
      exfalso. cbn in E. lra. }
  cbn [negb map]. rewrite !xreal_div_Fin by lra.
  rewrite !bicubic_read by lia.
  rewrite !cubicInterpolate_Fin. cbn [get nth].
  rewrite cubicInterpolate_Fin. f_equal.
  assert (Hcorner : forall i j : nat,
            (i < length xs)%nat -> (j < length ys)%nat ->
            corner (Z.of_nat i) (Z.of_nat j) = cell_value ys zs i j).
  { intros i j Hi Hj. unfold corner, cell_value. f_equal. nia. }
  destruct Htx as [[Ekx ->]|[Ekx ->]], Hty as [[Eky ->]|[Eky ->]].
  - rewrite <- (Hcorner a b) by lia. subst kx ky.
    rewrite !Z.add_0_r. field.
  - rewrite <- (Hcorner a b) by lia. subst a b.
    rewrite !Z.add_0_r, Nat2Z.inj_add. cbn [Z.of_nat Pos.of_succ_nat]. field.
  - rewrite <- (Hcorner a b) by lia. subst a b.
    rewrite !Z.add_0_r, Nat2Z.inj_add. cbn [Z.of_nat Pos.of_succ_nat]. field.
  - rewrite <- (Hcorner a b) by lia. subst a b.
    rewrite !Z.add_0_r, !Nat2Z.inj_add. cbn [Z.of_nat Pos.of_succ_nat]. field.
Qed.

End BicubicExact.

Lemma bicubicInterpolate_reproduces_interior_witness :
  bicubicInterpolate
    (grid ExampleExact.meta ExampleExact.xs ExampleExact.ys ExampleExact.zs)
    (Fin (nth 1 ExampleExact.xs 0%R)) (Fin (nth 1 ExampleExact.ys 0%R)) =
  Fin (cell_value ExampleExact.ys ExampleExact.zs 1 1).
Proof.
  apply (bicubicInterpolate_reproduces_interior ExampleExact.meta
           ExampleExact.xs ExampleExact.ys ExampleExact.zs
           eq_refl ExampleExact_increasing_x ExampleExact_increasing_y 1 1);
    cbn; lia.
Defined.

(** ** Nearest-neighbour interpolation *)

Section NearestExact.

Local Open Scope R_scope.

(** The search loop keeps the first index at the least distance seen. *)
Lemma nearest_loop (axis : list R) q k : forall a i,
  (i < a)%nat -> (a + k <= length axis)%nat ->
  (forall m, (m < a)%nat -> Rabs (nth i axis 0 - q) <= Rabs (nth m axis 0 - q)) ->
  (forall m, (m < i)%nat -> Rabs (nth i axis 0 - q) < Rabs (nth m axis 0 - q)) ->
  let r :=
    fst (fold_left
           (fun '(xi, minDist) i =>
              let dist := nabs (nsub (get (map Fin axis) i) (Fin q)) in
              if nltb dist minDist then (i, dist) else (xi, minDist))
           (seq a k) (i, Fin (Rabs (nth i axis 0 - q)))) in
  (r < a + k)%nat /\
  (forall m, (m < a + k)%nat ->
     Rabs (nth r axis 0 - q) <= Rabs (nth m axis 0 - q)) /\
  (forall m, (m < r)%nat -> Rabs (nth r axis 0 - q) < Rabs (nth m axis 0 - q)).
Proof.
  induction k as [|k IH]; intros a i Hi Hlen Hle Hlt; cbn [seq fold_left fst].
  - rewrite Nat.add_0_r. auto.
  - rewrite get_map_Fin by lia. rewrite xreal_sub_Fin, xreal_abs_Fin.
    destruct (Rlt_dec (Rabs (nth a axis 0 - q)) (Rabs (nth i axis 0 - q)))
      as [Hcloser|Hfar].
    + replace (nltb _ _) with true by (symmetry; now apply xreal_ltb_Fin).
      destruct (IH (S a) a) as (Hr & Hmin & Hfirst); try lia.
      * intros m Hm. destruct (Nat.eq_dec m a) as [->|Hne]; [lra|].
        specialize (Hle m ltac:(lia)). lra.
      * intros m Hm. specialize (Hle m Hm). lra.
      * replace (a + S k)%nat with (S a + k)%nat by lia. auto.
    + replace (nltb _ _) with false by (symmetry; apply xreal_ltb_Fin_false; lra).
      destruct (IH (S a) i) as (Hr & Hmin & Hfirst); try lia.
      * intros m Hm. destruct (Nat.eq_dec m a) as [->|Hne]; [lra|].
        apply Hle. lia.
      * exact Hlt.
      * replace (a + S k)%nat with (S a + k)%nat by lia. auto.
Qed.

Lemma nearest_index_spec (axis : list R) q :
  (1 <= length axis)%nat ->
  let r := nearest_index (map Fin axis) (length axis) (Fin q) in
  (r < length axis)%nat /\
  (forall m, (m < length axis)%nat ->
     Rabs (nth r axis 0 - q) <= Rabs (nth m axis 0 - q)) /\
  (forall m, (m < r)%nat -> Rabs (nth r axis 0 - q) < Rabs (nth m axis 0 - q)).
Proof.
  intros Hn. unfold nearest_index.
  rewrite get_map_Fin by lia. rewrite xreal_sub_Fin, xreal_abs_Fin.
  pose proof (nearest_loop axis q (length axis - 1) 1 0) as Hloop.
  replace (1 + (length axis - 1))%nat with (length axis) in Hloop by lia.
  apply Hloop; try lia.
  - intros m Hm. replace m with 0%nat by lia. lra.
Qed.

(** [nearestInterpolate] returns the value of a nearest grid point: in
    exact arithmetic, on a surface of finite values with at least one
    point on each axis, the result is [z[i][j]] where [x[i]] is at the
    least distance from the query among all [x] (the first such) and
    [y[j]] among all [y]. *)
Theorem nearestInterpolate_exact meta (xs ys zs : list R) (qx qy : R) :
  length zs = (length xs * length ys)%nat ->
  (1 <= length xs)%nat -> (1 <= length ys)%nat ->
  exists i j,
    (i < length xs)%nat /\ (j < length ys)%nat /\
    nearestInterpolate (grid meta xs ys zs) (Fin qx) (Fin qy) =
      Some (Fin (cell_value ys zs i j)) /\
    (forall m, (m < length xs)%nat ->
       Rabs (nth i xs 0 - qx) <= Rabs (nth m xs 0 - qx)) /\
    (forall m, (m < i)%nat -> Rabs (nth i xs 0 - qx) < Rabs (nth m xs 0 - qx)) /\
    (forall m, (m < length ys)%nat ->
       Rabs (nth j ys 0 - qy) <= Rabs (nth m ys 0 - qy)) /\
    (forall m, (m < j)%nat -> Rabs (nth j ys 0 - qy) < Rabs (nth m ys 0 - qy)).
Proof.
  intros Hcells Hnx Hny.
  destruct (nearest_index_spec xs qx Hnx) as (Hi & Hix & Hifirst).
  destruct (nearest_index_spec ys qy Hny) as (Hj & Hjy & Hjfirst).
  exists (nearest_index (map Fin xs) (length xs) (Fin qx)),
         (nearest_index (map Fin ys) (length ys) (Fin qy)).
  repeat (split; [assumption|]).
  split; [|repeat split; assumption].
  unfold nearestInterpolate.
  cbn [grid Surface.x Surface.y Surface.z Surface.nx Surface.ny].
  rewrite nth_error_map, (nth_error_nth' zs 0) by (rewrite Hcells; nia).
  reflexivity.
Qed.

End NearestExact.

Lemma nearestInterpolate_exact_witness :
  exists i j,
    (i < length ExampleExact.xs)%nat /\ (j < length ExampleExact.ys)%nat /\
    nearestInterpolate
      (grid ExampleExact.meta ExampleExact.xs ExampleExact.ys ExampleExact.zs)
      (Fin 2) (Fin 1) =
      Some (Fin (cell_value ExampleExact.ys ExampleExact.zs i j)).
Proof.
  destruct (nearestInterpolate_exact ExampleExact.meta
              ExampleExact.xs ExampleExact.ys ExampleExact.zs 2%R 1%R)
    as (i & j & Hi & Hj & Hv & _); try (cbn; lia).
  exists i, j. auto.
Defined.

(** ** The two bilinear interpolators *)

Section ScanExact.

Local Open Scope R_scope.

(** Between the ends of an increasing axis every value is in some cell. *)
Lemma cell_exists (axis : list R) q : forall k,
  (1 <= k < length axis)%nat ->
  nth 0 axis 0 <= q <= nth k axis 0 ->
  exists i, (i < k)%nat /\ nth i axis 0 <= q <= nth (i + 1) axis 0.
Proof.
  induction k as [|k IH]; intros Hk Hq; [lia|].
  destruct (Rle_dec (nth k axis 0) q) as [Hge|Hlt].
  - exists k. split; [lia|]. replace (k + 1)%nat with (S k) by lia. lra.
  - destruct k as [|k]; [lra|].
    destruct IH as (i & Hi & Hb); [lia|lra|].
    exists i. split; [lia|exact Hb].
Qed.

Lemma first_cell_inside (axis : list R) q :
  (2 <= length axis)%nat ->
  nth 0 axis 0 <= q <= nth (length axis - 1) axis 0 ->
  let i := surface_ts.first_cell (map Fin axis) (length axis) (Fin q) in
  (i + 1 < length axis)%nat /\ nth i axis 0 <= q <= nth (i + 1) axis 0.
Proof.
  intros Hn Hq. unfold surface_ts.first_cell.
  destruct (find _ _) as [i|] eqn:E.
  - apply find_some in E. destruct E as [Hin Hp].
    apply in_seq in Hin. apply andb_prop in Hp.
    rewrite !get_map_Fin in Hp by lia.
    destruct Hp as [H1 H2]. apply xreal_leb_Fin in H1, H2.
    split; [lia|lra].
  - exfalso.
    destruct (cell_exists axis q (length axis - 1)) as (i & Hi & Hb);
      [lia|exact Hq|].
    pose proof (find_none _ _ E i) as Hp. cbv beta in Hp.
    rewrite !get_map_Fin in Hp by lia.
    rewrite (proj2 (xreal_leb_Fin _ _)), (proj2 (xreal_leb_Fin _ _)) in Hp
      by lra.
    discriminate Hp. apply in_seq. lia.
Qed.

(** Two cells that hold the same value interpolate alike along the axis:
    they are the same cell, or neighbours that meet at the value. *)
Lemma interpolate_along (axis : list R) q i k (f : nat -> R) :
  increasing axis ->
  (i + 1 < length axis)%nat -> (k + 1 < length axis)%nat ->
  nth i axis 0 <= q <= nth (i + 1) axis 0 ->
  nth k axis 0 <= q <= nth (k + 1) axis 0 ->
  f i * (1 - (q - nth i axis 0) / (nth (i + 1) axis 0 - nth i axis 0))
  + f (i + 1)%nat * ((q - nth i axis 0) / (nth (i + 1) axis 0 - nth i axis 0)) =
  f k + (f (k + 1)%nat - f k)
        * ((q - nth k axis 0) / (nth (k + 1) axis 0 - nth k axis 0)).
Proof.
  intros Hinc Hi Hk Hqi Hqk.
  pose proof (Hinc i Hi) as Hdi. pose proof (Hinc k Hk) as Hdk.
  destruct (Nat.lt_trichotomy i k) as [Hlt|[->|Hgt]].
  - pose proof (increasing_le axis Hinc (i + 1) k ltac:(lia)) as Hle.
    assert (Hik : (i + 1)%nat = k).
    { destruct (Nat.eq_dec (i + 1) k) as [|Hne]; [assumption|].
      pose proof (increasing_lt axis Hinc (i + 1) k ltac:(lia)). lra. }
    subst k. assert (Eq : q = nth (i + 1) axis 0) by lra.
    rewrite Eq. field. lra.
  - field. lra.
  - pose proof (increasing_le axis Hinc (k + 1) i ltac:(lia)) as Hle.
    assert (Hik : (k + 1)%nat = i).
    { destruct (Nat.eq_dec (k + 1) i) as [|Hne]; [assumption|].
      pose proof (increasing_lt axis Hinc (k + 1) i ltac:(lia)). lra. }
    subst i. assert (Eq : q = nth (k + 1) axis 0) by lra.
    rewrite Eq. field. lra.
Qed.

Variables (meta : Surface.Meta xreal) (xs ys zs : list R).

Hypothesis cells : length zs = (length xs * length ys)%nat.
Hypothesis increasing_x : increasing xs.
Hypothesis increasing_y : increasing ys.

(** What [interpolate] of [surface.ts] computes inside the grid. *)
Lemma scan_cell qx qy :
  (2 <= length xs)%nat -> (2 <= length ys)%nat ->
  nth 0 xs 0 <= qx <= nth (length xs - 1) xs 0 ->
  nth 0 ys 0 <= qy <= nth (length ys - 1) ys 0 ->
  let i := surface_ts.first_cell (map Fin xs) (length xs) (Fin qx) in
  let j := surface_ts.first_cell (map Fin ys) (length ys) (Fin qy) in
  let tx := (qx - nth i xs 0) / (nth (i + 1) xs 0 - nth i xs 0) in
  let ty := (qy - nth j ys 0) / (nth (j + 1) ys 0 - nth j ys 0) in
  surface_ts.interpolate (grid meta xs ys zs) (Fin qx) (Fin qy) =
  Fin ((cell_value ys zs i j * (1 - tx) + cell_value ys zs (i + 1) j * tx)
       * (1 - ty)
       + (cell_value ys zs i (j + 1) * (1 - tx)
          + cell_value ys zs (i + 1) (j + 1) * tx) * ty).
Proof.
  intros Hnx Hny Hqx Hqy i j tx ty.
  destruct (first_cell_inside xs qx Hnx Hqx) as [Hi Hbx].
  destruct (first_cell_inside ys qy Hny Hqy) as [Hj Hby].
  fold i in Hi, Hbx. fold j in Hj, Hby.
  pose proof (increasing_x i Hi) as Hdx. pose proof (increasing_y j Hj) as Hdy.
  unfold surface_ts.interpolate.
  cbn [grid Surface.x Surface.y Surface.z Surface.nx Surface.ny].
  fold i j.
  rewrite (Z.min_l (Z.of_nat i + 1)), (Z.min_l (Z.of_nat j + 1)) by lia.
  rewrite !get_at_map_Fin by nia.
  replace (Z.to_nat (Z.of_nat i * Z.of_nat (length ys) + Z.of_nat j))
    with (i * length ys + j)%nat by nia.
  replace (Z.to_nat (Z.of_nat i * Z.of_nat (length ys) + (Z.of_nat j + 1)))
    with (i * length ys + (j + 1))%nat by nia.
  replace (Z.to_nat ((Z.of_nat i + 1) * Z.of_nat (length ys) + Z.of_nat j))
    with ((i + 1) * length ys + j)%nat by nia.
  replace (Z.to_nat ((Z.of_nat i + 1) * Z.of_nat (length ys) + (Z.of_nat j + 1)))
    with ((i + 1) * length ys + (j + 1))%nat by nia.
  rewrite !Nat2Z.id.
  replace (Z.to_nat (Z.of_nat i + 1)) with (i + 1)%nat by lia.
  replace (Z.to_nat (Z.of_nat j + 1)) with (j + 1)%nat by lia.
  replace (neqb (Fin (nth (i + 1) xs 0)) (Fin (nth i xs 0))) with false.
  2:{ symmetry. cbn. destruct (Req_dec_T _ _) as [E|]; [|reflexivity]. lra. }
  replace (neqb (Fin (nth (j + 1) ys 0)) (Fin (nth j ys 0))) with false.
  2:{ symmetry. cbn. destruct (Req_dec_T _ _) as [E|]; [|reflexivity]. lra. }
  rewrite !xreal_sub_Fin, !xreal_div_Fin by lra.
  xreal_simpl. reflexivity.
Qed.

(** The two bilinear interpolators of the code base agree inside the
    grid: in exact arithmetic, on strictly increasing axes of at least two
    points each, [interpolate] of [surface.ts], which scans for the cell,
    and [bilinearInterpolate], which searches for it, return the same
    number for every query between the ends of the axes, also where they
    pick different cells; at a grid node this number is the node's
    value. *)
Theorem interpolate_agree (qx qy : R) :
  (2 <= length xs)%nat -> (2 <= length ys)%nat ->
  (Z.of_nat (length xs) < 2 ^ 31)%Z -> (Z.of_nat (length ys) < 2 ^ 31)%Z ->
  nth 0 xs 0 <= qx <= nth (length xs - 1) xs 0 ->
  nth 0 ys 0 <= qy <= nth (length ys - 1) ys 0 ->
  bilinearInterpolate (grid meta xs ys zs) (Fin qx) (Fin qy) =
    Some (surface_ts.interpolate (grid meta xs ys zs) (Fin qx) (Fin qy)) /\
  (forall a b, (a < length xs)%nat -> (b < length ys)%nat ->
     qx = nth a xs 0 -> qy = nth b ys 0 ->
     surface_ts.interpolate (grid meta xs ys zs) (Fin qx) (Fin qy) =
       getZ (grid meta xs ys zs) a b).
Proof.
  intros Hnx Hny Hsx Hsy Hqx Hqy.
  assert (Hagree :
    bilinearInterpolate (grid meta xs ys zs) (Fin qx) (Fin qy) =
    Some (surface_ts.interpolate (grid meta xs ys zs) (Fin qx) (Fin qy))).
  { destruct (findIndex_inside xs qx increasing_x Hnx Hsx Hqx)
      as (i & Hxi & Hi & Hbx).
    destruct (findIndex_inside ys qy increasing_y Hny Hsy Hqy)
      as (j & Hyj & Hj & Hby).
    rewrite (bilinearInterpolate_cell meta xs ys zs cells
               increasing_x increasing_y qx qy i j) by assumption.
    rewrite scan_cell by assumption.
    destruct (first_cell_inside xs qx Hnx Hqx) as [Hi' Hbx'].
    destruct (first_cell_inside ys qy Hny Hqy) as [Hj' Hby'].
    set (i' := surface_ts.first_cell (map Fin xs) (length xs) (Fin qx)) in *.
    set (j' := surface_ts.first_cell (map Fin ys) (length ys) (Fin qy)) in *.
    do 2 f_equal.
    rewrite (interpolate_along xs qx i' i (fun a => cell_value ys zs a j'))
      by assumption.
    rewrite (interpolate_along xs qx i' i (fun a => cell_value ys zs a (j' + 1)))
      by assumption.
    rewrite (interpolate_along ys qy j' j
               (fun b => cell_value ys zs i b
                         + (cell_value ys zs (i + 1) b - cell_value ys zs i b)
                           * ((qx - nth i xs 0) / (nth (i + 1) xs 0 - nth i xs 0))))
      by assumption.
    unfold blend. ring. }
  split; [exact Hagree|].
  intros a b Ha Hb Ea Eb.
  assert (Hnode : bilinearInterpolate (grid meta xs ys zs) (Fin qx) (Fin qy) =
                  Some (getZ (grid meta xs ys zs) a b)).
  { rewrite Ea, Eb.
    rewrite (bilinearInterpolate_node meta xs ys zs cells increasing_x
               increasing_y) by assumption.
    unfold getZ. cbn [grid Surface.z Surface.ny].
    now rewrite get_map_Fin by (rewrite cells; nia). }
  congruence.
Qed.

End ScanExact.

Lemma interpolate_agree_witness :
  bilinearInterpolate
    (grid ExampleExact.meta ExampleExact.xs ExampleExact.ys ExampleExact.zs)
    (Fin 1) (Fin (5 / 2)) =
  Some (surface_ts.interpolate
          (grid ExampleExact.meta ExampleExact.xs ExampleExact.ys
             ExampleExact.zs)
          (Fin 1) (Fin (5 / 2))).
Proof.
  apply (interpolate_agree ExampleExact.meta
           ExampleExact.xs ExampleExact.ys ExampleExact.zs
           eq_refl ExampleExact_increasing_x ExampleExact_increasing_y
           1%R (5 / 2)%R);
    try (cbn; lia); cbn; lra.
Defined.

(** ** Smoothing *)

Section SmoothGeneric.

Context {num : Type} `{Number num}.

Lemma in_interior nx ny i j :
  In (i, j) (interior nx ny) <->
  1 <= i /\ i + 1 < nx /\ 1 <= j /\ j + 1 < ny.
Proof.
  unfold interior. rewrite in_flat_map. split.
  - intros (i' & Hi & Hj). apply in_map_iff in Hj.
    destruct Hj as (j' & [= <- <-] & Hj).
    apply in_seq in Hi. apply in_seq in Hj. lia.
  - intros (Hi1 & Hi2 & Hj1 & Hj2). exists i. split; [apply in_seq; lia|].
    apply in_map_iff. exists j. split; [reflexivity|apply in_seq; lia].
Qed.

(** A pass over some cells writes those cells only. *)
Lemma smooth_cells_outside (current : Vec num) ny weight cells : forall next k d,
  (forall i j, In (i, j) cells -> k <> i * ny + j) ->
  nth k (fold_left (smooth_cell current ny weight) cells next) d = nth k next d.
Proof.
  induction cells as [|[i j] cells IH]; intros next k d Hk; [reflexivity|].
  cbn [fold_left]. rewrite IH by (intros; apply Hk; now right).
  unfold smooth_cell. apply nth_store_other.
  intros E. apply (Hk i j); [now left|]. now symmetry.
Qed.

Lemma smooth_cells_length (current : Vec num) ny weight cells : forall next,
  length (fold_left (smooth_cell current ny weight) cells next) = length next.
Proof.
  induction cells as [|[i j] cells IH]; intros next; [reflexivity|].
  cbn [fold_left]. rewrite IH. unfold smooth_cell. apply length_store.
Qed.

Lemma smooth_iter_length nx ny weight n : forall z : Vec num,
  length (Nat.iter n (smooth_round nx ny weight) z) = length z.
Proof.
  induction n as [|n IH]; intros z; [reflexivity|].
  rewrite Nat.iter_succ. unfold smooth_round at 1.
  now rewrite smooth_cells_length, IH.
Qed.

Lemma smooth_iter_outside nx ny weight k d n : forall z : Vec num,
  (forall i j, In (i, j) (interior nx ny) -> k <> i * ny + j) ->
  nth k (Nat.iter n (smooth_round nx ny weight) z) d = nth k z d.
Proof.
  induction n as [|n IH]; intros z Hk; [reflexivity|].
  rewrite Nat.iter_succ. unfold smooth_round at 1.
  rewrite smooth_cells_outside by assumption. now apply IH.
Qed.

(** [smoothSurface] changes interior cells only, in any arithmetic and for
    every number of iterations and every weight: the first and the last
    row and column of the grid keep their values, as does anything in [z]
    behind the grid; the axes, the dimensions, the metadata and the length
    of [z] are kept; with no iteration [z] is kept as a whole. *)
Theorem smoothSurface_keeps_border (s : Surface.t num) (iterations : nat)
    (weight : num) :
  let s' := smoothSurface s iterations weight in
  Surface.x s' = Surface.x s /\ Surface.y s' = Surface.y s /\
  Surface.nx s' = Surface.nx s /\ Surface.ny s' = Surface.ny s /\
  Surface.meta s' = Surface.meta s /\
  length (Surface.z s') = length (Surface.z s) /\
  (forall i j, j < Surface.ny s ->
     i = 0 \/ Surface.nx s <= i + 1 \/ j = 0 \/ Surface.ny s <= j + 1 ->
     getZ s' i j = getZ s i j) /\
  (forall k, Surface.nx s * Surface.ny s <= k ->
     get (Surface.z s') k = get (Surface.z s) k) /\
  (iterations = 0 -> Surface.z s' = Surface.z s).
Proof.
  cbn zeta. unfold smoothSurface, getZ, get.
  cbn [Surface.x Surface.y Surface.z Surface.nx Surface.ny Surface.meta].
  repeat (split; [reflexivity|]).
  split; [apply smooth_iter_length|].
  split; [|split].
  - intros i j Hj Hborder. apply smooth_iter_outside.
    intros i' j' Hin E. apply in_interior in Hin.
    assert (i = i') by nia. subst i'.
    assert (j = j') by lia. subst j'. lia.
  - intros k Hk. apply smooth_iter_outside.
    intros i' j' Hin E. apply in_interior in Hin.
    assert ((i' + 1) * Surface.ny s <= Surface.nx s * Surface.ny s)
      by (apply Nat.mul_le_mono_r; lia).
    lia.
  - intros ->. reflexivity.
Qed.

End SmoothGeneric.

Section SmoothExact.

Local Open Scope R_scope.

Variables lo hi : R.

(** A finite value between the two bounds. *)
Let bounded (v : xreal) : Prop := exists r, v = Fin r /\ lo <= r <= hi.

Lemma Forall_store {A} (P : A -> Prop) (v : list A) : forall i a,
  Forall P v -> P a -> Forall P (store v i a).
Proof.
  induction v as [|b v IH]; intros [|i] a Hv Ha; cbn [store]; auto;
    inversion Hv; subst; constructor; auto.
Qed.

Lemma bounded_map (l : list xreal) :
  Forall bounded l ->
  exists rs, l = map Fin rs /\ Forall (fun r => lo <= r <= hi) rs.
Proof.
  induction 1 as [|v l (r & -> & Hr) _ (rs & -> & Hrs)].
  - exists []. split; [reflexivity|constructor].
  - exists (r :: rs). split; [reflexivity|now constructor].
Qed.

Lemma map_bounded (rs : list R) :
  Forall (fun r => lo <= r <= hi) rs -> Forall bounded (map Fin rs).
Proof.
  induction 1 as [|r rs Hr _ IH]; cbn [map]; constructor; auto.
  now exists r.
Qed.

Lemma bounded_get (l : list xreal) k :
  Forall bounded l -> (k < length l)%nat -> bounded (get l k).
Proof.
  intros Hl Hk. unfold get.
  apply (proj1 (Forall_nth bounded l) Hl k NaN Hk).
Qed.

Lemma smooth_cells_bounded (current : Vec xreal) nx ny w cells :
  length current = (nx * ny)%nat -> 0 <= w <= 1 ->
  Forall bounded current ->
  (forall i j, In (i, j) cells -> In (i, j) (interior nx ny)) ->
  forall next, Forall bounded next ->
    Forall bounded (fold_left (smooth_cell current ny (Fin w)) cells next).
Proof.
  intros Hlen Hw Hcur.
  induction cells as [|[i j] cells IH]; intros Hin next Hnext; [exact Hnext|].
  cbn [fold_left]. apply IH; [intros; apply Hin; now right|].
  unfold smooth_cell. apply Forall_store; [exact Hnext|].
  pose proof (proj1 (in_interior nx ny i j) (Hin i j (or_introl eq_refl)))
    as (Hi1 & Hi2 & Hj1 & Hj2).
  destruct (bounded_get current ((i - 1) * ny + j) Hcur ltac:(nia))
    as (a & -> & Ha).
  destruct (bounded_get current ((i + 1) * ny + j) Hcur ltac:(nia))
    as (b & -> & Hb).
  destruct (bounded_get current (i * ny + (j - 1)) Hcur ltac:(nia))
    as (c & -> & Hc).
  destruct (bounded_get current (i * ny + (j + 1)) Hcur ltac:(nia))
    as (d & -> & Hd).
  destruct (bounded_get current (i * ny + j) Hcur ltac:(nia))
    as (e & -> & He).
  xreal_simpl. rewrite xreal_div_Fin by (cbn; lra). xreal_simpl.
  eexists. split; [reflexivity|].
  assert (Havg : lo <= (a + b + c + d) / IZR 4 <= hi) by (cbn; lra).
  cbn [IZR IPR IPR_2] in *. nra.
Qed.

Lemma smooth_iter_bounded nx ny w n : forall z : Vec xreal,
  length z = (nx * ny)%nat -> 0 <= w <= 1 ->
  Forall bounded z ->
  Forall bounded (Nat.iter n (smooth_round nx ny (Fin w)) z).
Proof.
  induction n as [|n IH]; intros z Hlen Hw Hz; [exact Hz|].
  rewrite Nat.iter_succ. unfold smooth_round at 1.
  apply (smooth_cells_bounded _ nx ny w); auto.
  rewrite smooth_iter_length. exact Hlen.
Qed.

(** [smoothSurface] creates no new extremes: in exact arithmetic, for a
    weight in [[0, 1]] and any number of iterations, if every value of the
    grid is finite and lies between two bounds, so does every value of the
    smoothed grid; in particular a constant surface is left as it is. *)
Theorem smoothSurface_bounded meta (xs ys zs : list R) iterations (w : R) :
  length zs = (length xs * length ys)%nat ->
  0 <= w <= 1 ->
  Forall (fun r => lo <= r <= hi) zs ->
  exists zs',
    Surface.z (smoothSurface (grid meta xs ys zs) iterations (Fin w)) =
      map Fin zs' /\
    length zs' = length zs /\
    Forall (fun r => lo <= r <= hi) zs' /\
    (lo = hi -> zs' = zs).
Proof.
  intros Hlen Hw Hzs.
  pose proof (smooth_iter_bounded (length xs) (length ys) w iterations
                (map Fin zs) ltac:(now rewrite length_map) Hw
                (map_bounded zs Hzs)) as Hb.
  destruct (bounded_map _ Hb) as (zs' & Hz' & Hzs').
  exists zs'.
  assert (Hlen' : length zs' = length zs).
  { rewrite <- (length_map Fin zs'), <- Hz', smooth_iter_length.
    apply length_map. }
  split; [exact Hz'|]. split; [exact Hlen'|]. split; [exact Hzs'|].
  intros Heq. apply (nth_ext _ _ 0 0 Hlen'). intros k Hk.
  pose proof (proj1 (Forall_nth _ zs') Hzs' k 0 Hk) as H1.
  pose proof (proj1 (Forall_nth _ zs) Hzs k 0 ltac:(lia)) as H2.
  cbv beta in H1, H2. lra.
Qed.

End SmoothExact.

Lemma smoothSurface_bounded_witness :
  exists zs',
    Surface.z (smoothSurface
                 (grid ExampleExact.meta ExampleExact.xs ExampleExact.ys
                    ExampleExact.zs) 3 (Fin (1 / 2))) = map Fin zs' /\
    length zs' = length ExampleExact.zs /\
    Forall (fun r => (1 <= r <= 9)%R) zs'.
Proof.
  destruct (smoothSurface_bounded 1 9 ExampleExact.meta
              ExampleExact.xs ExampleExact.ys ExampleExact.zs 3 (1 / 2)%R)
    as (zs' & Hz & Hl & Hb & _).
  - reflexivity.
  - lra.
  - repeat constructor; lra.
  - exists zs'. auto.
Defined.

(** ** The summary of all checks and what enforcing keeps *)

Section CheckAll.

Context {num : Type} `{Number num}.

Variable log : num -> num.

Lemma flat_map_Forall {A B} (P : B -> Prop) (f : A -> list B) (l : list A) :
  (forall a, Forall P (f a)) -> Forall P (flat_map f l).
Proof.
  intros Hf. induction l as [|a l IH]; cbn [flat_map]; [constructor|].
  apply Forall_app. auto.
Qed.

Lemma calendar_types surface tolerance :
  Forall (fun v => Violation.type v = calendar)
    (checkCalendarArbitrage surface tolerance).
Proof.
  unfold checkCalendarArbitrage. apply flat_map_Forall. intros j.
  apply flat_map_Forall. intros i. unfold calendar_at. cbv zeta.
  destruct (nltb _ _); repeat constructor.
Qed.

Lemma butterfly_types surface tolerance :
  Forall (fun v => Violation.type v = butterfly)
    (checkButterflyArbitrage surface tolerance).
Proof.
  unfold checkButterflyArbitrage. apply flat_map_Forall. intros i.
  apply flat_map_Forall. intros j. unfold butterfly_at. cbv zeta.
  destruct (nltb _ _); repeat constructor.
Qed.

Lemma vertical_types surface forward tolerance :
  Forall (fun v => Violation.type v = vertical)
    (checkVerticalArbitrage log surface forward tolerance).
Proof.
  unfold checkVerticalArbitrage. apply flat_map_Forall. intros i.
  apply flat_map_Forall. intros j. unfold vertical_at. cbv zeta.
  destruct (nltb _ _); repeat constructor.
Qed.

Lemma filter_all {A} (p : A -> bool) (l : list A) :
  Forall (fun a => p a = true) l -> filter p l = l.
Proof.
  induction 1 as [|a l Ha _ IH]; cbn [filter]; [reflexivity|].
  now rewrite Ha, IH.
Qed.

Lemma filter_none {A} (p : A -> bool) (l : list A) :
  Forall (fun a => p a = false) l -> filter p l = [].
Proof.
  induction 1 as [|a l Ha _ IH]; cbn [filter]; [reflexivity|].
  now rewrite Ha, IH.
Qed.

Lemma filter_typed (t t' : ViolationType) (l : list (Violation.t num)) :
  Forall (fun v => Violation.type v = t') l ->
  filter (is_type t) l = if ViolationType_eqb t' t then l else [].
Proof.
  intros Hl. destruct (ViolationType_eqb t' t) eqn:E.
  - apply filter_all. eapply Forall_impl; [|exact Hl].
    intros v Hv. unfold is_type. now rewrite Hv.
  - apply filter_none. eapply Forall_impl; [|exact Hl].
    intros v Hv. unfold is_type. now rewrite Hv.
Qed.

(** The summary of [checkAllArbitrage] agrees with its list, in any
    arithmetic: each count is the number of records of its type in the
    list and the total is their sum and the length of the list; the
    surface is called arbitrage-free exactly when the list is empty;
    without a forward price, or with one that is 0 or NaN, the vertical
    check is not run and the list is what [checkCalendarArbitrage] returns
    followed by what [checkButterflyArbitrage] returns; with any other
    forward price the list is those two followed by what
    [checkVerticalArbitrage] returns for that price; and the records of the
    three checks have the types calendar, butterfly and vertical. *)
Theorem checkAllArbitrage_summary (surface : Surface.t num)
    (forward : option num) (tolerance : num) :
  let result := checkAllArbitrage log surface forward tolerance in
  let count t := length (filter (is_type t) (CheckResult.violations result)) in
  CheckResult.n_calendar (CheckResult.summary result) = count calendar /\
  CheckResult.n_butterfly (CheckResult.summary result) = count butterfly /\
  CheckResult.n_vertical (CheckResult.summary result) = count vertical /\
  CheckResult.total (CheckResult.summary result) =
    count calendar + count butterfly + count vertical /\
  CheckResult.total (CheckResult.summary result) =
    length (CheckResult.violations result) /\
  (CheckResult.arbitrageFree result = true <->
   CheckResult.violations result = []) /\
  (forward = None \/ (exists f, forward = Some f /\ truthy f = false) ->
   CheckResult.violations result =
     checkCalendarArbitrage surface tolerance
     ++ checkButterflyArbitrage surface tolerance /\
   CheckResult.n_vertical (CheckResult.summary result) = 0) /\
  (forall f, forward = Some f -> truthy f = true ->
   CheckResult.violations result =
     checkCalendarArbitrage surface tolerance
     ++ checkButterflyArbitrage surface tolerance
     ++ checkVerticalArbitrage log surface f tolerance) /\
  Forall (fun v => Violation.type v = calendar)
    (checkCalendarArbitrage surface tolerance) /\
  Forall (fun v => Violation.type v = butterfly)
    (checkButterflyArbitrage surface tolerance) /\
  (forall f, Forall (fun v => Violation.type v = vertical)
               (checkVerticalArbitrage log surface f tolerance)).
Proof.
  cbv beta zeta.
  assert (Hcount : forall t,
    length (filter (is_type t)
              (CheckResult.violations
                 (checkAllArbitrage log surface forward tolerance))) =
    match t with
    | calendar =>
        CheckResult.n_calendar
          (CheckResult.summary (checkAllArbitrage log surface forward tolerance))
    | butterfly =>
        CheckResult.n_butterfly
          (CheckResult.summary (checkAllArbitrage log surface forward tolerance))
    | vertical =>
        CheckResult.n_vertical
          (CheckResult.summary (checkAllArbitrage log surface forward tolerance))
    end).
  { intros t. unfold checkAllArbitrage.
    cbn [CheckResult.violations CheckResult.summary CheckResult.n_calendar
         CheckResult.n_butterfly CheckResult.n_vertical].
    rewrite !filter_app.
    rewrite (filter_typed t calendar) by apply calendar_types.
    rewrite (filter_typed t butterfly) by apply butterfly_types.
    rewrite (filter_typed t vertical).
    2:{ destruct forward as [f|]; [|constructor].
        destruct (truthy f); [apply vertical_types|constructor]. }
    destruct t; cbn [ViolationType_eqb app]; rewrite ?app_nil_r; reflexivity. }
  rewrite (Hcount calendar), (Hcount butterfly), (Hcount vertical).
  repeat (split; [reflexivity|]).
  split.
  { unfold checkAllArbitrage.
    cbn [CheckResult.summary CheckResult.total CheckResult.n_calendar
         CheckResult.n_butterfly CheckResult.n_vertical].
    rewrite !length_app. lia. }
  split; [reflexivity|].
  split; [apply arbitrageFree_spec|].
  split.
  { intros Hforward. unfold checkAllArbitrage.
    cbn [CheckResult.violations CheckResult.summary CheckResult.n_vertical].
    destruct Hforward as [->|(f & -> & ->)]; now rewrite app_nil_r. }
  split.
  { intros f -> Hf. unfold checkAllArbitrage.
    cbn [CheckResult.violations]. now rewrite Hf. }
  split; [apply calendar_types|].
  split; [apply butterfly_types|].
  intros f. apply vertical_types.
Qed.

Lemma with_z_same (s : Surface.t num) : Surface.with_z s (Surface.z s) = s.
Proof. now destruct s. Qed.

Lemma fix_calendar_length current (z : Vec num) v :
  length (fix_calendar current z v) = length z.
Proof.
  unfold fix_calendar. cbv zeta.
  destruct (findIndexBy _ _); [|reflexivity].
  destruct (find _ _); [|reflexivity].
  apply length_store.
Qed.

Lemma fix_butterfly_length current (z : Vec num) v :
  length (fix_butterfly current z v) = length z.
Proof.
  unfold fix_butterfly. cbv zeta.
  destruct (findIndexBy _ _); [|reflexivity].
  destruct (findIndexBy _ _); [|reflexivity].
  destruct (_ || _); [reflexivity|]. apply length_store.
Qed.

Lemma fold_length {A B} (f : list A -> B -> list A) (l : list B) :
  (forall z v, length (f z v) = length z) ->
  forall z, length (fold_left f l z) = length z.
Proof.
  intros Hf. induction l as [|v l IH]; intros z; [reflexivity|].
  cbn [fold_left]. now rewrite IH, Hf.
Qed.

Lemma correct_same_frame current violations :
  same_frame (correct current violations) current.
Proof.
  unfold same_frame, correct. cbv zeta.
  cbn [Surface.with_z Surface.x Surface.y Surface.z Surface.nx Surface.ny
       Surface.meta].
  repeat (split; [reflexivity|]).
  rewrite (fold_length (fix_butterfly current))
    by apply fix_butterfly_length.
  apply (fold_length (fix_calendar current)), fix_calendar_length.
Qed.

Lemma same_frame_trans (a b c : Surface.t num) :
  same_frame a b -> same_frame b c -> same_frame a c.
Proof.
  unfold same_frame.
  intros (? & ? & ? & ? & ? & ?) (? & ? & ? & ? & ? & ?).
  repeat split; congruence.
Qed.

Lemma enforce_loop_same_frame rounds : forall current tolerance,
  same_frame (fst (enforce_loop log rounds current tolerance)) current.
Proof.
  induction rounds as [|n IH]; intros current tolerance; cbn [enforce_loop].
  - repeat split.
  - destruct (CheckResult.arbitrageFree _); [repeat split|].
    specialize (IH (correct current
                      (CheckResult.violations
                         (checkAllArbitrage log current None tolerance)))
                   tolerance).
    destruct (enforce_loop log n _ tolerance) as [final applied].
    cbn [fst] in *.
    eapply same_frame_trans; [exact IH|apply correct_same_frame].
Qed.

(** [enforceArbitrageFree] only ever changes values of [z], in any
    arithmetic: the axes, the dimensions, the metadata and the length of
    [z] of the result are those of the input, so a surface that satisfies
    the length relations still does; a surface that [checkAllArbitrage]
    already finds arbitrage-free comes back with the same [z], as does any
    surface when no iteration is allowed; and never more rounds of
    corrections are applied than [maxIterations]. *)
Theorem enforceArbitrageFree_keeps_frame (surface : Surface.t num)
    (maxIterations : nat) (tolerance : num) :
  let result := enforceArbitrageFree log surface maxIterations tolerance in
  same_frame result surface /\
  (Surface.well_formed surface -> Surface.well_formed result) /\
  (CheckResult.arbitrageFree
     (checkAllArbitrage log surface None tolerance) = true ->
   result = surface) /\
  (maxIterations = 0 -> result = surface) /\
  correctionRounds log surface maxIterations tolerance <= maxIterations.
Proof.
  cbv zeta. unfold enforceArbitrageFree, correctionRounds.
  rewrite with_z_same.
  pose proof (enforce_loop_same_frame maxIterations surface tolerance) as Hsame.
  split; [exact Hsame|]. split; [|split; [|split]].
  - destruct Hsame as (Hx & Hy & Hnx & Hny & _ & Hz).
    unfold Surface.well_formed. rewrite Hx, Hy, Hnx, Hny, Hz. auto.
  - intros Hfree. destruct maxIterations; cbn [enforce_loop]; [reflexivity|].
    now rewrite Hfree.
  - intros ->. reflexivity.
  - apply enforce_loop_bound.
Qed.

End CheckAll.

(** ** Projection after a rotation *)

Section ProjectRotate.

Local Open Scope R_scope.

Lemma rem_360_turns (a : R) :
  nrem (Fin a) (Fin 360) = Fin (a - 360 * IZR (XReal.trunc (a / 360))).
Proof. cbn. destruct (Req_dec_T 360 0); [lra|reflexivity]. Qed.

Lemma IZR_pos_INR p : IZR (Z.pos p) = INR (Pos.to_nat p).
Proof. now rewrite INR_IZR_INZ, positive_nat_Z. Qed.

Lemma cos_turns x (k : Z) : cos (x + 2 * IZR k * PI) = cos x.
Proof.
  destruct k as [|p|p].
  - f_equal. lra.
  - rewrite (IZR_pos_INR p). apply cos_period.
  - rewrite <- (cos_period (x + 2 * IZR (Z.neg p) * PI) (Pos.to_nat p)).
    f_equal. change (Z.neg p) with (- Z.pos p)%Z.
    rewrite opp_IZR, (IZR_pos_INR p). lra.
Qed.

Lemma sin_turns x (k : Z) : sin (x + 2 * IZR k * PI) = sin x.
Proof.
  destruct k as [|p|p].
  - f_equal. lra.
  - rewrite (IZR_pos_INR p). apply sin_period.
  - rewrite <- (sin_period (x + 2 * IZR (Z.neg p) * PI) (Pos.to_nat p)).
    f_equal. change (Z.neg p) with (- Z.pos p)%Z.
    rewrite opp_IZR, (IZR_pos_INR p). lra.
Qed.

Variables (az el zm cx cy ar : R).

Let p : Projection.t xreal :=
  {| Projection.azimuth := Fin az;
     Projection.elevation := Fin el;
     Projection.zoom := Fin zm;
     Projection.centerX := Fin cx;
     Projection.centerY := Fin cy;
     Projection.aspectRatio := Fin ar |}.

(** In exact arithmetic, for a camera of finite fields, finite deltas and
    a finite point: projecting through the rotated camera gives the picture
    of the camera whose azimuth is [azimuth + dAz], not reduced, and whose
    elevation is [elevation + dEl] clamped to [-89, 89].  The whole turns
    the remainder takes away or leaves, also when it leaves the stored
    azimuth negative, do not show. *)
Theorem project3D_rotateProjection (dAz dEl x y z_val : R) :
  project3D {| p3_x := Fin x; p3_y := Fin y; p3_z := Fin z_val |}
    (rotateProjection p (Fin dAz) (Fin dEl)) =
  project3D {| p3_x := Fin x; p3_y := Fin y; p3_z := Fin z_val |}
    {| Projection.azimuth := Fin (az + dAz);
       Projection.elevation := Fin (Rmax (-89) (Rmin 89 (el + dEl)));
       Projection.zoom := Fin zm;
       Projection.centerX := Fin cx;
       Projection.centerY := Fin cy;
       Projection.aspectRatio := Fin ar |}.
Proof.
  unfold rotateProjection, project3D.
  cbn [Projection.azimuth Projection.elevation Projection.zoom
       Projection.centerX Projection.centerY Projection.aspectRatio
       p3_x p3_y p3_z p].
  rewrite DEG2RAD_xreal.
  xreal_simpl. rewrite rem_360_turns. xreal_simpl.
  cbn [ncos nsin xreal_Trig].
  set (k := XReal.trunc ((az + dAz + 360) / 360)).
  replace ((az + dAz + 360 - 360 * IZR k) * (PI / 180))
    with ((az + dAz) * (PI / 180) + 2 * IZR (1 - k) * PI)
    by (rewrite minus_IZR; field).
  now rewrite cos_turns, sin_turns.
Qed.

(** In exact arithmetic, for a camera and a point of finite fields: the
    projection is a rotation followed by a scaling.  With the screen offsets
    taken back to the scale of the depth, the squares of the three outputs
    add up to the squared length of the point. *)
Theorem project3D_keeps_length (x y z_val : R) :
  exists X Y D,
    project3D {| p3_x := Fin x; p3_y := Fin y; p3_z := Fin z_val |} p =
      {| p2_x := Fin X; p2_y := Fin Y; depth := Fin D |} /\
    (X - cx) * (X - cx) * (ar * ar) + (Y - cy) * (Y - cy)
      + D * D * (zm * zm * (ar * ar)) =
    zm * zm * (ar * ar) * (x * x + y * y + z_val * z_val).
Proof.
  unfold project3D.
  cbn [Projection.azimuth Projection.elevation Projection.zoom
       Projection.centerX Projection.centerY Projection.aspectRatio
       p3_x p3_y p3_z p].
  rewrite DEG2RAD_xreal.
  xreal_simpl. cbn [ncos nsin xreal_Trig]. xreal_simpl.
  do 3 eexists. split; [reflexivity|].
  pose proof (sin2_cos2 (az * (PI / 180))) as HA.
  pose proof (sin2_cos2 (el * (PI / 180))) as HE.
  unfold Rsqr in HA, HE.
  set (cA := cos (az * (PI / 180))) in *.
  set (sA := sin (az * (PI / 180))) in *.
  set (cE := cos (el * (PI / 180))) in *.
  set (sE := sin (el * (PI / 180))) in *.
  assert (HA' : cA * cA = 1 - sA * sA) by lra.
  assert (HE' : cE * cE = 1 - sE * sE) by lra.
  replace ((cx + (x * cA - y * sA) * zm - cx) * (cx + (x * cA - y * sA) * zm - cx)
           * (ar * ar)
           + (cy - ((x * sA + y * cA) * sE + z_val * cE) * zm * ar - cy)
             * (cy - ((x * sA + y * cA) * sE + z_val * cE) * zm * ar - cy)
           + ((x * sA + y * cA) * cE - z_val * sE)
             * ((x * sA + y * cA) * cE - z_val * sE) * (zm * zm * (ar * ar)))
    with (zm * zm * (ar * ar)
          * (x * x * (cA * cA) + y * y * (sA * sA)
             + ((x * sA + y * cA) * (x * sA + y * cA)) * (sE * sE + cE * cE)
             + z_val * z_val * (cE * cE + sE * sE)
             - 2 * x * y * cA * sA)) by ring.
  rewrite HE'.
  replace (sE * sE + (1 - sE * sE)) with 1 by ring.
  replace (1 - sE * sE + sE * sE) with 1 by ring.
  replace (x * x * (cA * cA) + y * y * (sA * sA)
           + (x * sA + y * cA) * (x * sA + y * cA) * 1
           + z_val * z_val * 1 - 2 * x * y * cA * sA)
    with (x * x * (cA * cA + sA * sA) + y * y * (sA * sA + cA * cA)
          + z_val * z_val) by ring.
  rewrite HA'. f_equal. ring.
Qed.

End ProjectRotate.

(** ** Points in bounds *)

Section NormalizeExact.

Local Open Scope R_scope.

Lemma or_else_Fin (r : R) :
  or_else (Fin r) (of_Z 1) = Fin (if Req_dec_T r 0 then 1 else r).
Proof.
  unfold or_else, truthy. rewrite xreal_of_Z. cbn.
  destruct (Req_dec_T r 0), (Req_dec_T r r); try reflexivity; congruence.
Qed.

Lemma normalize_coord (lo hi v : R) :
  lo <= v <= hi ->
  exists u,
    ((Fin v - Fin lo) / or_else (Fin hi - Fin lo) (of_Z 1) * of_Z 2
     - of_Z 1)%num = Fin u /\
    -1 <= u <= 1 /\
    (lo < hi -> v = lo -> u = -1) /\
    (lo < hi -> v = hi -> u = 1) /\
    (lo = hi -> u = -1).
Proof.
  intros Hv. xreal_simpl. rewrite or_else_Fin.
  destruct (Req_dec_T (hi - lo) 0) as [E|E].
  - rewrite xreal_div_Fin by lra. xreal_simpl.
    eexists. split; [reflexivity|].
    assert (v = lo) by lra. subst v.
    replace ((lo - lo) / 1 * 2 - 1) with (-1) by (field; lra).
    repeat split; intros; lra.
  - rewrite xreal_div_Fin by assumption. xreal_simpl.
    eexists. split; [reflexivity|].
    assert (Hpos : 0 < hi - lo) by lra.
    assert (H0 : 0 <= (v - lo) / (hi - lo)).
    { apply Rmult_le_pos; [lra|]. left. now apply Rinv_0_lt_compat. }
    assert (H1 : (v - lo) / (hi - lo) <= 1).
    { apply Rmult_le_reg_r with (hi - lo); [assumption|].
      replace ((v - lo) / (hi - lo) * (hi - lo)) with (v - lo)
        by (field; assumption). lra. }
    split; [lra|]. split; [|split].
    + intros _ ->. replace ((lo - lo) / (hi - lo)) with 0 by (field; lra). lra.
    + intros _ ->. replace ((hi - lo) / (hi - lo)) with 1 by (field; lra). lra.
    + intros ->. lra.
Qed.

(** In exact arithmetic, for finite bounds and a finite point within them:
    [normalizePoint] returns finite coordinates between -1 and 1; on an
    axis whose bounds differ the lower bound goes to -1 and the upper one
    to 1, and on an axis whose two bounds are equal the coordinate is
    -1. *)
Theorem normalizePoint_range (x0 x1 y0 y1 z0 z1 x y z_val : R) :
  x0 <= x <= x1 -> y0 <= y <= y1 -> z0 <= z_val <= z1 ->
  let bounds := mkBounds (Fin x0) (Fin x1) (Fin y0) (Fin y1) (Fin z0) (Fin z1) in
  exists u v w,
    normalizePoint (mkPoint3D (Fin x) (Fin y) (Fin z_val)) bounds =
      mkPoint3D (Fin u) (Fin v) (Fin w) /\
    (-1 <= u <= 1 /\ -1 <= v <= 1 /\ -1 <= w <= 1) /\
    (x0 < x1 -> (x = x0 -> u = -1) /\ (x = x1 -> u = 1)) /\
    (x0 = x1 -> u = -1).
Proof.
  intros Hx Hy Hz bounds.
  destruct (normalize_coord x0 x1 x Hx) as (u & Eu & Hu & Hlo & Hhi & Hflat).
  destruct (normalize_coord y0 y1 y Hy) as (v & Ev & Hv & _).
  destruct (normalize_coord z0 z1 z_val Hz) as (w & Ew & Hw & _).
  exists u, v, w. unfold normalizePoint.
  cbn [bounds xMin xMax yMin yMax zMin zMax p3_x p3_y p3_z].
  rewrite Eu, Ev, Ew.
  repeat split; auto; lra.
Qed.

Lemma normalizePoint_range_witness :
  exists u v w,
    normalizePoint (mkPoint3D (Fin 1) (Fin 5) (Fin 2))
      (mkBounds (Fin 1) (Fin 3) (Fin 0) (Fin 10) (Fin 2) (Fin 2)) =
      mkPoint3D (Fin u) (Fin v) (Fin w) /\
    (-1 <= u <= 1 /\ -1 <= v <= 1 /\ -1 <= w <= 1) /\
    (1 < 3 -> (1 = 1 -> u = -1) /\ (1 = 3 -> u = 1)) /\
    (1 = 3 -> u = -1).
Proof.
  apply (normalizePoint_range 1 3 0 10 2 2 1 5 2); lra.
Defined.

End NormalizeExact.

(** ** Slopes *)

Section SlopeGeneric.

Context {num : Type} `{Number num}.

Variable atan2 : num -> num -> num.

Lemma in_grid_cells nx ny xi yi :
  In (xi, yi) (grid_cells nx ny) <-> (xi < nx /\ yi < ny)%nat.
Proof.
  unfold grid_cells. rewrite in_flat_map. split.
  - intros (i & Hi & Hin). apply in_map_iff in Hin as (j & E & Hj).
    injection E as -> ->. apply in_seq in Hi, Hj. lia.
  - intros [Hx Hy]. exists xi. split; [apply in_seq; lia|].
    apply in_map_iff. exists yi. split; [reflexivity|apply in_seq; lia].
Qed.

Lemma cell_index_inj ny xi yi xi' yi' :
  (yi < ny)%nat -> (yi' < ny)%nat ->
  (xi * ny + yi = xi' * ny + yi')%nat -> xi = xi' /\ yi = yi'.
Proof.
  intros Hy Hy' E.
  assert (xi = xi') by nia. subst. split; [reflexivity|lia].
Qed.

(** What the two loops leave in the four arrays at a cell they visit. *)
Lemma slope_loop (s : Surface.t num) (n : nat) : forall cells acc,
  (forall xi yi, In (xi, yi) cells ->
     (yi < Surface.ny s /\ xi * Surface.ny s + yi < n)%nat) ->
  length (SlopeData.dz_dx acc) = n ->
  length (SlopeData.dz_dy acc) = n ->
  length (SlopeData.magnitude acc) = n ->
  length (SlopeData.angle acc) = n ->
  let out := fold_left (slope_cell atan2 s) cells acc in
  (length (SlopeData.dz_dx out) = n /\
   length (SlopeData.dz_dy out) = n /\
   length (SlopeData.magnitude out) = n /\
   length (SlopeData.angle out) = n) /\
  forall xi yi, In (xi, yi) cells ->
    let idx := (xi * Surface.ny s + yi)%nat in
    let dx := slope_dx s xi yi in
    let dy := slope_dy s xi yi in
    get (SlopeData.dz_dx out) idx = dx /\
    get (SlopeData.dz_dy out) idx = dy /\
    get (SlopeData.magnitude out) idx = nsqrt (nadd (nmul dx dx) (nmul dy dy)) /\
    get (SlopeData.angle out) idx = atan2 dy dx.
Proof.
  induction cells as [|c cells IH] using rev_ind; intros acc Hin L1 L2 L3 L4.
  - cbn. split; [auto|]. intros ? ? [].
  - cbv zeta. rewrite fold_left_app. cbn [fold_left].
    destruct (IH acc (fun xi yi Hi =>
                        Hin xi yi (in_or_app _ _ _ (or_introl Hi)))
                L1 L2 L3 L4) as [(K1 & K2 & K3 & K4) Hcells].
    set (out := fold_left (slope_cell atan2 s) cells acc) in *.
    destruct c as [ci cj].
    destruct (Hin ci cj) as [Hcj Hc]; [apply in_or_app; right; now left|].
    unfold slope_cell at 1 2 3 4 5 6 7 8.
    cbn [SlopeData.dz_dx SlopeData.dz_dy SlopeData.magnitude SlopeData.angle].
    split; [now rewrite !length_store|].
    intros xi yi Hi.
    destruct (Hin xi yi Hi) as [Hyi Hidx].
    destruct (Nat.eq_dec (ci * Surface.ny s + cj) (xi * Surface.ny s + yi))
      as [E|E].
    + destruct (cell_index_inj _ _ _ _ _ Hcj Hyi E) as [-> ->].
      unfold get. rewrite !nth_store_same by lia. auto.
    + unfold get. rewrite !nth_store_other by assumption.
      apply in_app_or in Hi as [Hi|[Hi|[]]].
      * apply (Hcells xi yi Hi).
      * injection Hi as -> ->. contradiction.
Qed.

Lemma computeSlope_cell (s : Surface.t num) xi yi :
  (xi < Surface.nx s)%nat -> (yi < Surface.ny s)%nat ->
  let out := computeSlope atan2 s in
  let idx := (xi * Surface.ny s + yi)%nat in
  let dx := slope_dx s xi yi in
  let dy := slope_dy s xi yi in
  get (SlopeData.dz_dx out) idx = dx /\
  get (SlopeData.dz_dy out) idx = dy /\
  get (SlopeData.magnitude out) idx = nsqrt (nadd (nmul dx dx) (nmul dy dy)) /\
  get (SlopeData.angle out) idx = atan2 dy dx.
Proof.
  intros Hx Hy. unfold computeSlope.
  refine (proj2 (slope_loop s (Surface.nx s * Surface.ny s) _ _ _ _ _ _ _)
            xi yi _).
  - intros i j Hi. apply in_grid_cells in Hi. split; [lia|nia].
  - apply repeat_length.
  - apply repeat_length.
  - apply repeat_length.
  - apply repeat_length.
  - apply in_grid_cells. auto.
Qed.

End SlopeGeneric.

Section SlopeExact.

Local Open Scope R_scope.

Variable atan2 : xreal -> xreal -> xreal.

Variables (meta : Surface.Meta xreal) (xs ys zs : list R).

Let s := grid meta xs ys zs.

Lemma getZ_grid i j :
  (i * length ys + j < length zs)%nat ->
  getZ s i j = Fin (cell_value ys zs i j).
Proof. intros Hi. unfold getZ, s, grid. cbn. now apply get_map_Fin. Qed.

Variables (a b c : R).

Hypothesis cells : length zs = (length xs * length ys)%nat.
Hypothesis increasing_x : increasing xs.
Hypothesis increasing_y : increasing ys.
Hypothesis plane : forall i j, (i < length xs)%nat -> (j < length ys)%nat ->
  cell_value ys zs i j = c + a * nth i xs 0 + b * nth j ys 0.

Lemma getZ_plane i j :
  (i < length xs)%nat -> (j < length ys)%nat ->
  getZ s i j = Fin (c + a * nth i xs 0 + b * nth j ys 0).
Proof.
  intros Hi Hj. rewrite getZ_grid by (rewrite cells; nia).
  now rewrite plane.
Qed.

Lemma slope_dx_plane i j :
  (2 <= length xs)%nat -> (i < length xs)%nat -> (j < length ys)%nat ->
  slope_dx s i j = Fin a.
Proof.
  intros H2 Hi Hj. unfold slope_dx.
  change (Surface.nx s) with (length xs).
  change (Surface.x s) with (map Fin xs).
  destruct (Nat.eqb_spec i 0) as [E0|E0];
    [|destruct (Nat.eqb_spec i (length xs - 1)) as [E1|E1]].
  - subst i. cbn [Nat.add].
    rewrite !getZ_plane, !get_map_Fin by lia.
    pose proof (increasing_x 0%nat ltac:(lia)) as Hlt. cbn [Nat.add] in Hlt.
    xreal_simpl. rewrite xreal_div_Fin by lra. f_equal. field. lra.
  - rewrite !getZ_plane, !get_map_Fin by lia.
    pose proof (increasing_x (i - 1)%nat ltac:(lia)) as Hlt.
    replace (i - 1 + 1)%nat with i in Hlt by lia.
    xreal_simpl. rewrite xreal_div_Fin by lra. f_equal. field. lra.
  - rewrite !getZ_plane, !get_map_Fin by lia.
    pose proof (increasing_x (i - 1)%nat ltac:(lia)) as Hlt.
    replace (i - 1 + 1)%nat with i in Hlt by lia.
    pose proof (increasing_x i ltac:(lia)) as Hlt'.
    xreal_simpl. rewrite xreal_div_Fin by lra. f_equal. field. lra.
Qed.

Lemma slope_dy_plane i j :
  (2 <= length ys)%nat -> (i < length xs)%nat -> (j < length ys)%nat ->
  slope_dy s i j = Fin b.
Proof.
  intros H2 Hi Hj. unfold slope_dy.
  change (Surface.ny s) with (length ys).
  change (Surface.y s) with (map Fin ys).
  destruct (Nat.eqb_spec j 0) as [E0|E0];
    [|destruct (Nat.eqb_spec j (length ys - 1)) as [E1|E1]].
  - subst j. cbn [Nat.add].
    rewrite !getZ_plane, !get_map_Fin by lia.
    pose proof (increasing_y 0%nat ltac:(lia)) as Hlt. cbn [Nat.add] in Hlt.
    xreal_simpl. rewrite xreal_div_Fin by lra. f_equal. field. lra.
  - rewrite !getZ_plane, !get_map_Fin by lia.
    pose proof (increasing_y (j - 1)%nat ltac:(lia)) as Hlt.
    replace (j - 1 + 1)%nat with j in Hlt by lia.
    xreal_simpl. rewrite xreal_div_Fin by lra. f_equal. field. lra.
  - rewrite !getZ_plane, !get_map_Fin by lia.
    pose proof (increasing_y (j - 1)%nat ltac:(lia)) as Hlt.
    replace (j - 1 + 1)%nat with j in Hlt by lia.
    pose proof (increasing_y j ltac:(lia)) as Hlt'.
    xreal_simpl. rewrite xreal_div_Fin by lra. f_equal. field. lra.
Qed.

(** In exact arithmetic, on a grid with strictly increasing axes of at
    least two points each whose values lie on the plane
    [z = c + a x + b y]: at every cell, also on the border where the
    difference is one-sided, [computeSlope] gives [dz_dx = a],
    [dz_dy = b] and the magnitude [sqrt (a^2 + b^2)]. *)
Theorem computeSlope_plane i j :
  (2 <= length xs)%nat -> (2 <= length ys)%nat ->
  (i < length xs)%nat -> (j < length ys)%nat ->
  let slope := computeSlope atan2 (grid meta xs ys zs) in
  let idx := (i * length ys + j)%nat in
  get (SlopeData.dz_dx slope) idx = Fin a /\
  get (SlopeData.dz_dy slope) idx = Fin b /\
  get (SlopeData.magnitude slope) idx = Fin (sqrt (a * a + b * b)).
Proof.
  intros Hx Hy Hi Hj.
  destruct (computeSlope_cell atan2 s i j Hi Hj) as (E1 & E2 & E3 & _).
  fold s. cbv zeta.
  change (Surface.ny s) with (length ys) in *.
  rewrite E1, E2, E3.
  rewrite slope_dx_plane, slope_dy_plane by assumption.
  repeat split. xreal_simpl. apply xreal_sqrt_Fin. nra.
Qed.

End SlopeExact.

Lemma computeSlope_plane_witness :
  let slope :=
    computeSlope (fun _ _ => NaN)
      (grid ExampleExact.meta ExampleExact.xs ExampleExact.ys
         ExampleExact.plane_zs) in
  get (SlopeData.dz_dx slope) 5 = Fin 2 /\
  get (SlopeData.dz_dy slope) 5 = Fin 3 /\
  get (SlopeData.magnitude slope) 5 = Fin (sqrt (2 * 2 + 3 * 3)).
Proof.
  apply (computeSlope_plane (fun _ _ => NaN) ExampleExact.meta
           ExampleExact.xs ExampleExact.ys ExampleExact.plane_zs 2 3 1
           eq_refl ExampleExact_increasing_x ExampleExact_increasing_y)
    with (i := 1%nat) (j := 2%nat); cbn [length ExampleExact.xs ExampleExact.ys];
    try lia.
  intros i j Hi Hj.
  assert (Hc : (i = 0 \/ i = 1 \/ i = 2)%nat) by lia.
  assert (Hd : (j = 0 \/ j = 1 \/ j = 2)%nat) by lia.
  destruct Hc as [ -> | [ -> | -> ] ], Hd as [ -> | [ -> | -> ] ];
    cbn [cell_value nth ExampleExact.xs ExampleExact.ys ExampleExact.plane_zs
         length Nat.mul Nat.add]; lra.
Defined.

Section SlopeSingle.

Variable atan2 : xreal -> xreal -> xreal.

(** In exact arithmetic, on any surface with a single row
    ([nx = 1], one expiry on the x axis): the slope along x and the
    magnitude are NaN at every cell, because the one-sided difference reads
    the row and the expiry after the last. *)
Theorem computeSlope_single_row (s : Surface.t xreal) (j : nat) :
  Surface.nx s = 1%nat -> length (Surface.x s) = 1%nat ->
  (j < Surface.ny s)%nat ->
  get (SlopeData.dz_dx (computeSlope atan2 s)) j = NaN /\
  get (SlopeData.magnitude (computeSlope atan2 s)) j = NaN.
Proof.
  intros Hnx Hlen Hj.
  destruct (computeSlope_cell atan2 s 0 j ltac:(lia) Hj) as (E1 & _ & E3 & _).
  cbn [Nat.mul Nat.add] in E1, E3. rewrite E1, E3.
  assert (Hdx : slope_dx s 0 j = NaN).
  { unfold slope_dx. cbn [Nat.eqb Nat.add].
    assert (E : get (Surface.x s) 1 = NaN)
      by (unfold get; apply nth_overflow; lia).
    rewrite E. cbn.
    destruct (getZ s 1 j), (getZ s 0 j), (get (Surface.x s) 0);
      reflexivity. }
  rewrite Hdx. split; [reflexivity|].
  cbn. destruct (slope_dy s 0 j); reflexivity.
Qed.

End SlopeSingle.

Lemma computeSlope_single_row_witness :
  get (SlopeData.dz_dx
         (computeSlope (fun _ _ => NaN)
            (grid ExampleExact.meta [1%R] ExampleExact.ys [1; 2; 3]%R))) 1
    = NaN /\
  get (SlopeData.magnitude
         (computeSlope (fun _ _ => NaN)
            (grid ExampleExact.meta [1%R] ExampleExact.ys [1; 2; 3]%R))) 1
    = NaN.
Proof.
  apply (computeSlope_single_row (fun _ _ => NaN)
           (grid ExampleExact.meta [1%R] ExampleExact.ys [1; 2; 3]%R) 1);
    cbn; try reflexivity; lia.
Defined.

(** ** The SVI smile *)

Section SVIExact.

Import SVI.

Local Open Scope R_scope.

Variables (a b rho m sigma : R).

Let p : SVI.Params xreal :=
  {| SVI.a := Fin a; SVI.b := Fin b; SVI.rho := Fin rho; SVI.m := Fin m;
     SVI.sigma := Fin sigma |}.

(** The total variance as a real function of the log-moneyness. *)
Let w (k : R) : R :=
  a + b * (rho * (k - m) + sqrt ((k - m) * (k - m) + sigma * sigma)).

Lemma radicand_nonneg (k : R) : 0 <= (k - m) * (k - m) + sigma * sigma.
Proof.
  pose proof (Rle_0_sqr (k - m)). pose proof (Rle_0_sqr sigma).
  unfold Rsqr in *. lra.
Qed.

Lemma sviTotalVariance_Fin (k : R) : sviTotalVariance (Fin k) p = Fin (w k).
Proof.
  unfold sviTotalVariance, w.
  cbn [SVI.a SVI.b SVI.rho SVI.m SVI.sigma p].
  xreal_simpl. rewrite xreal_sqrt_Fin by apply radicand_nonneg.
  now xreal_simpl.
Qed.

(** The wing term is at least [|sigma| sqrt (1 - rho^2)]. *)
Lemma wing_lower (x : R) :
  -1 <= rho <= 1 ->
  Rabs sigma * sqrt (1 - rho * rho) <= rho * x + sqrt (x * x + sigma * sigma).
Proof.
  intros Hrho.
  assert (Hr : 0 <= 1 - rho * rho).
  { assert (0 <= (1 - rho) * (1 + rho)) by (apply Rmult_le_pos; lra). lra. }
  assert (Hs : 0 <= x * x + sigma * sigma).
  { pose proof (Rle_0_sqr x). pose proof (Rle_0_sqr sigma).
    unfold Rsqr in *. lra. }
  pose proof (sqrt_pos (x * x + sigma * sigma)) as Hs0.
  pose proof (sqrt_sqrt _ Hs) as Hss.
  pose proof (sqrt_pos (1 - rho * rho)) as Ht0.
  pose proof (sqrt_sqrt _ Hr) as Htt.
  pose proof (Rabs_pos sigma) as Ha0.
  assert (Haa : Rabs sigma * Rabs sigma = sigma * sigma).
  { unfold Rabs. destruct (Rcase_abs sigma); ring. }
  set (s := sqrt (x * x + sigma * sigma)) in *.
  set (t := sqrt (1 - rho * rho)) in *.
  set (g := Rabs sigma) in *.
  assert (Hrr : rho * rho <= 1).
  { assert (0 <= (1 - rho) * (1 + rho)) by (apply Rmult_le_pos; lra). lra. }
  assert (Hxx : 0 <= x * x) by (pose proof (Rle_0_sqr x); unfold Rsqr in *; lra).
  assert (Hgg : 0 <= sigma * sigma)
    by (pose proof (Rle_0_sqr sigma); unfold Rsqr in *; lra).
  assert (Hrx : (rho * x) * (rho * x) <= x * x).
  { replace (rho * x * (rho * x)) with (rho * rho * (x * x)) by ring.
    rewrite <- (Rmult_1_l (x * x)) at 2.
    now apply Rmult_le_compat_r. }
  assert (HA : 0 <= rho * x + s).
  { destruct (Rle_dec 0 (rho * x + s)) as [|Hn]; [assumption|exfalso].
    assert (Hlt : s < - (rho * x)) by lra.
    assert (s * s < - (rho * x) * - (rho * x))
      by (apply Rmult_le_0_lt_compat; assumption).
    replace (- (rho * x) * - (rho * x)) with (rho * x * (rho * x)) in * by ring.
    lra. }
  apply Rsqr_incr_0_var; [|assumption].
  unfold Rsqr.
  replace (g * t * (g * t)) with ((g * g) * (t * t)) by ring.
  rewrite Haa, Htt.
  assert (Hsq : 0 <= (rho * s + x) * (rho * s + x))
    by (pose proof (Rle_0_sqr (rho * s + x)); unfold Rsqr in *; lra).
  assert (E : (rho * x + s) * (rho * x + s) - sigma * sigma * (1 - rho * rho)
              = (rho * s + x) * (rho * s + x)).
  { replace (sigma * sigma) with (s * s - x * x) by lra. ring. }
  lra.
Qed.

Lemma sviTotalVariance_lower (k : R) :
  0 <= b -> -1 <= rho <= 1 ->
  a + b * (Rabs sigma * sqrt (1 - rho * rho)) <= w k.
Proof.
  intros Hb Hrho. unfold w.
  apply Rplus_le_compat_l, Rmult_le_compat_l; [assumption|].
  now apply wing_lower.
Qed.

(** In exact arithmetic, for finite parameters with [0 <= b] and
    [-1 <= rho <= 1]: the total variance is finite and nowhere below
    [a + b |sigma| sqrt (1 - rho^2)]; for [-1 < rho < 1] it has that value
    at [k = m - rho |sigma| / sqrt (1 - rho^2)]. *)
Theorem sviTotalVariance_minimum :
  0 <= b -> -1 <= rho <= 1 ->
  let least := a + b * (Rabs sigma * sqrt (1 - rho * rho)) in
  (forall k, exists v, sviTotalVariance (Fin k) p = Fin v /\ least <= v) /\
  (-1 < rho < 1 ->
   sviTotalVariance (Fin (m - rho * Rabs sigma / sqrt (1 - rho * rho))) p =
     Fin least).
Proof.
  intros Hb Hrho least. split.
  - intros k. exists (w k). split; [apply sviTotalVariance_Fin|].
    now apply sviTotalVariance_lower.
  - intros Hin. rewrite sviTotalVariance_Fin. f_equal. unfold w, least.
    assert (Hr : 0 < 1 - rho * rho).
    { assert (0 < (1 - rho) * (1 + rho)) by (apply Rmult_lt_0_compat; lra).
      lra. }
    pose proof (sqrt_lt_R0 _ Hr) as Ht0.
    pose proof (sqrt_sqrt _ (Rlt_le _ _ Hr)) as Htt.
    pose proof (Rabs_pos sigma) as Ha0.
    assert (Haa : Rabs sigma * Rabs sigma = sigma * sigma).
    { unfold Rabs. destruct (Rcase_abs sigma); ring. }
    set (t := sqrt (1 - rho * rho)) in *.
    set (g := Rabs sigma) in *.
    replace (m - rho * g / t - m) with (- (rho * g / t)) by ring.
    assert (Hsq : sqrt (- (rho * g / t) * - (rho * g / t) + sigma * sigma)
                  = g / t).
    { apply sqrt_lem_1.
      - pose proof (Rle_0_sqr (- (rho * g / t))).
        pose proof (Rle_0_sqr sigma). unfold Rsqr in *. lra.
      - apply Rmult_le_pos; [assumption|]. left. now apply Rinv_0_lt_compat.
      - rewrite <- Haa.
        replace (g / t * (g / t)) with (g * g / (t * t)) by (field; lra).
        replace (- (rho * g / t) * - (rho * g / t))
          with (rho * rho * (g * g) / (t * t)) by (field; lra).
        rewrite Htt. field. lra. }
    rewrite Hsq. f_equal. f_equal.
    replace (rho * - (rho * g / t) + g / t)
      with (g * (1 - rho * rho) / t) by (field; lra).
    rewrite <- Htt at 1. field. lra.
Qed.

(** In exact arithmetic, for finite parameters with [0 <= b],
    [-1 <= rho <= 1] and [0 <= a + b |sigma| sqrt (1 - rho^2)], and a
    positive expiry [T]: the implied volatility is finite and not negative,
    and its square times [T] is the total variance, which is what
    [calibrateSVI] makes of a quoted volatility.  For [T <= 0] the
    volatility is 0. *)
Theorem sviImpliedVol_total_variance (k T : R) :
  0 <= b -> -1 <= rho <= 1 ->
  0 <= a + b * (Rabs sigma * sqrt (1 - rho * rho)) ->
  (0 < T ->
   exists iv, sviImpliedVol (Fin k) (Fin T) p = Fin iv /\ 0 <= iv /\
              sviTotalVariance (Fin k) p = Fin (iv * iv * T)) /\
  (T <= 0 -> sviImpliedVol (Fin k) (Fin T) p = Fin 0).
Proof.
  intros Hb Hrho Hleast.
  pose proof (sviTotalVariance_lower k Hb Hrho) as Hw.
  unfold sviImpliedVol. rewrite sviTotalVariance_Fin, !xreal_of_Z.
  assert (Hlt : nltb (Fin (w k)) (Fin 0) = false)
    by (apply xreal_ltb_Fin_false; lra).
  rewrite Hlt. cbn [orb]. split.
  - intros HT.
    assert (Hle : nleb (Fin T) (Fin 0) = false)
      by (now apply xreal_leb_Fin_false).
    rewrite Hle, xreal_div_Fin by lra.
    assert (Hq : 0 <= w k / T).
    { apply Rmult_le_pos; [lra|]. left. now apply Rinv_0_lt_compat. }
    rewrite xreal_sqrt_Fin by assumption.
    exists (sqrt (w k / T)). split; [reflexivity|].
    split; [apply sqrt_pos|].
    f_equal. rewrite sqrt_sqrt by assumption. field. lra.
  - intros HT.
    assert (Hle : nleb (Fin T) (Fin 0) = true) by (now apply xreal_leb_Fin).
    now rewrite Hle.
Qed.

(** In exact arithmetic, for finite parameters with [sigma <> 0]:
    [sviDerivative] is finite and is the derivative of the total variance
    with respect to the log-moneyness. *)
Theorem sviDerivative_derives (k : R) :
  sigma <> 0 ->
  exists d,
    sviDerivative (Fin k) p = Fin d /\
    derivable_pt_lim (fun x => real_of (sviTotalVariance (Fin x) p)) k d.
Proof.
  intros Hsigma.
  assert (Hpos : 0 < (k - m) * (k - m) + sigma * sigma).
  { pose proof (Rle_0_sqr (k - m)).
    assert (0 < sigma * sigma) by (now apply Rsqr_pos_lt).
    unfold Rsqr in *. lra. }
  pose proof (sqrt_lt_R0 _ Hpos) as Hs0.
  exists (b * (rho + (k - m) / sqrt ((k - m) * (k - m) + sigma * sigma))).
  split.
  - unfold sviDerivative.
    cbn [SVI.a SVI.b SVI.rho SVI.m SVI.sigma p].
    xreal_simpl. rewrite xreal_sqrt_Fin by lra.
    rewrite xreal_div_Fin by lra. now xreal_simpl.
  - set (u := ((id - fct_cte m) * (id - fct_cte m) + fct_cte (sigma * sigma))%F).
    set (g := (fct_cte a
               + mult_real_fct b
                   (mult_real_fct rho (id - fct_cte m) + comp sqrt u))%F).
    assert (Hu : derivable_pt_lim u k
                   (((1 - 0) * (id - fct_cte m)%F k
                     + (id - fct_cte m)%F k * (1 - 0)) + 0)).
    { apply derivable_pt_lim_plus; [|apply derivable_pt_lim_const].
      apply derivable_pt_lim_mult;
        (apply derivable_pt_lim_minus;
         [apply derivable_pt_lim_id|apply derivable_pt_lim_const]). }
    assert (Huk : u k = (k - m) * (k - m) + sigma * sigma) by reflexivity.
    assert (Hg : derivable_pt_lim g k
                   (0 + b * (rho * (1 - 0)
                             + / (2 * sqrt (u k))
                               * (((1 - 0) * (id - fct_cte m)%F k
                                   + (id - fct_cte m)%F k * (1 - 0)) + 0)))).
    { apply derivable_pt_lim_plus; [apply derivable_pt_lim_const|].
      apply derivable_pt_lim_scal.
      apply derivable_pt_lim_plus.
      - apply derivable_pt_lim_scal.
        apply derivable_pt_lim_minus;
          [apply derivable_pt_lim_id|apply derivable_pt_lim_const].
      - apply derivable_pt_lim_comp; [exact Hu|].
        apply derivable_pt_lim_sqrt. now rewrite Huk. }
    replace (b * (rho + (k - m) / sqrt ((k - m) * (k - m) + sigma * sigma)))
      with (0 + b * (rho * (1 - 0)
                     + / (2 * sqrt (u k))
                       * (((1 - 0) * (id - fct_cte m)%F k
                           + (id - fct_cte m)%F k * (1 - 0)) + 0))).
    2:{ rewrite Huk. unfold minus_fct, id, fct_cte. field. lra. }
    intros eps Heps. destruct (Hg eps Heps) as [delta Hdelta].
    exists delta. intros h Hh Hlt.
    rewrite !sviTotalVariance_Fin. cbn [real_of].
    exact (Hdelta h Hh Hlt).
Qed.

(** In exact arithmetic, for two slices of finite parameters that differ
    in the level [a] only, finite expiries and finite log-moneyness
    values: [checkCalendarArbitrage] reports the pair free of arbitrage
    exactly when [T1 < T2] and, unless the list is empty, the level of the
    first slice is at most that of the second. *)
Theorem checkCalendarArbitrage_level (a2 T1 T2 : R) (ks : list R) :
  let p2 :=
    {| SVI.a := Fin a2; SVI.b := Fin b; SVI.rho := Fin rho; SVI.m := Fin m;
       SVI.sigma := Fin sigma |} in
  arbitrageFree
    (checkCalendarArbitrage p (Fin T1) p2 (Fin T2) (map Fin ks)) = true <->
  T1 < T2 /\ (ks = [] \/ a <= a2).
Proof.
  intros p2. unfold checkCalendarArbitrage.
  change (nleb (Fin T2) (Fin T1)) with (XReal.leb (Fin T2) (Fin T1)).
  cbn [XReal.leb].
  destruct (Rle_dec T2 T1) as [HT|HT]; cbn [arbitrageFree].
  { split; [discriminate|]. intros [? _]. lra. }
  assert (Hfilter : forall l,
            filter (fun k => nltb (sviTotalVariance k p2) (sviTotalVariance k p))
              (map Fin l) =
            if Rlt_dec a2 a then map Fin l else []).
  { induction l as [|x l IH]; [now destruct (Rlt_dec a2 a)|].
    cbn [map filter]. rewrite IH.
    unfold sviTotalVariance at 1 2.
    cbn [SVI.a SVI.b SVI.rho SVI.m SVI.sigma p p2].
    xreal_simpl. rewrite xreal_sqrt_Fin by apply radicand_nonneg.
    xreal_simpl. cbn [nltb xreal_Number XReal.ltb].
    destruct (Rlt_dec a2 a), (Rlt_dec _ _); try reflexivity; lra. }
  rewrite Hfilter.
  destruct (Rlt_dec a2 a) as [Hlt|Hge].
  - rewrite length_map. destruct ks as [|x ks]; cbn.
    + split; auto. intros _. split; [lra|now left].
    + split; [discriminate|]. intros [_ [E|Hle]]; [discriminate|lra].
  - cbn. split; auto. intros _. split; [lra|right; lra].
Qed.

End SVIExact.

Lemma sviTotalVariance_minimum_witness :
  let p := {| SVI.a := Fin 1; SVI.b := Fin 2; SVI.rho := Fin 0;
              SVI.m := Fin 0; SVI.sigma := Fin 3 |} in
  let least := (1 + 2 * (Rabs 3 * sqrt (1 - 0 * 0)))%R in
  (forall k, exists v,
     SVI.sviTotalVariance (Fin k) p = Fin v /\ (least <= v)%R) /\
  ((-1 < 0 < 1)%R ->
   SVI.sviTotalVariance (Fin (0 - 0 * Rabs 3 / sqrt (1 - 0 * 0))) p =
     Fin least).
Proof.
  apply (sviTotalVariance_minimum 1 2 0 0 3); lra.
Defined.

Lemma sviImpliedVol_total_variance_witness :
  let p := {| SVI.a := Fin 1; SVI.b := Fin 2; SVI.rho := Fin 0;
              SVI.m := Fin 0; SVI.sigma := Fin 3 |} in
  ((0 < 2)%R ->
   exists iv, SVI.sviImpliedVol (Fin 1) (Fin 2) p = Fin iv /\ (0 <= iv)%R /\
              SVI.sviTotalVariance (Fin 1) p = Fin (iv * iv * 2)) /\
  ((2 <= 0)%R -> SVI.sviImpliedVol (Fin 1) (Fin 2) p = Fin 0).
Proof.
  apply (sviImpliedVol_total_variance 1 2 0 0 3 1 2); try lra.
  assert (0 <= Rabs 3 * sqrt (1 - 0 * 0))%R
    by (apply Rmult_le_pos; [apply Rabs_pos|apply sqrt_pos]).
  lra.
Defined.

Lemma sviDerivative_derives_witness :
  let p := {| SVI.a := Fin 1; SVI.b := Fin 2; SVI.rho := Fin 0;
              SVI.m := Fin 0; SVI.sigma := Fin 3 |} in
  exists d,
    SVI.sviDerivative (Fin 1) p = Fin d /\
    derivable_pt_lim
      (fun x => SVI.real_of (SVI.sviTotalVariance (Fin x) p)) 1 d.
Proof.
  apply (sviDerivative_derives 1 2 0 0 3 1). lra.
Defined.
